(** * drive_property_changer: the ownership-filtered tree copy of [src/index.ts]

    A shallow embedding of [main], [processFolder], [copyFolderContents] and
    [copyFile].  The Google Drive client ([drive_v3.Drive]) is an external
    service: it is modelled as an interface ([DriveAPI]) whose methods
    transform an abstract store and may fail, and every theorem about the
    program is proved for all implementations of that interface.  An
    in-memory implementation ([MemDrive]) is provided to run the program on
    concrete folder trees. *)

From Stdlib Require Import String List Bool Arith Lia.
From Stdlib Require Import Decimal DecimalString.
Import ListNotations.
Open Scope string_scope.
Open Scope list_scope.

(** ** Data model *)

(** [interface FileInfo] (index.ts, lines 13-18). *)
Record Owner := { emailAddress : string }.

Record FileInfo := {
  id : string;
  name : string;
  mimeType : string;
  owners : list Owner
}.

(** A JavaScript exception value: [new Error(msg)] or a rejected API call. *)
Record JsError := { message : string }.

(** [response.data] of [drive.files.list]. *)
Record ListData := {
  files : list FileInfo;
  nextPageToken : option string
}.

(** [response.data] of [drive.files.get] with [fields: 'owners']. *)
Record GetData := { data_owners : option (list Owner) }.

(** [response.data] of [drive.files.create] and [drive.files.copy] with
    [fields: 'id,name']. *)
Record FileData := { data_id : string; data_name : string }.

Definition FOLDER_MIME : string := "application/vnd.google-apps.folder".
Definition LIST_FIELDS : string := "nextPageToken, files(id, name, mimeType, owners)".
Definition ID_NAME : string := "id,name".

(** The query of both list calls: [`'${folderId}' in parents and trashed = false`]. *)
Definition children_query (folderId : string) : string :=
  "'" ++ folderId ++ "' in parents and trashed = false".

(** ** The remote store *)

(** The methods of [drive.files] that the granted scope
    ([auth/drive]) allows.  [index.ts] calls [get], [list], [create] and
    [copy]; [update] and [delete] are the mutating methods it never calls. *)
Class DriveAPI := {
  Store : Type;
  files_get : string -> string -> Store -> (JsError + GetData) * Store;
  files_list : string -> string -> option string -> option nat -> Store ->
               (JsError + ListData) * Store;
  files_create : string -> string -> list string -> string -> Store ->
                 (JsError + FileData) * Store;
  files_copy : string -> string -> list string -> string -> Store ->
               (JsError + FileData) * Store;
  files_update : string -> string -> Store -> (JsError + FileData) * Store;
  files_delete : string -> Store -> (JsError + unit) * Store
}.

(** What an observer of a run sees: the calls made to the store, with their
    responses, and the lines written to the console. *)
Inductive Event :=
| EvGet (fileId fields : string) (r : JsError + GetData)
| EvList (q fields : string) (pageToken : option string) (pageSize : option nat)
         (r : JsError + ListData)
| EvCreate (name mimeType : string) (parents : list string) (fields : string)
           (r : JsError + FileData)
| EvCopy (fileId name : string) (parents : list string) (fields : string)
         (r : JsError + FileData)
| EvUpdate (fileId name : string) (r : JsError + FileData)
| EvDelete (fileId : string) (r : JsError + unit)
| ConsoleLog (msg : string)
| ConsoleError (msg : string) (error : JsError).

Definition Trace := list Event.

(** ** The monad of the program: store, exceptions, trace *)

Inductive Outcome (A : Type) :=
| Ret (a : A)
| Throw (e : JsError)
| OutOfFuel.
Arguments Ret {A} a.
Arguments Throw {A} e.
Arguments OutOfFuel {A}.

Section Program.
Context {D : DriveAPI}.

Definition M (A : Type) : Type := Store -> Outcome A * Store * Trace.

Definition ret {A} (a : A) : M A := fun s => (Ret a, s, []).

Definition bind {A B} (m : M A) (f : A -> M B) : M B :=
  fun s =>
    match m s with
    | (Ret a, s1, t1) =>
        match f a s1 with (o, s2, t2) => (o, s2, t1 ++ t2) end
    | (Throw e, s1, t1) => (Throw e, s1, t1)
    | (OutOfFuel, s1, t1) => (OutOfFuel, s1, t1)
    end.

Definition throw {A} (e : JsError) : M A := fun s => (Throw e, s, []).

Definition out_of_fuel {A} : M A := fun s => (OutOfFuel, s, []).

(** [try { m } catch (error) { h error }] *)
Definition try_catch {A} (m : M A) (h : JsError -> M A) : M A :=
  fun s =>
    match m s with
    | (Throw e, s1, t1) =>
        match h e s1 with (o, s2, t2) => (o, s2, t1 ++ t2) end
    | r => r
    end.

Notation "x <- c1 ;; c2" := (bind c1 (fun x => c2))
  (at level 61, c1 at next level, right associativity).
Notation "c1 ;; c2" := (bind c1 (fun _ => c2))
  (at level 61, right associativity).

(** [await] of a store call: a rejected promise is thrown. *)
Definition await {A} (call : Store -> (JsError + A) * Store)
           (ev : JsError + A -> Event) : M A :=
  fun s =>
    match call s with
    | (inl e, s1) => (Throw e, s1, [ev (inl e)])
    | (inr a, s1) => (Ret a, s1, [ev (inr a)])
    end.

Definition drive_files_get (fileId fields : string) : M GetData :=
  await (files_get fileId fields) (EvGet fileId fields).

Definition drive_files_list (q fields : string) (pageToken : option string)
           (pageSize : option nat) : M ListData :=
  await (files_list q fields pageToken pageSize) (EvList q fields pageToken pageSize).

Definition drive_files_create (name mimeType : string) (parents : list string)
           (fields : string) : M FileData :=
  await (files_create name mimeType parents fields) (EvCreate name mimeType parents fields).

Definition drive_files_copy (fileId name : string) (parents : list string)
           (fields : string) : M FileData :=
  await (files_copy fileId name parents fields) (EvCopy fileId name parents fields).

Definition console_log (msg : string) : M unit := fun s => (Ret tt, s, [ConsoleLog msg]).

Definition console_error (msg : string) (error : JsError) : M unit :=
  fun s => (Ret tt, s, [ConsoleError msg error]).

(** JavaScript truthiness of a [string | undefined]: the loops run
    [while (pageToken)]. *)
Definition truthy (pageToken : option string) : bool :=
  match pageToken with
  | Some EmptyString => false
  | Some _ => true
  | None => false
  end.

(** [do { pageToken = body(pageToken) } while (pageToken)], one unit of
    fuel per iteration. *)
Fixpoint do_while (fuel : nat) (body : option string -> M (option string))
         (pageToken : option string) : M unit :=
  match fuel with
  | O => out_of_fuel
  | S fuel' =>
      pageToken' <- body pageToken ;;
      if truthy pageToken' then do_while fuel' body pageToken' else ret tt
  end.

(** [for (const x of xs) body(x)] *)
Fixpoint for_of {A} (xs : list A) (body : A -> M unit) : M unit :=
  match xs with
  | [] => ret tt
  | x :: rest => body x ;; for_of rest body
  end.

(** ** The program *)

(** [file.owners.some(owner => owner.emailAddress === targetUserEmail)]
    (line 88). *)
Definition isOwnedByTarget (file : FileInfo) (targetUserEmail : string) : bool :=
  existsb (fun owner => emailAddress owner =? targetUserEmail) (owners file).

(** [file.mimeType === 'application/vnd.google-apps.folder'] *)
Definition is_folder (file : FileInfo) : bool := mimeType file =? FOLDER_MIME.

(** [copyFile] (lines 163-178). *)
Definition copyFile (fileId parentId fileName : string) : M unit :=
  try_catch
    (newFile <- drive_files_copy fileId fileName [parentId] ID_NAME ;;
     console_log ("Copied file: " ++ data_name newFile ++ " (ID: " ++ data_id newFile ++ ")"))
    (fun error => console_error ("Error copying file " ++ fileName ++ ":") error).

(** [copyFolderContents] (lines 123-161).  The fuel bounds the depth of the
    recursion and the number of pages of one folder. *)
Fixpoint copyFolderContents (fuel : nat)
         (sourceFolderId destFolderId targetUserEmail rootOwnerEmail : string) : M unit :=
  match fuel with
  | O => out_of_fuel
  | S fuel' =>
      do_while fuel' (fun pageToken =>
        response <- drive_files_list (children_query sourceFolderId) LIST_FIELDS
                                     pageToken None ;;
        let files := files response in
        let pageToken := nextPageToken response in
        for_of files (fun file =>
          if is_folder file then
            newFolder <- drive_files_create (name file) FOLDER_MIME [destFolderId] ID_NAME ;;
            copyFolderContents fuel' (id file) (data_id newFolder)
                               targetUserEmail rootOwnerEmail
          else
            copyFile (id file) destFolderId (name file)) ;;
        ret pageToken) None
  end.

(** [processFolder] (lines 64-121). *)
Fixpoint processFolder (fuel : nat)
         (folderId targetUserEmail rootOwnerEmail : string) : M unit :=
  match fuel with
  | O => out_of_fuel
  | S fuel' =>
      console_log ("Processing folder with ID: " ++ folderId) ;;
      do_while fuel' (fun pageToken =>
        response <- drive_files_list (children_query folderId) LIST_FIELDS
                                     pageToken (Some 1000) ;;
        let files := files response in
        let pageToken := nextPageToken response in
        for_of files (fun file =>
          (if isOwnedByTarget file targetUserEmail then
             console_log ("Found item owned by target user: " ++ name file
                          ++ " (ID: " ++ id file ++ ")") ;;
             if is_folder file then
               newFolder <- drive_files_create (name file) FOLDER_MIME [folderId] ID_NAME ;;
               console_log ("Created new folder: " ++ data_name newFolder
                            ++ " (ID: " ++ data_id newFolder ++ ")") ;;
               copyFolderContents fuel' (id file) (data_id newFolder)
                                  targetUserEmail rootOwnerEmail
             else
               copyFile (id file) folderId (name file)
           else ret tt) ;;
          if is_folder file then
            processFolder fuel' (id file) targetUserEmail rootOwnerEmail
          else ret tt) ;;
        ret pageToken) None
  end.

(** [authorize()] and the two [askQuestion] prompts read the credential
    files and the terminal; their results are inputs of the model:
    [authorized] is what [await authorize()] yields, [rootFolderId] and
    [targetUserEmail] are the two answers. *)
Definition authorize (authorized : JsError + unit) : M unit :=
  match authorized with
  | inl err => throw err
  | inr _ => ret tt
  end.

(** [main] (lines 20-56). *)
Definition main (fuel : nat) (authorized : JsError + unit)
           (rootFolderId targetUserEmail : string) : M unit :=
  try_catch
    (authorize authorized ;;
     rootFolder <- drive_files_get rootFolderId "owners" ;;
     match data_owners rootFolder with
     | None | Some [] =>
         throw {| message := "Could not determine the root folder owner" |}
     | Some (owner0 :: _) =>
         let rootOwnerEmail := emailAddress owner0 in
         console_log ("Root folder owner: " ++ rootOwnerEmail) ;;
         console_log ("Searching for files owned by: " ++ targetUserEmail) ;;
         processFolder fuel rootFolderId targetUserEmail rootOwnerEmail ;;
         console_log "Process completed successfully!"
     end)
    (fun error => console_error "Error:" error).

(** The last line of the file, [main();], with nothing attached to the
    promise and no assignment to [process.exitCode] anywhere in the file:
    Node ends the process with status 1 when the promise is rejected and
    with status 0 when it is fulfilled.  A run that is out of fuel has not
    ended. *)
Definition exit_status (o : Outcome unit) : option nat :=
  match o with
  | Ret _ => Some 0
  | Throw _ => Some 1
  | OutOfFuel => None
  end.

Definition run_program (fuel : nat) (authorized : JsError + unit)
           (rootFolderId targetUserEmail : string) (s : Store) : option nat * Trace :=
  match main fuel authorized rootFolderId targetUserEmail s with
  | (o, _, t) => (exit_status o, t)
  end.

End Program.

Notation "x <- c1 ;; c2" := (bind c1 (fun x => c2))
  (at level 61, c1 at next level, right associativity).
Notation "c1 ;; c2" := (bind c1 (fun _ => c2))
  (at level 61, right associativity).

(** ** The loop bodies, named *)

(** The bodies of the loops of [processFolder] and [copyFolderContents] are
    anonymous in the source.  They are named here so that statements can
    refer to one iteration; [processFolder_unfold] and
    [copyFolderContents_unfold] show that the functions above are made of
    exactly these pieces. *)
Section Bodies.
Context {D : DriveAPI}.

(** Lines 143-158: one child of the folder being copied. *)
Definition copy_item (fuel : nat) (destFolderId targetUserEmail rootOwnerEmail : string)
           (file : FileInfo) : M unit :=
  if is_folder file then
    newFolder <- drive_files_create (name file) FOLDER_MIME [destFolderId] ID_NAME ;;
    copyFolderContents fuel (id file) (data_id newFolder) targetUserEmail rootOwnerEmail
  else
    copyFile (id file) destFolderId (name file).

(** Lines 133-159: one iteration of the [do ... while] of [copyFolderContents]. *)
Definition copy_page (fuel : nat)
           (sourceFolderId destFolderId targetUserEmail rootOwnerEmail : string)
           (pageToken : option string) : M (option string) :=
  response <- drive_files_list (children_query sourceFolderId) LIST_FIELDS pageToken None ;;
  for_of (files response) (copy_item fuel destFolderId targetUserEmail rootOwnerEmail) ;;
  ret (nextPageToken response).

(** Lines 88-113: the replication of one child when it is owned by the target. *)
Definition replicate (fuel : nat) (folderId targetUserEmail rootOwnerEmail : string)
           (file : FileInfo) : M unit :=
  if isOwnedByTarget file targetUserEmail then
    console_log ("Found item owned by target user: " ++ name file
                 ++ " (ID: " ++ id file ++ ")") ;;
    if is_folder file then
      newFolder <- drive_files_create (name file) FOLDER_MIME [folderId] ID_NAME ;;
      console_log ("Created new folder: " ++ data_name newFolder
                   ++ " (ID: " ++ data_id newFolder ++ ")") ;;
      copyFolderContents fuel (id file) (data_id newFolder) targetUserEmail rootOwnerEmail
    else
      copyFile (id file) folderId (name file)
  else ret tt.

(** Lines 87-119: one child of the folder being walked. *)
Definition walk_item (fuel : nat) (folderId targetUserEmail rootOwnerEmail : string)
           (file : FileInfo) : M unit :=
  replicate fuel folderId targetUserEmail rootOwnerEmail file ;;
  if is_folder file then
    processFolder fuel (id file) targetUserEmail rootOwnerEmail
  else ret tt.

(** Lines 76-119: one iteration of the [do ... while] of [processFolder]. *)
Definition walk_page (fuel : nat) (folderId targetUserEmail rootOwnerEmail : string)
           (pageToken : option string) : M (option string) :=
  response <- drive_files_list (children_query folderId) LIST_FIELDS pageToken (Some 1000) ;;
  for_of (files response) (walk_item fuel folderId targetUserEmail rootOwnerEmail) ;;
  ret (nextPageToken response).

(** ** Observations on traces *)

(** What [copyFile] writes to the console after its call returned. *)
Definition copy_report (fileName : string) (r : JsError + FileData) : Event :=
  match r with
  | inr newFile =>
      ConsoleLog ("Copied file: " ++ data_name newFile ++ " (ID: " ++ data_id newFile ++ ")")
  | inl error => ConsoleError ("Error copying file " ++ fileName ++ ":") error
  end.

(** The error of a failed call that nothing catches: [get], [list] and
    [create] are awaited outside any [try]. *)
Definition fatal_event (ev : Event) : option JsError :=
  match ev with
  | EvGet _ _ (inl e) => Some e
  | EvList _ _ _ _ (inl e) => Some e
  | EvCreate _ _ _ _ (inl e) => Some e
  | _ => None
  end.

(** Entries the store reported in list responses. *)
Definition listed_by (ev : Event) : nat :=
  match ev with
  | EvList _ _ _ _ (inr page) => length (files page)
  | _ => 0
  end.

(** Entries the store created on request. *)
Definition created_by (ev : Event) : nat :=
  match ev with
  | EvCreate _ _ _ _ (inr _) => 1
  | EvCopy _ _ _ _ (inr _) => 1
  | _ => 0
  end.

(** Copies the store rejected. *)
Definition rejected_by (ev : Event) : nat :=
  match ev with
  | EvCopy _ _ _ _ (inl _) => 1
  | _ => 0
  end.

Definition listed (t : Trace) : nat := list_sum (map listed_by t).
Definition created (t : Trace) : nat := list_sum (map created_by t).
Definition rejected (t : Trace) : nat := list_sum (map rejected_by t).

(** A run stops at the first failed call that nothing catches: it throws
    the error of that call, which is the last event of its trace; a run that
    does not throw has seen no such failure. *)
Definition nofatal (t : Trace) : Prop := Forall (fun ev => fatal_event ev = None) t.

Definition fatal_stop {A} (r : Outcome A * Store * Trace) : Prop :=
  match r with
  | (Throw e, _, t) =>
      exists t0 ev, t = t0 ++ [ev] /\ nofatal t0 /\ fatal_event ev = Some e
  | (_, _, t) => nofatal t
  end.

(** A command that only reads or only adds to the store. *)
Definition additive (ev : Event) : Prop :=
  match ev with
  | EvUpdate _ _ _ | EvDelete _ _ => False
  | _ => True
  end.

(** The store commands of a trace, without their responses and without
    the console lines. *)
Inductive Command :=
| CGet (fileId fields : string)
| CList (q fields : string) (pageToken : option string) (pageSize : option nat)
| CCreate (name mimeType : string) (parents : list string) (fields : string)
| CCopy (fileId name : string) (parents : list string) (fields : string)
| CUpdate (fileId name : string)
| CDelete (fileId : string).

Definition command_of (ev : Event) : option Command :=
  match ev with
  | EvGet i f _ => Some (CGet i f)
  | EvList q f tok size _ => Some (CList q f tok size)
  | EvCreate n m ps f _ => Some (CCreate n m ps f)
  | EvCopy i n ps f _ => Some (CCopy i n ps f)
  | EvUpdate i n _ => Some (CUpdate i n)
  | EvDelete i _ => Some (CDelete i)
  | ConsoleLog _ | ConsoleError _ _ => None
  end.

Fixpoint commands (t : Trace) : list Command :=
  match t with
  | [] => []
  | ev :: t' =>
      match command_of ev with
      | Some c => c :: commands t'
      | None => commands t'
      end
  end.

(** ** The paging protocol, as the specification words it *)

(** The items of one page are processed one after the other, in page order. *)
Inductive items_run (item : FileInfo -> M unit) :
  list FileInfo -> Store -> Store -> Trace -> Prop :=
| items_done s : items_run item [] s s []
| items_step file rest s s1 t1 s2 t2 :
    item file s = (Ret tt, s1, t1) ->
    items_run item rest s1 s2 t2 ->
    items_run item (file :: rest) s s2 (t1 ++ t2).

(** A folder is enumerated page by page: a page is requested with the
    token of the previous one (none for the first), all its items are
    processed, and another page is requested only if the page came with a
    continuation token. *)
Inductive paged_run (q : string) (pageSize : option nat) (item : FileInfo -> M unit) :
  option string -> Store -> Store -> Trace -> Prop :=
| paged_last pageToken s page s1 s2 t :
    files_list q LIST_FIELDS pageToken pageSize s = (inr page, s1) ->
    items_run item (files page) s1 s2 t ->
    truthy (nextPageToken page) = false ->
    paged_run q pageSize item pageToken s s2
              (EvList q LIST_FIELDS pageToken pageSize (inr page) :: t)
| paged_next pageToken s page s1 s2 t s3 t' :
    files_list q LIST_FIELDS pageToken pageSize s = (inr page, s1) ->
    items_run item (files page) s1 s2 t ->
    truthy (nextPageToken page) = true ->
    paged_run q pageSize item (nextPageToken page) s2 s3 t' ->
    paged_run q pageSize item pageToken s s3
              (EvList q LIST_FIELDS pageToken pageSize (inr page) :: t ++ t').

(** ** The subtree copy, as the specification words it *)

(** The trace of a full-fidelity copy of [src] into [dst]: every child of
    every page is either recreated under [dst] and copied in turn, or copied
    into [dst].  The owner list of a child plays no part. *)
Inductive copied_from : string -> string -> option string -> Trace -> Prop :=
| copied_last src dst pageToken page t :
    truthy (nextPageToken page) = false ->
    copied_items dst (files page) t ->
    copied_from src dst pageToken
                (EvList (children_query src) LIST_FIELDS pageToken None (inr page) :: t)
| copied_next src dst pageToken page t t' :
    truthy (nextPageToken page) = true ->
    copied_items dst (files page) t ->
    copied_from src dst (nextPageToken page) t' ->
    copied_from src dst pageToken
                (EvList (children_query src) LIST_FIELDS pageToken None (inr page) :: t ++ t')
with copied_items : string -> list FileInfo -> Trace -> Prop :=
| copied_none dst : copied_items dst [] []
| copied_folder dst file rest newFolder t t' :
    is_folder file = true ->
    copied_from (id file) (data_id newFolder) None t ->
    copied_items dst rest t' ->
    copied_items dst (file :: rest)
                 (EvCreate (name file) FOLDER_MIME [dst] ID_NAME (inr newFolder) :: t ++ t')
| copied_file dst file rest r t' :
    is_folder file = false ->
    copied_items dst rest t' ->
    copied_items dst (file :: rest)
                 (EvCopy (id file) (name file) [dst] ID_NAME r
                  :: copy_report (name file) r :: t').

End Bodies.

(** ** Predicates on runs *)

Section Predicates.
Context {D : DriveAPI}.

(** What a computation returns: outcome, final store, trace. *)
Definition Run (A : Type) : Type := (Outcome A * Store * Trace)%type.

(** A run that did not stop for lack of fuel; [refines m m'] says that
    [m'] reproduces every such run of [m]. *)
Definition finished {A} (r : Run A) : Prop :=
  match r with (OutOfFuel, _, _) => False | _ => True end.

Definition refines {A} (m m' : M A) : Prop :=
  forall s, finished (m s) -> m' s = m s.

(** [safe_on R P m]: whatever the outcome of [m], the final store is
    related to the initial one by [R] and every event of the trace
    satisfies [P]. *)
Definition safe_on (R : Store -> Store -> Prop) (P : Event -> Prop) {A} (m : M A) : Prop :=
  forall s o s' t, m s = (o, s', t) -> R s s' /\ Forall P t.

(** [faithful m]: every run of [m] stops at its first fatal failure. *)
Definition faithful {A} (m : M A) : Prop := forall s, fatal_stop (m s).

(** Neither the final success line nor the driver's error line is ever
    written by the walk itself. *)
Definition quiet (ev : Event) : Prop :=
  ev <> ConsoleLog "Process completed successfully!"
  /\ forall e, ev <> ConsoleError "Error:" e.

(** One iteration of either loop: request a page, process its items,
    hand back the token. *)
Definition page_body (q : string) (pageSize : option nat) (item : FileInfo -> M unit)
           (pageToken : option string) : M (option string) :=
  response <- drive_files_list q LIST_FIELDS pageToken pageSize ;;
  for_of (files response) item ;;
  ret (nextPageToken response).

(** The same entry under other owners. *)
Definition with_owners (file : FileInfo) (os : list Owner) : FileInfo :=
  {| id := id file; name := name file; mimeType := mimeType file; owners := os |}.

(** The list calls of the walk are the ones that ask for pages of 1000
    (line 80); those of the subtree copy leave the page size out. *)
Definition is_walk_list (ev : Event) : bool :=
  match ev with
  | EvList _ _ _ (Some size) _ => Nat.eqb size 1000
  | _ => false
  end.

(** Every folder that a list call of the walk reported has been entered:
    its "Processing folder" line and the request for its first page are in
    the trace. *)
Definition descends (tr : Trace) : Prop :=
  forall q tok page child,
    In (EvList q LIST_FIELDS tok (Some 1000) (inr page)) tr ->
    In child (files page) ->
    is_folder child = true ->
    In (ConsoleLog ("Processing folder with ID: " ++ id child)) tr
    /\ exists r, In (EvList (children_query (id child)) LIST_FIELDS None (Some 1000) r) tr.

End Predicates.

Scheme copied_from_mut := Minimality for copied_from Sort Prop
  with copied_items_mut := Minimality for copied_items Sort Prop.
Combined Scheme copied_mutind from copied_from_mut, copied_items_mut.

(** ** Stores on which list, get, create and copy only add *)

(** The contract of the four methods the program uses: none of them removes
    or changes an entry the store already holds. *)
Class AdditiveStore (D : DriveAPI) := {
  Entry : Type;
  entries : Store -> list Entry;
  get_keeps : forall i f s r s', files_get i f s = (r, s') ->
                incl (entries s) (entries s');
  list_keeps : forall q f tok size s r s', files_list q f tok size s = (r, s') ->
                incl (entries s) (entries s');
  create_keeps : forall n m ps f s r s', files_create n m ps f s = (r, s') ->
                incl (entries s) (entries s');
  copy_keeps : forall i n ps f s r s', files_copy i n ps f s = (r, s') ->
                incl (entries s) (entries s')
}.

(** Every entry of the first store is an entry of the second. *)
Definition keeps {D : DriveAPI} {A : AdditiveStore D} (s s' : Store) : Prop :=
  incl (entries s) (entries s').

(** ** An in-memory store *)

(** A folder tree held in memory, with the paging of the list call, fresh
    identifiers for created entries and injectable failures.  It implements
    [DriveAPI], so the program runs on it. *)
Module MemDrive.

Record Node := {
  info : FileInfo;
  parent : string;
  trashed : bool
}.

Record State := {
  nodes : list Node;
  counter : nat;                 (* source of fresh identifiers *)
  account : string;              (* the authenticated user, owner of new entries *)
  page_limit : nat;              (* the server-side cap on a page *)
  broken_names : list string;    (* names whose creation or copy is rejected *)
  broken_folders : list string   (* folders whose listing is rejected *)
}.

Definition nat_to_string (n : nat) : string := NilEmpty.string_of_uint (Nat.to_uint n).

Definition string_to_nat (s : string) : nat :=
  match NilEmpty.uint_of_string s with
  | Some u => Nat.of_uint u
  | None => 0
  end.

Definition mem (x : string) (l : list string) : bool := existsb (String.eqb x) l.

Definition lookup (fileId : string) (s : State) : option Node :=
  find (fun n => id (info n) =? fileId) (nodes s).

Definition children (q : string) (s : State) : list Node :=
  filter (fun n => (children_query (parent n) =? q) && negb (trashed n)) (nodes s).

Definition mem_get (fileId fields : string) (s : State) : (JsError + GetData) * State :=
  match lookup fileId s with
  | Some n => (inr {| data_owners := Some (owners (info n)) |}, s)
  | None => (inl {| message := "File not found: " ++ fileId |}, s)
  end.

Definition mem_list (q fields : string) (pageToken : option string) (pageSize : option nat)
           (s : State) : (JsError + ListData) * State :=
  if mem q (map children_query (broken_folders s)) then
    (inl {| message := "Cannot list: " ++ q |}, s)
  else
    let all := children q s in
    let offset := match pageToken with Some t => string_to_nat t | None => 0 end in
    let size := Nat.min (match pageSize with Some k => k | None => 100 end) (page_limit s) in
    let next := if Nat.ltb (offset + size) (length all)
                then Some (nat_to_string (offset + size)) else None in
    (inr {| files := map info (firstn size (skipn offset all)); nextPageToken := next |}, s).

Definition add (n : Node) (s : State) : State :=
  {| nodes := nodes s ++ [n];
     counter := S (counter s);
     account := account s;
     page_limit := page_limit s;
     broken_names := broken_names s;
     broken_folders := broken_folders s |}.

Definition fresh (s : State) : string := "new" ++ nat_to_string (counter s).

Definition mem_create (name mimeType : string) (parents : list string) (fields : string)
           (s : State) : (JsError + FileData) * State :=
  if mem name (broken_names s) then
    (inl {| message := "Cannot create: " ++ name |}, s)
  else
    let n := {| info := {| id := fresh s; name := name; mimeType := mimeType;
                           owners := [ {| emailAddress := account s |} ] |};
                parent := hd EmptyString parents;
                trashed := false |} in
    (inr {| data_id := fresh s; data_name := name |}, add n s).

Definition mem_copy (fileId name : string) (parents : list string) (fields : string)
           (s : State) : (JsError + FileData) * State :=
  if mem name (broken_names s) then
    (inl {| message := "Cannot copy: " ++ name |}, s)
  else
    match lookup fileId s with
    | None => (inl {| message := "File not found: " ++ fileId |}, s)
    | Some src =>
        let n := {| info := {| id := fresh s; name := name;
                               mimeType := mimeType (info src);
                               owners := [ {| emailAddress := account s |} ] |};
                    parent := hd EmptyString parents;
                    trashed := false |} in
        (inr {| data_id := fresh s; data_name := name |}, add n s)
    end.

Definition with_nodes (l : list Node) (s : State) : State :=
  {| nodes := l;
     counter := counter s;
     account := account s;
     page_limit := page_limit s;
     broken_names := broken_names s;
     broken_folders := broken_folders s |}.

Definition rename (name : string) (n : Node) : Node :=
  {| info := {| id := id (info n); name := name; mimeType := mimeType (info n);
                owners := owners (info n) |};
     parent := parent n;
     trashed := trashed n |}.

Definition mem_update (fileId name : string) (s : State) : (JsError + FileData) * State :=
  match lookup fileId s with
  | None => (inl {| message := "File not found: " ++ fileId |}, s)
  | Some _ =>
      (inr {| data_id := fileId; data_name := name |},
       with_nodes (map (fun n => if id (info n) =? fileId then rename name n else n)
                       (nodes s)) s)
  end.

Definition mem_delete (fileId : string) (s : State) : (JsError + unit) * State :=
  match lookup fileId s with
  | None => (inl {| message := "File not found: " ++ fileId |}, s)
  | Some _ =>
      (inr tt, with_nodes (filter (fun n => negb (id (info n) =? fileId)) (nodes s)) s)
  end.

#[global] Instance drive : DriveAPI := {|
  Store := State;
  files_get := mem_get;
  files_list := mem_list;
  files_create := mem_create;
  files_copy := mem_copy;
  files_update := mem_update;
  files_delete := mem_delete
|}.

(** The number of entries (files and folders) below a folder. *)
Fixpoint count_items (depth : nat) (s : State) (folderId : string) : nat :=
  match depth with
  | O => 0
  | S depth' =>
      list_sum (map (fun n => if is_folder (info n)
                              then S (count_items depth' s (id (info n)))
                              else 1)
                    (children (children_query folderId) s))
  end.

Definition file (i n : string) (owner : string) (p : string) : Node :=
  {| info := {| id := i; name := n; mimeType := "text/plain";
                owners := [ {| emailAddress := owner |} ] |};
     parent := p; trashed := false |}.

Definition folder (i n : string) (owner : string) (p : string) : Node :=
  {| info := {| id := i; name := n; mimeType := FOLDER_MIME;
                owners := [ {| emailAddress := owner |} ] |};
     parent := p; trashed := false |}.

Definition init (l : list Node) (limit : nat) : State :=
  {| nodes := l; counter := 0; account := "admin@x.com"; page_limit := limit;
     broken_names := []; broken_folders := [] |}.

Definition break_names (l : list string) (s : State) : State :=
  {| nodes := nodes s; counter := counter s; account := account s;
     page_limit := page_limit s; broken_names := l;
     broken_folders := broken_folders s |}.

Definition break_folders (l : list string) (s : State) : State :=
  {| nodes := nodes s; counter := counter s; account := account s;
     page_limit := page_limit s; broken_names := broken_names s;
     broken_folders := l |}.

(** The scenario of the specification: root R of alice holds folder A of bob
    (with file f1 of bob inside) and file g1 of alice. *)
Definition scenario : State :=
  init [ folder "R" "R" "alice@x.com" EmptyString;
         folder "A" "A" "bob@x.com" "R";
         file "f1" "f1" "bob@x.com" "A";
         file "g1" "g1" "alice@x.com" "R" ] 1000.


#[global] Instance additive : AdditiveStore drive.
Proof.
  refine {| Entry := Node; entries := (nodes : @Store drive -> list Node) |}.
  - intros i f s r s' H. simpl in H. unfold mem_get in H.
    destruct (lookup i s); inversion H; subst; apply incl_refl.
  - intros q f tok size s r s' H. simpl in H. unfold mem_list in H.
    destruct (mem q (map children_query (broken_folders s)));
      inversion H; subst; apply incl_refl.
  - intros n m ps f s r s' H. simpl in H. unfold mem_create in H.
    destruct (mem n (broken_names s)); inversion H; subst;
      [apply incl_refl | apply incl_appl, incl_refl].
  - intros i n ps f s r s' H. simpl in H. unfold mem_copy in H.
    destruct (mem n (broken_names s)); [inversion H; subst; apply incl_refl|].
    destruct (lookup i s); inversion H; subst;
      [apply incl_appl, incl_refl | apply incl_refl].
Defined.

(** The folder of the scenario that the target owns. *)
Definition folderA : FileInfo := info (folder "A" "A" "bob@x.com" "R").

(** The scenario with one more file of the target in the root, served in
    pages of two entries. *)
Definition two_pages : State :=
  init [ folder "R" "R" "alice@x.com" EmptyString;
         folder "A" "A" "bob@x.com" "R";
         file "f1" "f1" "bob@x.com" "A";
         file "g1" "g1" "alice@x.com" "R";
         file "h1" "h1" "bob@x.com" "R" ] 2.

(** A root folder for which the store records no owner. *)
Definition orphan_root : State :=
  init [ {| info := {| id := "R"; name := "R"; mimeType := FOLDER_MIME; owners := [] |};
            parent := EmptyString; trashed := false |};
         file "g1" "g1" "bob@x.com" "R" ] 1000.

Definition bob : string := "bob@x.com".
Definition alice : string := "alice@x.com".

(** The scenario on a store that rejects every copy named f1. *)
Definition f1_rejected : State := break_names ["f1"] scenario.

(** The two-page store, rejecting the creation of anything named A. *)
Definition A_rejected : State := break_names ["A"] two_pages.

(** The scenario on a store that refuses to list folder A. *)
Definition A_unlistable : State := break_folders ["A"] scenario.

End MemDrive.

(** ** The walk, as a grammar of traces *)

(** [starts_with p s]: [s] begins with [p]. *)
Fixpoint starts_with (p s : string) : bool :=
  match p with
  | EmptyString => true
  | String a p' =>
      match s with
      | String b s' => Ascii.eqb a b && starts_with p' s'
      | EmptyString => false
      end
  end.

(** The trace of a finished walk of a folder, from the page requested with
    [pageToken] on: every child of every page, in order, leaves nothing when
    it is a file the target does not own, the walk of its contents when it
    is a folder the target does not own, a copy when it is a file of the
    target, and a new folder, the copy of its contents and then the walk of
    its contents when it is a folder of the target. *)
Inductive walked_from (target : string) : string -> option string -> Trace -> Prop :=
| walked_last folderId pageToken page t :
    truthy (nextPageToken page) = false ->
    walked_items target folderId (files page) t ->
    walked_from target folderId pageToken
                (EvList (children_query folderId) LIST_FIELDS pageToken (Some 1000)
                        (inr page) :: t)
| walked_next folderId pageToken page t t' :
    truthy (nextPageToken page) = true ->
    walked_items target folderId (files page) t ->
    walked_from target folderId (nextPageToken page) t' ->
    walked_from target folderId pageToken
                (EvList (children_query folderId) LIST_FIELDS pageToken (Some 1000)
                        (inr page) :: t ++ t')
with walked_items (target : string) : string -> list FileInfo -> Trace -> Prop :=
| walked_none folderId : walked_items target folderId [] []
| walked_skip folderId file rest t' :
    isOwnedByTarget file target = false ->
    is_folder file = false ->
    walked_items target folderId rest t' ->
    walked_items target folderId (file :: rest) t'
| walked_enter folderId file rest tw t' :
    isOwnedByTarget file target = false ->
    is_folder file = true ->
    walked_from target (id file) None tw ->
    walked_items target folderId rest t' ->
    walked_items target folderId (file :: rest)
                 (ConsoleLog ("Processing folder with ID: " ++ id file) :: tw ++ t')
| walked_copy folderId file rest r t' :
    isOwnedByTarget file target = true ->
    is_folder file = false ->
    walked_items target folderId rest t' ->
    walked_items target folderId (file :: rest)
                 (ConsoleLog ("Found item owned by target user: " ++ name file
                              ++ " (ID: " ++ id file ++ ")")
                  :: EvCopy (id file) (name file) [folderId] ID_NAME r
                  :: copy_report (name file) r :: t')
| walked_replicate folderId file rest newFolder tc tw t' :
    isOwnedByTarget file target = true ->
    is_folder file = true ->
    copied_from (id file) (data_id newFolder) None tc ->
    walked_from target (id file) None tw ->
    walked_items target folderId rest t' ->
    walked_items target folderId (file :: rest)
                 (ConsoleLog ("Found item owned by target user: " ++ name file
                              ++ " (ID: " ++ id file ++ ")")
                  :: EvCreate (name file) FOLDER_MIME [folderId] ID_NAME (inr newFolder)
                  :: ConsoleLog ("Created new folder: " ++ data_name newFolder
                                 ++ " (ID: " ++ data_id newFolder ++ ")")
                  :: tc ++ ConsoleLog ("Processing folder with ID: " ++ id file)
                  :: tw ++ t').

Scheme walked_from_mut := Minimality for walked_from Sort Prop
  with walked_items_mut := Minimality for walked_items Sort Prop.
Combined Scheme walked_mutind from walked_from_mut, walked_items_mut.

(** Entries owned by the target in the pages the walk was served (its list
    calls are the ones with a page size). *)
Definition owned_listed_by (target : string) (ev : Event) : nat :=
  match ev with
  | EvList _ _ _ (Some _) (inr page) =>
      length (filter (fun file => isOwnedByTarget file target) (files page))
  | _ => 0
  end.

(** Entries in the pages the subtree copy was served. *)
Definition copy_listed_by (ev : Event) : nat :=
  match ev with
  | EvList _ _ _ None (inr page) => length (files page)
  | _ => 0
  end.

(** Lines "Found item owned by target user: ...". *)
Definition found_by (ev : Event) : nat :=
  match ev with
  | ConsoleLog msg => if starts_with "Found item owned by target user: " msg then 1 else 0
  | _ => 0
  end.

Definition owned_listed (target : string) (t : Trace) : nat :=
  list_sum (map (owned_listed_by target) t).
Definition copy_listed (t : Trace) : nat := list_sum (map copy_listed_by t).
Definition found (t : Trace) : nat := list_sum (map found_by t).

(** Every copy command is followed at once by the console line that
    reports its outcome. *)
Inductive reported : Trace -> Prop :=
| reported_nil : reported []
| reported_copy fileId fileName parents fields r t :
    reported t ->
    reported (EvCopy fileId fileName parents fields r :: copy_report fileName r :: t)
| reported_other ev t :
    (forall fileId fileName parents fields r,
        ev <> EvCopy fileId fileName parents fields r) ->
    reported t ->
    reported (ev :: t).

(** A command that creates an entry. *)
Definition creation (ev : Event) : bool :=
  match ev with
  | EvCreate _ _ _ _ _ | EvCopy _ _ _ _ _ => true
  | _ => false
  end.

(** No page served to the walk holds an entry of the target. *)
Definition nothing_owned (target : string) (t : Trace) : Prop :=
  forall q f tok size page file,
    In (EvList q f tok (Some size) (inr page)) t ->
    In file (files page) ->
    isOwnedByTarget file target = false.

(** A trace that holds no creation unless the walk was served an entry of
    the target. *)
Definition harmless (target : string) (t : Trace) : Prop :=
  nothing_owned target t -> Forall (fun ev => creation ev = false) t.

(** [traced Q m]: the trace of every run of [m], finished or not,
    satisfies [Q]. *)
Definition traced {D : DriveAPI} (Q : Trace -> Prop) {A} (m : M A) : Prop :=
  forall s o s' t, m s = (o, s', t) -> Q t.

(** ** Runs of any outcome *)

(** Pages the store served: the list calls it answered. *)
Definition served_by (ev : Event) : nat :=
  match ev with
  | EvList _ _ _ _ (inr _) => 1
  | _ => 0
  end.

Definition served (t : Trace) : nat := list_sum (map served_by t).

(** [lasting n m]: [m] is cut short for lack of fuel only after the store
    has served it [n] pages or more. *)
Definition lasting {D : DriveAPI} (n : nat) {A} (m : M A) : Prop :=
  forall s s' t, m s = (OutOfFuel, s', t) -> n <= served t.

(** The items of a page up to the one that did not return: the items
    before it returned, in page order, and the items after it are not
    processed. *)
Inductive items_stop {D : DriveAPI} (item : FileInfo -> M unit) :
  list FileInfo -> Store -> Outcome unit -> Store -> Trace -> Prop :=
| items_stop_here file rest s o s1 t :
    item file s = (o, s1, t) ->
    o <> Ret tt ->
    items_stop item (file :: rest) s o s1 t
| items_stop_later file rest s s1 t1 o s2 t2 :
    item file s = (Ret tt, s1, t1) ->
    items_stop item rest s1 o s2 t2 ->
    items_stop item (file :: rest) s o s2 (t1 ++ t2).

(** A visit of a folder, however it ends, with [k] pages at most: the list
    call is rejected and the visit throws; or an item of the page does not
    return and no further page is requested; or all items of the page have
    returned and the visit is over when the page came without continuation
    token, and goes on with the request that carries this token when it
    came with one.  The visit is cut short only when [k] pages have been
    consumed. *)
Inductive paged_visit {D : DriveAPI} (q : string) (pageSize : option nat)
          (item : FileInfo -> M unit) :
  nat -> option string -> Store -> Outcome unit -> Store -> Trace -> Prop :=
| visit_cut pageToken s :
    paged_visit q pageSize item 0 pageToken s OutOfFuel s []
| visit_refused k pageToken s e s1 :
    files_list q LIST_FIELDS pageToken pageSize s = (inl e, s1) ->
    paged_visit q pageSize item (S k) pageToken s (Throw e) s1
                [EvList q LIST_FIELDS pageToken pageSize (inl e)]
| visit_stopped k pageToken s page s1 o s2 t :
    files_list q LIST_FIELDS pageToken pageSize s = (inr page, s1) ->
    items_stop item (files page) s1 o s2 t ->
    paged_visit q pageSize item (S k) pageToken s o s2
                (EvList q LIST_FIELDS pageToken pageSize (inr page) :: t)
| visit_last k pageToken s page s1 s2 t :
    files_list q LIST_FIELDS pageToken pageSize s = (inr page, s1) ->
    items_run item (files page) s1 s2 t ->
    truthy (nextPageToken page) = false ->
    paged_visit q pageSize item (S k) pageToken s (Ret tt) s2
                (EvList q LIST_FIELDS pageToken pageSize (inr page) :: t)
| visit_next k pageToken s page s1 s2 t o s3 t' :
    files_list q LIST_FIELDS pageToken pageSize s = (inr page, s1) ->
    items_run item (files page) s1 s2 t ->
    truthy (nextPageToken page) = true ->
    paged_visit q pageSize item k (nextPageToken page) s2 o s3 t' ->
    paged_visit q pageSize item (S k) pageToken s o s3
                (EvList q LIST_FIELDS pageToken pageSize (inr page) :: t ++ t').

(** *** The subtree copy, however it ends *)

(** The trace of [copyFolderContents] from the page requested with
    [pageToken] on, with the outcome of the run.  Every child that is
    reached is answered by one command, whoever owns it: a copy into the
    destination for a file, whose rejection is reported and passed over; a
    folder creation under the destination for a folder, whose rejection is
    thrown, and which is followed by the copy of the folder's contents into
    the new folder when it is accepted.  Nothing follows an item that did
    not return. *)
Inductive copying : string -> string -> option string -> Outcome unit -> Trace -> Prop :=
| copying_cut src dst pageToken : copying src dst pageToken OutOfFuel []
| copying_refused src dst pageToken e :
    copying src dst pageToken (Throw e)
            [EvList (children_query src) LIST_FIELDS pageToken None (inl e)]
| copying_stopped src dst pageToken page o t :
    o <> Ret tt ->
    copying_items dst (files page) o t ->
    copying src dst pageToken o
            (EvList (children_query src) LIST_FIELDS pageToken None (inr page) :: t)
| copying_last src dst pageToken page t :
    truthy (nextPageToken page) = false ->
    copying_items dst (files page) (Ret tt) t ->
    copying src dst pageToken (Ret tt)
            (EvList (children_query src) LIST_FIELDS pageToken None (inr page) :: t)
| copying_next src dst pageToken page t o t' :
    truthy (nextPageToken page) = true ->
    copying_items dst (files page) (Ret tt) t ->
    copying src dst (nextPageToken page) o t' ->
    copying src dst pageToken o
            (EvList (children_query src) LIST_FIELDS pageToken None (inr page) :: t ++ t')
with copying_items : string -> list FileInfo -> Outcome unit -> Trace -> Prop :=
| copying_done dst : copying_items dst [] (Ret tt) []
| copying_stop dst file rest o t :
    o <> Ret tt ->
    copying_item dst file o t ->
    copying_items dst (file :: rest) o t
| copying_step dst file rest t o t' :
    copying_item dst file (Ret tt) t ->
    copying_items dst rest o t' ->
    copying_items dst (file :: rest) o (t ++ t')
with copying_item : string -> FileInfo -> Outcome unit -> Trace -> Prop :=
| copying_file dst file r :
    is_folder file = false ->
    copying_item dst file (Ret tt)
                 [EvCopy (id file) (name file) [dst] ID_NAME r; copy_report (name file) r]
| copying_folder_refused dst file e :
    is_folder file = true ->
    copying_item dst file (Throw e)
                 [EvCreate (name file) FOLDER_MIME [dst] ID_NAME (inl e)]
| copying_folder dst file newFolder o t :
    is_folder file = true ->
    copying (id file) (data_id newFolder) None o t ->
    copying_item dst file o
                 (EvCreate (name file) FOLDER_MIME [dst] ID_NAME (inr newFolder) :: t).

Scheme copying_mut := Minimality for copying Sort Prop
  with copying_items_mut := Minimality for copying_items Sort Prop
  with copying_item_mut := Minimality for copying_item Sort Prop.
Combined Scheme copying_mutind from copying_mut, copying_items_mut, copying_item_mut.

(** *** The walk, however it ends *)

(** The trace of [processFolder] with the outcome of the run.  For a child
    that is reached: a file the target does not own leaves nothing; a
    folder the target does not own is entered at once; a file of the target
    is copied into the walked folder; a folder of the target is recreated
    in the walked folder and copied, and it is entered only when both have
    returned: a rejected creation is thrown, and a copy that does not
    return ends the walk.  Nothing follows an item that did not return. *)
Inductive walking (target : string) :
  string -> option string -> Outcome unit -> Trace -> Prop :=
| walking_cut folderId pageToken : walking target folderId pageToken OutOfFuel []
| walking_refused folderId pageToken e :
    walking target folderId pageToken (Throw e)
            [EvList (children_query folderId) LIST_FIELDS pageToken (Some 1000) (inl e)]
| walking_stopped folderId pageToken page o t :
    o <> Ret tt ->
    walking_items target folderId (files page) o t ->
    walking target folderId pageToken o
            (EvList (children_query folderId) LIST_FIELDS pageToken (Some 1000) (inr page) :: t)
| walking_last folderId pageToken page t :
    truthy (nextPageToken page) = false ->
    walking_items target folderId (files page) (Ret tt) t ->
    walking target folderId pageToken (Ret tt)
            (EvList (children_query folderId) LIST_FIELDS pageToken (Some 1000) (inr page) :: t)
| walking_next folderId pageToken page t o t' :
    truthy (nextPageToken page) = true ->
    walking_items target folderId (files page) (Ret tt) t ->
    walking target folderId (nextPageToken page) o t' ->
    walking target folderId pageToken o
            (EvList (children_query folderId) LIST_FIELDS pageToken (Some 1000) (inr page)
             :: t ++ t')
with walking_items (target : string) :
  string -> list FileInfo -> Outcome unit -> Trace -> Prop :=
| walking_done folderId : walking_items target folderId [] (Ret tt) []
| walking_stop folderId file rest o t :
    o <> Ret tt ->
    walking_item target folderId file o t ->
    walking_items target folderId (file :: rest) o t
| walking_step folderId file rest t o t' :
    walking_item target folderId file (Ret tt) t ->
    walking_items target folderId rest o t' ->
    walking_items target folderId (file :: rest) o (t ++ t')
with walking_item (target : string) :
  string -> FileInfo -> Outcome unit -> Trace -> Prop :=
| walking_other_file folderId file :
    isOwnedByTarget file target = false ->
    is_folder file = false ->
    walking_item target folderId file (Ret tt) []
| walking_other_folder folderId file o tw :
    isOwnedByTarget file target = false ->
    is_folder file = true ->
    entering target (id file) o tw ->
    walking_item target folderId file o tw
| walking_owned_file folderId file r :
    isOwnedByTarget file target = true ->
    is_folder file = false ->
    walking_item target folderId file (Ret tt)
                 [ConsoleLog ("Found item owned by target user: " ++ name file
                              ++ " (ID: " ++ id file ++ ")");
                  EvCopy (id file) (name file) [folderId] ID_NAME r;
                  copy_report (name file) r]
| walking_creation_refused folderId file e :
    isOwnedByTarget file target = true ->
    is_folder file = true ->
    walking_item target folderId file (Throw e)
                 [ConsoleLog ("Found item owned by target user: " ++ name file
                              ++ " (ID: " ++ id file ++ ")");
                  EvCreate (name file) FOLDER_MIME [folderId] ID_NAME (inl e)]
| walking_copy_stopped folderId file newFolder o tc :
    isOwnedByTarget file target = true ->
    is_folder file = true ->
    o <> Ret tt ->
    copying (id file) (data_id newFolder) None o tc ->
    walking_item target folderId file o
                 (ConsoleLog ("Found item owned by target user: " ++ name file
                              ++ " (ID: " ++ id file ++ ")")
                  :: EvCreate (name file) FOLDER_MIME [folderId] ID_NAME (inr newFolder)
                  :: ConsoleLog ("Created new folder: " ++ data_name newFolder
                                 ++ " (ID: " ++ data_id newFolder ++ ")")
                  :: tc)
| walking_owned_folder folderId file newFolder tc o tw :
    isOwnedByTarget file target = true ->
    is_folder file = true ->
    copying (id file) (data_id newFolder) None (Ret tt) tc ->
    entering target (id file) o tw ->
    walking_item target folderId file o
                 (ConsoleLog ("Found item owned by target user: " ++ name file
                              ++ " (ID: " ++ id file ++ ")")
                  :: EvCreate (name file) FOLDER_MIME [folderId] ID_NAME (inr newFolder)
                  :: ConsoleLog ("Created new folder: " ++ data_name newFolder
                                 ++ " (ID: " ++ data_id newFolder ++ ")")
                  :: tc ++ tw)
with entering (target : string) : string -> Outcome unit -> Trace -> Prop :=
| entering_cut folderId : entering target folderId OutOfFuel []
| entering_walk folderId o t :
    walking target folderId None o t ->
    entering target folderId o (ConsoleLog ("Processing folder with ID: " ++ folderId) :: t).

(** *** The same store under other owner lists *)

(** A page whose entries carry the owner lists [f] gives them. *)
Definition reowned (f : FileInfo -> list Owner) (page : ListData) : ListData :=
  {| files := map (fun file => with_owners file (f file)) (files page);
     nextPageToken := nextPageToken page |}.

(** The store [D] reporting the owner lists [f] gives in place of its own:
    the same entries, the same paging, the same answers to every other
    call. *)
Definition Reowned (f : FileInfo -> list Owner) (D : DriveAPI) : DriveAPI := {|
  Store := @Store D;
  files_get := @files_get D;
  files_list := fun q fields pageToken pageSize s =>
    match @files_list D q fields pageToken pageSize s with
    | (inr page, s') => (inr (reowned f page), s')
    | (inl e, s') => (inl e, s')
    end;
  files_create := @files_create D;
  files_copy := @files_copy D;
  files_update := @files_update D;
  files_delete := @files_delete D
|}.

Definition reowned_event (f : FileInfo -> list Owner) (ev : Event) : Event :=
  match ev with
  | EvList q fields pageToken pageSize (inr page) =>
      EvList q fields pageToken pageSize (inr (reowned f page))
  | _ => ev
  end.

(** [mirrors f m' m]: on the store with the owner lists of [f], [m'] does
    what [m] does on the store itself. *)
Definition mirrors {D : DriveAPI} (f : FileInfo -> list Owner) {A}
           (m' : @M (Reowned f D) A) (m : @M D A) : Prop :=
  forall s, m' s = (let '(o, s', t) := m s in (o, s', map (reowned_event f) t)).

(** ** Credentials: [askQuestion], [authorize] and [getAccessToken] *)

(** Lines 58-62 and 180-225 of index.ts.  The file system, the terminal,
    [JSON] and the token endpoint of the OAuth client are the environment:
    an interface ([AuthEnv]), as the store is for the walk. *)
Module Auth.

(** What [JSON.parse] returns.  A JavaScript value is such a value or
    [undefined] ([None]). *)
#[warnings="-register-all"]
Inductive Json :=
| JNull
| JBool (b : bool)
| JNumber (literal : string)
| JString (s : string)
| JArray (items : list Json)
| JObject (members : list (string * Json)).

Definition JsValue := option Json.

Fixpoint get_member (key : string) (members : list (string * Json)) : JsValue :=
  match members with
  | [] => None
  | (k, v) :: rest => if k =? key then Some v else get_member key rest
  end.

Definition type_error (what : string) : JsError := {| message := "TypeError: " ++ what |}.

(** [v.key], for a key that is neither an index nor a built-in property:
    reading from [undefined] or [null] throws, an object gives its member
    or [undefined], every other value gives [undefined]. *)
Definition member (v : JsValue) (key : string) : JsError + JsValue :=
  match v with
  | None =>
      inl (type_error ("Cannot read properties of undefined (reading '" ++ key ++ "')"))
  | Some JNull =>
      inl (type_error ("Cannot read properties of null (reading '" ++ key ++ "')"))
  | Some (JObject members) => inr (get_member key members)
  | Some _ => inr None
  end.

(** Strings hold their text as UTF-8, as the literals of this file do.
    [s[0]] is the first UTF-16 code unit of the text, as a string:
    [undefined] for the empty string; the first character when it lies in
    the basic plane, which is the first byte, the first two or the first
    three according to the leading byte; and the high surrogate of the
    first character when that takes four bytes, written as the three bytes
    of a code point of that value. *)
Definition first_code_unit (s : string) : option string :=
  match s with
  | EmptyString => None
  | String c0 rest =>
      let b0 := Ascii.nat_of_ascii c0 in
      if Nat.ltb b0 192 then Some (String c0 EmptyString)
      else if Nat.ltb b0 224 then Some (substring 0 2 s)
      else if Nat.ltb b0 240 then Some (substring 0 3 s)
      else
        match rest with
        | String c1 (String c2 _) =>
            let b1 := Ascii.nat_of_ascii c1 in
            let b2 := Ascii.nat_of_ascii c2 in
            let high := (b0 mod 8) * 256 + (b1 mod 64) * 4 + (b2 mod 64) / 16 - 64 in
            Some (String (Ascii.ascii_of_nat 237)
                    (String (Ascii.ascii_of_nat (160 + high / 64))
                       (String (Ascii.ascii_of_nat (128 + high mod 64)) EmptyString)))
        | _ => Some s
        end
  end.

(** [v[0]]: the first element of an array, the first code unit of a
    string, the member "0" of an object. *)
Definition element0 (v : JsValue) : JsError + JsValue :=
  match v with
  | None => inl (type_error "Cannot read properties of undefined (reading '0')")
  | Some JNull => inl (type_error "Cannot read properties of null (reading '0')")
  | Some (JArray items) => inr (hd_error items)
  | Some (JString s) => inr (option_map JString (first_code_unit s))
  | Some (JObject members) => inr (get_member "0" members)
  | Some _ => inr None
  end.

(** [const { client_secret, client_id, redirect_uris } = v] *)
Definition destructure (v : JsValue) : JsError + (JsValue * JsValue * JsValue) :=
  match v with
  | None =>
      inl (type_error "Cannot destructure property 'client_secret' of 'credentials.installed' as it is undefined.")
  | Some JNull =>
      inl (type_error "Cannot destructure property 'client_secret' of 'credentials.installed' as it is null.")
  | Some (JObject members) =>
      inr (get_member "client_secret" members, get_member "client_id" members,
           get_member "redirect_uris" members)
  | Some _ => inr (None, None, None)
  end.

(** Lines 6-11. *)
Definition SCOPES : list string :=
  [ "https://www.googleapis.com/auth/drive";
    "https://www.googleapis.com/auth/drive.metadata" ].
Definition TOKEN_PATH : string := "token.json".
Definition CREDENTIALS_PATH : string := "credentials.json".

(** The state of a [google.auth.OAuth2] object that the program touches:
    what the constructor kept of its three arguments, and what
    [setCredentials] stored. *)
Record OAuth2Client := {
  client_id : JsValue;
  client_secret : JsValue;
  redirect_uri : JsValue;
  credentials : JsValue
}.

Definition setCredentials (c : OAuth2Client) (tokens : JsValue) : OAuth2Client :=
  {| client_id := client_id c; client_secret := client_secret c;
     redirect_uri := redirect_uri c; credentials := tokens |}.

(** The environment.  Reading a file leaves the world as it is.
    [new google.auth.OAuth2(client_id, client_secret, redirect_uri)] is a
    call into the client library: it is the library that decides what is
    kept of the three arguments, and whether the call throws. *)
Class AuthEnv := {
  World : Type;
  readFileSync : string -> World -> JsError + string;
  writeFileSync : string -> string -> World -> (JsError + unit) * World;
  JSON_parse : string -> JsError + Json;
  JSON_stringify : Json -> string;
  question : string -> World -> string * World;
  new_OAuth2 : JsValue -> JsValue -> JsValue -> JsError + OAuth2Client;
  generateAuthUrl : OAuth2Client -> string -> list string -> string;
  getToken : OAuth2Client -> string -> World -> (JsError + Json) * World
}.

Inductive AuthEvent :=
| AuRead (path : string) (r : JsError + string)
| AuWrite (path content : string) (r : JsError + unit)
| AuQuestion (query answer : string)
| AuGetToken (code : string) (r : JsError + Json)
| AuLog (args : list string)
| AuError (msg : string) (error : JsError).

Section Functions.
Context {E : AuthEnv}.

Definition A (X : Type) : Type := World -> Outcome X * World * list AuthEvent.

Definition aret {X} (x : X) : A X := fun w => (Ret x, w, []).

Definition abind {X Y} (m : A X) (f : X -> A Y) : A Y :=
  fun w =>
    match m w with
    | (Ret x, w1, t1) => match f x w1 with (o, w2, t2) => (o, w2, t1 ++ t2) end
    | (Throw e, w1, t1) => (Throw e, w1, t1)
    | (OutOfFuel, w1, t1) => (OutOfFuel, w1, t1)
    end.

Definition athrow {X} (e : JsError) : A X := fun w => (Throw e, w, []).

Definition atry {X} (m : A X) (h : JsError -> A X) : A X :=
  fun w =>
    match m w with
    | (Throw e, w1, t1) => match h e w1 with (o, w2, t2) => (o, w2, t1 ++ t2) end
    | r => r
    end.

Notation "'do' x <~ c1 ;; c2" := (abind c1 (fun x => c2))
  (at level 10, x name, c1 at level 60, c2 at level 200).

(** A pure step that may throw. *)
Definition lift {X} (r : JsError + X) : A X :=
  match r with
  | inl e => athrow e
  | inr x => aret x
  end.

Definition fs_readFileSync (path : string) : A string :=
  fun w =>
    match readFileSync path w with
    | inl e => (Throw e, w, [AuRead path (inl e)])
    | inr content => (Ret content, w, [AuRead path (inr content)])
    end.

Definition fs_writeFileSync (path content : string) : A unit :=
  fun w =>
    match writeFileSync path content w with
    | (inl e, w1) => (Throw e, w1, [AuWrite path content (inl e)])
    | (inr u, w1) => (Ret u, w1, [AuWrite path content (inr u)])
    end.

Definition client_getToken (c : OAuth2Client) (code : string) : A Json :=
  fun w =>
    match getToken c code w with
    | (inl e, w1) => (Throw e, w1, [AuGetToken code (inl e)])
    | (inr tokens, w1) => (Ret tokens, w1, [AuGetToken code (inr tokens)])
    end.

Definition console_log (args : list string) : A unit := fun w => (Ret tt, w, [AuLog args]).

Definition console_error (msg : string) (error : JsError) : A unit :=
  fun w => (Ret tt, w, [AuError msg error]).

(** [askQuestion] (lines 58-62): the promise is resolved with the answer
    typed at the prompt. *)
Definition askQuestion (query : string) : A string :=
  fun w =>
    match question query w with
    | (answer, w1) => (Ret answer, w1, [AuQuestion query answer])
    end.

(** [getAccessToken] (lines 201-225). *)
Definition getAccessToken (oAuth2Client : OAuth2Client) : A OAuth2Client :=
  let authUrl := generateAuthUrl oAuth2Client "offline" SCOPES in
  do _ <~ console_log ["Authorize this app by visiting this url:"; authUrl] ;;
  do code <~ askQuestion "Enter the code from that page here: " ;;
  do tokens <~ client_getToken oAuth2Client code ;;
  let oAuth2Client := setCredentials oAuth2Client (Some tokens) in
  do _ <~ fs_writeFileSync TOKEN_PATH (JSON_stringify tokens) ;;
  do _ <~ console_log ["Token stored to"; TOKEN_PATH] ;;
  aret oAuth2Client.

(** The operand of a [return] in an async function: a value, or the
    promise of a call that is not awaited.  The function's own [try] is
    left before such a promise settles, so its [catch] never sees the
    rejection. *)
Inductive Returned (X : Type) :=
| Value (x : X)
| Promise (p : A X).
Arguments Value {X} x.
Arguments Promise {X} p.

Definition settle {X} (r : Returned X) : A X :=
  match r with
  | Value x => aret x
  | Promise p => p
  end.

(** Lines 183-185: from the text of the credential file to the client. *)
Definition build_client (content : string) : JsError + OAuth2Client :=
  match JSON_parse content with
  | inl e => inl e
  | inr credentials =>
      match member (Some credentials) "installed" with
      | inl e => inl e
      | inr installed =>
          match destructure installed with
          | inl e => inl e
          | inr (client_secret, client_id, redirect_uris) =>
              match element0 redirect_uris with
              | inl e => inl e
              | inr uri => new_OAuth2 client_id client_secret uri
              end
          end
      end
  end.

(** [authorize] (lines 180-199). *)
Definition authorize : A OAuth2Client :=
  do returned <~
    atry
      (do content <~ fs_readFileSync CREDENTIALS_PATH ;;
       do oAuth2Client <~ lift (build_client content) ;;
       atry
         (do token <~ fs_readFileSync TOKEN_PATH ;;
          do tokens <~ lift (JSON_parse token) ;;
          aret (Value (setCredentials oAuth2Client (Some tokens))))
         (fun err => aret (Promise (getAccessToken oAuth2Client))))
      (fun err =>
         do _ <~ console_error "Error loading client secret file:" err ;;
         athrow err) ;;
  settle returned.

End Functions.

(** Files behave as files: what was written is what is read, writing one
    path leaves the others alone, and neither the prompt nor the token
    endpoint touches them. *)
Class StableFiles (E : AuthEnv) := {
  read_after_write : forall p c w w',
      writeFileSync p c w = (inr tt, w') -> readFileSync p w' = inr c;
  write_elsewhere : forall p c w r w' p',
      writeFileSync p c w = (r, w') -> p' <> p -> readFileSync p' w' = readFileSync p' w;
  question_keeps_files : forall q w p,
      readFileSync p (snd (question q w)) = readFileSync p w;
  getToken_keeps_files : forall c code w p,
      readFileSync p (snd (getToken c code w)) = readFileSync p w
}.

End Auth.

(** ** [main] with its credentials and its prompts *)

Section Session.
Context {D : DriveAPI} {E : Auth.AuthEnv}.

(** Lines 21-33 of [main] supply the three inputs that [main] above takes
    as arguments: [authorize()] is awaited first and, when it returns, the
    two questions are asked in turn.  A rejected [authorize()] is thrown
    inside the [try] of [main] before any question is asked. *)
Definition main_session (fuel : nat) (w : Auth.World) (s : Store)
  : Outcome unit * Auth.World * Store * list (Auth.AuthEvent + Event) :=
  match Auth.authorize w with
  | (Ret _, w1, ta) =>
      match Auth.askQuestion "Enter the ID of the root shared folder: " w1 with
      | (Ret rootFolderId, w2, t1) =>
          match Auth.askQuestion
                  "Enter the email of the user whose files you want to find: " w2 with
          | (Ret targetUserEmail, w3, t2) =>
              match main fuel (inr tt) rootFolderId targetUserEmail s with
              | (o, s', tm) => (o, w3, s', map inl (ta ++ t1 ++ t2) ++ map inr tm)
              end
          | (_, w3, t2) => (OutOfFuel, w3, s, map inl (ta ++ t1 ++ t2))
          end
      | (_, w2, t1) => (OutOfFuel, w2, s, map inl (ta ++ t1))
      end
  | (Throw e, w1, ta) =>
      match main fuel (inl e) EmptyString EmptyString s with
      | (o, s', tm) => (o, w1, s', map inl ta ++ map inr tm)
      end
  | (OutOfFuel, w1, ta) => (OutOfFuel, w1, s, map inl ta)
  end.

End Session.

(** ** An environment held in memory *)

Module MemAuth.
Import Auth.

Record State := {
  disk : list (string * string);     (* path, content *)
  answers : list string;             (* what will be typed at the prompts *)
  endpoint : JsError + Json;         (* the reply of the token endpoint *)
  writable : bool
}.

Fixpoint assoc (path : string) (l : list (string * string)) : option string :=
  match l with
  | [] => None
  | (p, c) :: rest => if p =? path then Some c else assoc path rest
  end.

Fixpoint drop_prefix (p s : string) : option string :=
  match p with
  | EmptyString => Some s
  | String a p' =>
      match s with
      | String b s' => if Ascii.eqb a b then drop_prefix p' s' else None
      | EmptyString => None
      end
  end.

Definition mem_read (path : string) (w : State) : JsError + string :=
  match assoc path (disk w) with
  | Some c => inr c
  | None => inl {| message := "ENOENT: no such file or directory, open '" ++ path ++ "'" |}
  end.

Definition mem_write (path content : string) (w : State) : (JsError + unit) * State :=
  if writable w then
    (inr tt, {| disk := (path, content) :: disk w; answers := answers w;
                endpoint := endpoint w; writable := writable w |})
  else (inl {| message := "EACCES: permission denied, open '" ++ path ++ "'" |}, w).

Definition mem_question (query : string) (w : State) : string * State :=
  (hd EmptyString (answers w),
   {| disk := disk w; answers := tl (answers w);
      endpoint := endpoint w; writable := writable w |}).

(** Two credential documents, one of a desktop application (member
    [installed]) and one of a web application (member [web]), and token
    documents of the form [token:<access token>]; any other text is not
    JSON. *)
Definition desktop : Json :=
  JObject [("installed",
            JObject [("client_id", JString "id-1");
                     ("client_secret", JString "secret-1");
                     ("redirect_uris", JArray [JString "http://localhost"])])].

Definition web : Json :=
  JObject [("web",
            JObject [("client_id", JString "id-2");
                     ("client_secret", JString "secret-2");
                     ("redirect_uris", JArray [JString "https://example.org/cb"])])].

Definition mem_parse (text : string) : JsError + Json :=
  if text =? "desktop" then inr desktop
  else if text =? "web" then inr web
  else match drop_prefix "token:" text with
       | Some t => inr (JObject [("access_token", JString t)])
       | None => inl {| message := "SyntaxError: Unexpected token in JSON" |}
       end.

Definition mem_stringify (v : Json) : string :=
  match v with
  | JObject [(_, JString t)] => "token:" ++ t
  | _ => "null"
  end.

(** The constructor of the client: a [null] client id is a type error;
    without client id the two other arguments are dropped; otherwise the
    three arguments are kept.  The new client holds no credentials. *)
Definition mem_new_OAuth2 (id secret uri : JsValue) : JsError + OAuth2Client :=
  match id with
  | Some JNull => inl (type_error "Cannot read properties of null")
  | None =>
      inr {| client_id := None; client_secret := None; redirect_uri := None;
             credentials := Some (JObject []) |}
  | Some _ =>
      inr {| client_id := id; client_secret := secret; redirect_uri := uri;
             credentials := Some (JObject []) |}
  end.

(** The client that the credential document [desktop] gives. *)
Definition desktop_client : OAuth2Client :=
  {| client_id := Some (JString "id-1");
     client_secret := Some (JString "secret-1");
     redirect_uri := Some (JString "http://localhost");
     credentials := Some (JObject []) |}.

#[global] Instance env : AuthEnv := {|
  World := State;
  readFileSync := mem_read;
  writeFileSync := mem_write;
  JSON_parse := mem_parse;
  JSON_stringify := mem_stringify;
  question := mem_question;
  new_OAuth2 := mem_new_OAuth2;
  generateAuthUrl := fun c access scopes =>
    ("https://accounts.google.com/o/oauth2/v2/auth?access_type=" ++ access)%string;
  getToken := fun c code w => (endpoint w, w)
|}.

#[global] Instance stable : StableFiles env.
Proof.
  constructor.
  - intros p c w w' H. simpl in *. unfold mem_write in H.
    destruct (writable w); inversion H; subst.
    unfold mem_read. simpl. rewrite String.eqb_refl. reflexivity.
  - intros p c w r w' p' H Hne. simpl in *. unfold mem_write in H.
    destruct (writable w); inversion H; subst; [|reflexivity].
    unfold mem_read. simpl.
    destruct (String.eqb_spec p p') as [->|_]; [contradiction|reflexivity].
  - intros q w p. reflexivity.
  - intros c code w p. reflexivity.
Defined.

Definition token : Json := JObject [("access_token", JString "abc")].

(** Credentials and a saved token on disk. *)
Definition returning : State :=
  {| disk := [("credentials.json", "desktop"); ("token.json", "token:old")];
     answers := []; endpoint := inr token; writable := true |}.

(** Credentials only: the user will type the code 4/xyz. *)
Definition first_time : State :=
  {| disk := [("credentials.json", "desktop")];
     answers := ["4/xyz"; "R"; "bob@x.com"]; endpoint := inr token; writable := true |}.

(** The same, with an endpoint that rejects the code. *)
Definition refused : State :=
  {| disk := [("credentials.json", "desktop")];
     answers := ["4/xyz"];
     endpoint := inl {| message := "invalid_grant" |}; writable := true |}.

(** No credential file at all. *)
Definition bare : State :=
  {| disk := []; answers := ["R"; "bob@x.com"]; endpoint := inr token; writable := true |}.

(** The credential file of a web application. *)
Definition web_app : State :=
  {| disk := [("credentials.json", "web")];
     answers := []; endpoint := inr token; writable := true |}.

End MemAuth.

(** ** The metadata lister *)

(** The second script of the repository (src/unnamed/part_000): it
    authorizes with a service-account key and prints the first page of
    files.  Its environment is again an interface. *)
Module Lister.

(** An element of [res.data.files] with [fields: 'files(id, name)']. *)
Record Listed := { id : string; name : string }.

(** [res.data]: [files] may be missing from the response. *)
Record ListedData := {
  files : option (list Listed);
  nextPageToken : option string
}.

Definition SCOPES : list string :=
  [ "https://www.googleapis.com/auth/drive.metadata.readonly" ].
Definition LIST_FIELDS : string := "nextPageToken, files(id, name)".

Class ListerEnv := {
  World : Type;
  GoogleAuth : Type;
  Client : Type;
  readFile : string -> World -> JsError + string;
  JSON_parse : string -> JsError + Auth.Json;
  new_GoogleAuth : Auth.Json -> list string -> JsError + GoogleAuth;
  getClient : GoogleAuth -> World -> (JsError + Client) * World;
  files_list : Client -> nat -> string -> World -> (JsError + ListedData) * World
}.

Inductive LsEvent :=
| LsRead (path : string) (r : JsError + string)
| LsGetClient (r : JsError + unit)
| LsList (pageSize : nat) (fields : string) (r : JsError + ListedData)
| LsLog (msg : string)
| LsError (msg : string)                     (* console.error(msg) *)
| LsErrorWith (msg : string) (err : JsError) (* console.error(msg, err) *)
| LsErrorValue (err : JsError).              (* console.error(err) *)

Section Functions.
Context {E : ListerEnv}.

Definition L (X : Type) : Type := World -> Outcome X * World * list LsEvent.

Definition lret {X} (x : X) : L X := fun w => (Ret x, w, []).

Definition lbind {X Y} (m : L X) (f : X -> L Y) : L Y :=
  fun w =>
    match m w with
    | (Ret x, w1, t1) => match f x w1 with (o, w2, t2) => (o, w2, t1 ++ t2) end
    | (Throw e, w1, t1) => (Throw e, w1, t1)
    | (OutOfFuel, w1, t1) => (OutOfFuel, w1, t1)
    end.

Definition lthrow {X} (e : JsError) : L X := fun w => (Throw e, w, []).

Definition ltry {X} (m : L X) (h : JsError -> L X) : L X :=
  fun w =>
    match m w with
    | (Throw e, w1, t1) => match h e w1 with (o, w2, t2) => (o, w2, t1 ++ t2) end
    | r => r
    end.

Notation "'do' x <~ c1 ;; c2" := (lbind c1 (fun x => c2))
  (at level 10, x name, c1 at level 60, c2 at level 200).

Definition lift {X} (r : JsError + X) : L X :=
  match r with
  | inl e => lthrow e
  | inr x => lret x
  end.

Definition fs_readFile (path : string) : L string :=
  fun w =>
    match readFile path w with
    | inl e => (Throw e, w, [LsRead path (inl e)])
    | inr content => (Ret content, w, [LsRead path (inr content)])
    end.

Definition auth_getClient (auth : GoogleAuth) : L Client :=
  fun w =>
    match getClient auth w with
    | (inl e, w1) => (Throw e, w1, [LsGetClient (inl e)])
    | (inr c, w1) => (Ret c, w1, [LsGetClient (inr tt)])
    end.

Definition drive_files_list (c : Client) (pageSize : nat) (fields : string) : L ListedData :=
  fun w =>
    match files_list c pageSize fields w with
    | (inl e, w1) => (Throw e, w1, [LsList pageSize fields (inl e)])
    | (inr res, w1) => (Ret res, w1, [LsList pageSize fields (inr res)])
    end.

Definition console_log (msg : string) : L unit := fun w => (Ret tt, w, [LsLog msg]).

Definition console_error_with (msg : string) (err : JsError) : L unit :=
  fun w => (Ret tt, w, [LsErrorWith msg err]).

Fixpoint for_each {X} (xs : list X) (body : X -> L unit) : L unit :=
  match xs with
  | [] => lret tt
  | x :: rest => do _ <~ body x ;; for_each rest body
  end.

(** The operand of [return] in an async function (see [Auth.Returned]). *)
Inductive Returned (X : Type) :=
| Value (x : X)
| Promise (p : L X).
Arguments Value {X} x.
Arguments Promise {X} p.

Definition settle {X} (r : Returned X) : L X :=
  match r with
  | Value x => lret x
  | Promise p => p
  end.

(** [authorize] (part_000, lines 19-34). *)
Definition authorize (SERVICE_ACCOUNT_JSON_PATH : string) : L Client :=
  do returned <~
    ltry
      (do content <~ fs_readFile SERVICE_ACCOUNT_JSON_PATH ;;
       do serviceAccountKey <~ lift (JSON_parse content) ;;
       do auth <~ lift (new_GoogleAuth serviceAccountKey SCOPES) ;;
       lret (Promise (auth_getClient auth)))
      (fun err =>
         do _ <~ console_error_with "Error al autorizar con la cuenta de servicio:" err ;;
         lthrow err) ;;
  settle returned.

(** [listFiles] (part_000, lines 40-56). *)
Definition listFiles (authClient : Client) : L unit :=
  do res <~ drive_files_list authClient 10 LIST_FIELDS ;;
  let files := files res in
  match files with
  | Some [] => console_log "No files found."
  | _ =>
      do _ <~ console_log "Files:" ;;
      match files with
      | Some l => for_each l (fun file => console_log (name file ++ " (" ++ id file ++ ")"))
      | None => lret tt
      end
  end.

(** The script (part_000, lines 6-11 and 58): the exit status of the
    process, the world it leaves and what it did.  [process.exit(1)] ends
    the process on the spot; otherwise the chain
    [authorize().then(listFiles).catch(console.error)] settles and the
    process ends with status 0. *)
Definition script (SERVICE_ACCOUNT_JSON_PATH : option string) (w : World)
  : option nat * World * list LsEvent :=
  if negb (truthy SERVICE_ACCOUNT_JSON_PATH) then
    (Some 1, w,
     [LsError "La variable de entorno SERVICE_ACCOUNT_JSON_PATH no está definida."])
  else
    let path := match SERVICE_ACCOUNT_JSON_PATH with
                | Some p => p
                | None => EmptyString
                end in
    match lbind (authorize path) listFiles w with
    | (Ret _, w1, t) => (Some 0, w1, t)
    | (Throw e, w1, t) => (Some 0, w1, t ++ [LsErrorValue e])
    | (OutOfFuel, w1, t) => (None, w1, t)
    end.

(** What [listFiles] prints for a response. *)
Definition lines (res : ListedData) : list LsEvent :=
  match files res with
  | Some [] => [LsLog "No files found."]
  | Some l => LsLog "Files:" :: map (fun file => LsLog (name file ++ " (" ++ id file ++ ")")) l
  | None => [LsLog "Files:"]
  end.

End Functions.

End Lister.

(** An environment for the lister, held in memory. *)
Module MemLister.
Import Lister.

Record State := {
  key_file : option string;          (* the text of the key file, if it exists *)
  reply : JsError + ListedData       (* the reply of the list call *)
}.

#[global] Instance env : ListerEnv := {|
  World := State;
  GoogleAuth := Auth.Json;
  Client := Auth.Json;
  readFile := fun path w =>
    match key_file w with
    | Some c => inr c
    | None => inl {| message := "ENOENT: no such file or directory" |}
    end;
  JSON_parse := MemAuth.mem_parse;
  new_GoogleAuth := fun key scopes => inr key;
  getClient := fun auth w =>
    match auth with
    | Auth.JObject (("web", _) :: _) =>
        (inl {| message := "The incoming JSON object does not contain a client_email field" |}, w)
    | _ => (inr auth, w)
    end;
  files_list := fun c pageSize fields w => (reply w, w)
|}.

Definition two_files : State :=
  {| key_file := Some "desktop";
     reply := inr {| files := Some [ {| id := "1"; name := "a.txt" |};
                                     {| id := "2"; name := "b.txt" |} ];
                     nextPageToken := Some "more" |} |}.

Definition no_key : State :=
  {| key_file := None; reply := inr {| files := Some []; nextPageToken := None |} |}.

End MemLister.

(** ** Reasoning about runs *)

Section Runs.
Context {D : DriveAPI}.

Lemma bind_inv {A B} (m : M A) (f : A -> M B) s o s' t :
  bind m f s = (o, s', t) ->
  (exists a s1 t1 t2,
      m s = (Ret a, s1, t1) /\ f a s1 = (o, s', t2) /\ t = t1 ++ t2)
  \/ (exists e, m s = (Throw e, s', t) /\ o = Throw e)
  \/ (m s = (OutOfFuel, s', t) /\ o = OutOfFuel).
Proof.
  unfold bind. destruct (m s) as [[[a|e|] s1] t1] eqn:Hm.
  - destruct (f a s1) as [[o2 s2] t2] eqn:Hf. intros H; inversion H; subst.
    left. exists a, s1, t1, t2. auto.
  - intros H; inversion H; subst. right; left. exists e. auto.
  - intros H; inversion H; subst. right; right. auto.
Qed.

Lemma bind_Ret_inv {A B} (m : M A) (f : A -> M B) s b s' t :
  bind m f s = (Ret b, s', t) ->
  exists a s1 t1 t2,
    m s = (Ret a, s1, t1) /\ f a s1 = (Ret b, s', t2) /\ t = t1 ++ t2.
Proof.
  intros H. apply bind_inv in H. destruct H as [H|[[e [_ H]]|[_ H]]]; [exact H| |]; discriminate.
Qed.

Lemma bind_Ret {A B} (m : M A) (f : A -> M B) s a s1 t1 :
  m s = (Ret a, s1, t1) ->
  bind m f s = (let '(o, s2, t2) := f a s1 in (o, s2, t1 ++ t2)).
Proof. intros H. unfold bind. rewrite H. reflexivity. Qed.

Lemma bind_Throw {A B} (m : M A) (f : A -> M B) s e s1 t1 :
  m s = (Throw e, s1, t1) -> bind m f s = (Throw e, s1, t1).
Proof. intros H. unfold bind. rewrite H. reflexivity. Qed.

Lemma await_inv {A} (call : Store -> (JsError + A) * Store) ev s o s' t :
  await call ev s = (o, s', t) ->
  exists r, call s = (r, s') /\ t = [ev r] /\
            o = match r with inl e => Throw e | inr a => Ret a end.
Proof.
  unfold await. destruct (call s) as [[e|a] s1]; intros H; inversion H; subst; eauto.
Qed.

Lemma for_of_cons_Ret {A} (x : A) xs (body : A -> M unit) s s' t :
  for_of (x :: xs) body s = (Ret tt, s', t) ->
  exists s1 t1 t2,
    body x s = (Ret tt, s1, t1) /\ for_of xs body s1 = (Ret tt, s', t2) /\ t = t1 ++ t2.
Proof.
  simpl. intros H. apply bind_Ret_inv in H. destruct H as ([] & s1 & t1 & t2 & H1 & H2 & H3).
  eauto 6.
Qed.

Lemma do_while_Ret fuel (body : option string -> M (option string)) tok s s' t :
  do_while fuel body tok s = (Ret tt, s', t) ->
  exists fuel' tok' s1 t1 t2,
    fuel = S fuel' /\ body tok s = (Ret tok', s1, t1) /\ t = t1 ++ t2 /\
    if truthy tok' then do_while fuel' body tok' s1 = (Ret tt, s', t2)
    else s' = s1 /\ t2 = [].
Proof.
  destruct fuel as [|fuel']; simpl; [discriminate|].
  intros H. apply bind_Ret_inv in H. destruct H as (tok' & s1 & t1 & t2 & H1 & H2 & H3).
  exists fuel', tok', s1, t1, t2. repeat split; auto.
  destruct (truthy tok'); [exact H2|]. inversion H2; auto.
Qed.

(** *** Extensionality of the loops *)

Lemma bind_ext {A B} (m m' : M A) (f f' : A -> M B) s :
  m s = m' s -> (forall a s1, f a s1 = f' a s1) -> bind m f s = bind m' f' s.
Proof.
  intros Hm Hf. unfold bind. rewrite Hm.
  destruct (m' s) as [[[a| |] s1] t1]; auto. rewrite Hf. reflexivity.
Qed.

Lemma for_of_ext {A} (xs : list A) (body body' : A -> M unit) :
  (forall x s, body x s = body' x s) -> forall s, for_of xs body s = for_of xs body' s.
Proof.
  intros H. induction xs as [|x xs IH]; intros s; simpl; [reflexivity|].
  apply bind_ext; auto.
Qed.

Lemma do_while_ext fuel (body body' : option string -> M (option string)) :
  (forall tok s, body tok s = body' tok s) ->
  forall tok s, do_while fuel body tok s = do_while fuel body' tok s.
Proof.
  intros H. induction fuel as [|fuel IH]; intros tok s; simpl; [reflexivity|].
  apply bind_ext; auto. intros a s1. destruct (truthy a); auto.
Qed.

(** *** More fuel never changes a finished run *)

Lemma refines_refl {A} (m : M A) : refines m m.
Proof. intros s _. reflexivity. Qed.

Lemma bind_refines {A B} (m m' : M A) (f f' : A -> M B) :
  refines m m' -> (forall a, refines (f a) (f' a)) -> refines (bind m f) (bind m' f').
Proof.
  intros Hm Hf s. unfold bind.
  destruct (m s) as [[[a|e|] s1] t1] eqn:E.
  - rewrite (Hm s) by (rewrite E; exact I). rewrite E.
    destruct (f a s1) as [[o2 s2] t2] eqn:E2. intros Hfin.
    rewrite (Hf a s1); rewrite E2; [reflexivity|].
    destruct o2; simpl in *; auto.
  - rewrite (Hm s) by (rewrite E; exact I). rewrite E. reflexivity.
  - simpl. tauto.
Qed.

Lemma try_catch_refines {A} (m m' : M A) (h h' : JsError -> M A) :
  refines m m' -> (forall e, refines (h e) (h' e)) ->
  refines (try_catch m h) (try_catch m' h').
Proof.
  intros Hm Hh s. unfold try_catch.
  destruct (m s) as [[[a|e|] s1] t1] eqn:E.
  - rewrite (Hm s) by (rewrite E; exact I). rewrite E. reflexivity.
  - rewrite (Hm s) by (rewrite E; exact I). rewrite E.
    destruct (h e s1) as [[o2 s2] t2] eqn:E2. intros Hfin.
    rewrite (Hh e s1); rewrite E2; [reflexivity|].
    destruct o2; simpl in *; auto.
  - simpl. tauto.
Qed.

Lemma for_of_refines {A} (xs : list A) (body body' : A -> M unit) :
  (forall x, refines (body x) (body' x)) -> refines (for_of xs body) (for_of xs body').
Proof.
  intros H. induction xs as [|x xs IH]; simpl.
  - apply refines_refl.
  - apply bind_refines; auto.
Qed.

Lemma do_while_refines fuel fuel' (body body' : option string -> M (option string)) :
  fuel <= fuel' -> (forall tok, refines (body tok) (body' tok)) ->
  forall tok, refines (do_while fuel body tok) (do_while fuel' body' tok).
Proof.
  intros Hle Hb. revert fuel' Hle.
  induction fuel as [|fuel IH]; intros fuel' Hle tok.
  - intros s Hfin. simpl in Hfin. contradiction.
  - destruct fuel' as [|fuel']; [lia|]. simpl.
    apply bind_refines; auto. intros a.
    destruct (truthy a); [apply IH; lia | apply refines_refl].
Qed.

Lemma copyFolderContents_refines fuel :
  forall fuel' src dst target rootOwner, fuel <= fuel' ->
    refines (copyFolderContents fuel src dst target rootOwner)
            (copyFolderContents fuel' src dst target rootOwner).
Proof.
  induction fuel as [|fuel IH]; intros fuel' src dst target rootOwner Hle.
  - intros s Hfin. simpl in Hfin. contradiction.
  - destruct fuel' as [|fuel']; [lia|]. simpl.
    apply do_while_refines; [lia|]. intros tok.
    apply bind_refines; [apply refines_refl|]. intros resp.
    apply bind_refines; [|intros; apply refines_refl].
    apply for_of_refines. intros file.
    destruct (is_folder file); [|apply refines_refl].
    apply bind_refines; [apply refines_refl|]. intros nf. apply IH. lia.
Qed.

Lemma processFolder_refines fuel :
  forall fuel' folderId target rootOwner, fuel <= fuel' ->
    refines (processFolder fuel folderId target rootOwner)
            (processFolder fuel' folderId target rootOwner).
Proof.
  induction fuel as [|fuel IH]; intros fuel' folderId target rootOwner Hle.
  - intros s Hfin. simpl in Hfin. contradiction.
  - destruct fuel' as [|fuel']; [lia|]. simpl.
    apply bind_refines; [apply refines_refl|]. intros _.
    apply do_while_refines; [lia|]. intros tok.
    apply bind_refines; [apply refines_refl|]. intros resp.
    apply bind_refines; [|intros; apply refines_refl].
    apply for_of_refines. intros file.
    apply bind_refines.
    + destruct (isOwnedByTarget file target); [|apply refines_refl].
      apply bind_refines; [apply refines_refl|]. intros _.
      destruct (is_folder file); [|apply refines_refl].
      apply bind_refines; [apply refines_refl|]. intros nf.
      apply bind_refines; [apply refines_refl|]. intros _.
      apply copyFolderContents_refines. lia.
    + intros _. destruct (is_folder file); [apply IH; lia | apply refines_refl].
Qed.

End Runs.

(** ** The program, one iteration at a time *)

Section Steps.
Context {D : DriveAPI}.

Lemma copyFolderContents_unfold fuel src dst target rootOwner :
  copyFolderContents (S fuel) src dst target rootOwner
  = do_while fuel (copy_page fuel src dst target rootOwner) None.
Proof. reflexivity. Qed.

Lemma processFolder_unfold fuel folderId target rootOwner :
  processFolder (S fuel) folderId target rootOwner
  = (console_log ("Processing folder with ID: " ++ folderId) ;;
     do_while fuel (walk_page fuel folderId target rootOwner) None).
Proof. reflexivity. Qed.

Lemma copyFile_run fileId parentId fileName s :
  copyFile fileId parentId fileName s
  = (let '(r, s') := files_copy fileId fileName [parentId] ID_NAME s in
     (Ret tt, s', [EvCopy fileId fileName [parentId] ID_NAME r; copy_report fileName r])).
Proof.
  unfold copyFile, try_catch, bind, drive_files_copy, await.
  destruct (files_copy fileId fileName [parentId] ID_NAME s) as [[e|a] s']; reflexivity.
Qed.

Lemma create_run n m ps f s :
  drive_files_create n m ps f s
  = (let '(r, s') := files_create n m ps f s in
     (match r with inl e => Throw e | inr a => Ret a end, s', [EvCreate n m ps f r])).
Proof.
  unfold drive_files_create, await.
  destruct (files_create n m ps f s) as [[e|a] s']; reflexivity.
Qed.

Lemma list_run q f tok size s :
  drive_files_list q f tok size s
  = (let '(r, s') := files_list q f tok size s in
     (match r with inl e => Throw e | inr a => Ret a end, s', [EvList q f tok size r])).
Proof.
  unfold drive_files_list, await.
  destruct (files_list q f tok size s) as [[e|a] s']; reflexivity.
Qed.

End Steps.

(** ** Ownership matching *)

Section Ownership.
Context {D : DriveAPI}.

(** C6. The ownership match of the walk holds exactly when some owner of
    the entry has an address equal, character for character, to the target:
    an entry without owners never matches, an address that differs from the
    target only by letter case does not match, and the walk replicates a
    child only when the match holds. *)
Theorem ownership_match_is_exact_equality :
  (forall (file : FileInfo) (target : string),
      isOwnedByTarget file target = true
      <-> exists owner, In owner (owners file) /\ emailAddress owner = target)
  /\ (forall i n m target,
         isOwnedByTarget {| id := i; name := n; mimeType := m; owners := [] |} target = false)
  /\ (forall i n m,
         isOwnedByTarget {| id := i; name := n; mimeType := m;
                            owners := [ {| emailAddress := "Bob@x.com" |} ] |}
                         "bob@x.com" = false)
  /\ (forall fuel folderId target rootOwner file s,
         isOwnedByTarget file target = false ->
         replicate fuel folderId target rootOwner file s = (Ret tt, s, [])).
Proof.
  repeat split.
  - unfold isOwnedByTarget. intros H. apply existsb_exists in H.
    destruct H as (o & Hin & Heq). exists o. split; [exact Hin|].
    apply String.eqb_eq. exact Heq.
  - unfold isOwnedByTarget. intros (o & Hin & Heq). apply existsb_exists.
    exists o. split; [exact Hin|]. apply String.eqb_eq. exact Heq.
  - intros. unfold replicate. rewrite H. reflexivity.
Qed.

End Ownership.

(** ** The root owner is only carried along *)

Section RootOwner.
Context {D : DriveAPI}.

Lemma copyFolderContents_rootOwner fuel :
  forall src dst target r1 r2 s,
    copyFolderContents fuel src dst target r1 s = copyFolderContents fuel src dst target r2 s.
Proof.
  induction fuel as [|fuel IH]; intros src dst target r1 r2 s; [reflexivity|].
  rewrite !copyFolderContents_unfold. apply do_while_ext. clear s.
  intros tok s. unfold copy_page.
  apply bind_ext; [reflexivity|]. intros resp s1.
  apply bind_ext; [|reflexivity].
  apply for_of_ext. intros file s2. unfold copy_item.
  destruct (is_folder file); [|reflexivity].
  apply bind_ext; [reflexivity|]. intros nf s3. apply IH.
Qed.

Lemma replicate_rootOwner fuel folderId target r1 r2 file s :
  replicate fuel folderId target r1 file s = replicate fuel folderId target r2 file s.
Proof.
  unfold replicate. destruct (isOwnedByTarget file target); [|reflexivity].
  apply bind_ext; [reflexivity|]. intros _ s1.
  destruct (is_folder file); [|reflexivity].
  apply bind_ext; [reflexivity|]. intros nf s2.
  apply bind_ext; [reflexivity|]. intros _ s3.
  apply copyFolderContents_rootOwner.
Qed.

Lemma processFolder_rootOwner fuel :
  forall folderId target r1 r2 s,
    processFolder fuel folderId target r1 s = processFolder fuel folderId target r2 s.
Proof.
  induction fuel as [|fuel IH]; intros folderId target r1 r2 s; [reflexivity|].
  rewrite !processFolder_unfold.
  apply bind_ext; [reflexivity|]. intros _ s0.
  apply do_while_ext. intros tok s1. unfold walk_page.
  apply bind_ext; [reflexivity|]. intros resp s2.
  apply bind_ext; [|reflexivity].
  apply for_of_ext. intros file s3. unfold walk_item.
  apply bind_ext; [apply replicate_rootOwner|]. intros _ s4.
  destruct (is_folder file); [apply IH | reflexivity].
Qed.

(** C10. Two runs of the walk that differ only in [rootOwnerEmail] are the
    same run: same outcome, same final store and same trace, hence the same
    sequence of store commands.  The same holds for the subtree copy. *)
Theorem rootOwner_never_influences_the_walk :
  forall fuel folderId target rootOwner1 rootOwner2 s,
    processFolder fuel folderId target rootOwner1 s
    = processFolder fuel folderId target rootOwner2 s
    /\ commands (snd (processFolder fuel folderId target rootOwner1 s))
       = commands (snd (processFolder fuel folderId target rootOwner2 s))
    /\ forall dst,
        copyFolderContents fuel folderId dst target rootOwner1 s
        = copyFolderContents fuel folderId dst target rootOwner2 s.
Proof.
  intros. split; [apply processFolder_rootOwner|]. split.
  - rewrite (processFolder_rootOwner fuel folderId target rootOwner1 rootOwner2). reflexivity.
  - intros dst. apply copyFolderContents_rootOwner.
Qed.

End RootOwner.

(** ** Invariants of all runs *)

Section Safe.
Context {D : DriveAPI}.
Variable R : Store -> Store -> Prop.
Variable P : Event -> Prop.
Hypothesis R_refl : forall s, R s s.
Hypothesis R_trans : forall s1 s2 s3, R s1 s2 -> R s2 s3 -> R s1 s3.

Local Abbreviation safe := (safe_on R P).

Lemma safe_ret {A} (a : A) : safe (ret a).
Proof. intros s o s' t H. inversion H; subst. auto. Qed.

Lemma safe_out_of_fuel {A} : safe (@out_of_fuel D A).
Proof. intros s o s' t H. inversion H; subst. auto. Qed.

Lemma safe_bind {A B} (m : M A) (f : A -> M B) :
  safe m -> (forall a, safe (f a)) -> safe (bind m f).
Proof.
  intros Hm Hf s o s' t H. apply bind_inv in H.
  destruct H as [(a & s1 & t1 & t2 & H1 & H2 & ->)|[(e & H1 & _)|(H1 & _)]].
  - apply Hm in H1. apply Hf in H2. destruct H1, H2. split; [eauto|].
    apply Forall_app; auto.
  - apply Hm in H1. exact H1.
  - apply Hm in H1. exact H1.
Qed.

Lemma safe_try_catch {A} (m : M A) (h : JsError -> M A) :
  safe m -> (forall e, safe (h e)) -> safe (try_catch m h).
Proof.
  intros Hm Hh s o s' t. unfold try_catch.
  destruct (m s) as [[[a|e|] s1] t1] eqn:E.
  - intros H. rewrite H in E. apply (Hm _ _ _ _ E).
  - destruct (h e s1) as [[o2 s2] t2] eqn:E2. intros H; inversion H; subst.
    apply Hm in E. apply Hh in E2. destruct E, E2. split; [eauto|].
    apply Forall_app; auto.
  - intros H. rewrite H in E. apply (Hm _ _ _ _ E).
Qed.

Lemma safe_for_of {A} (xs : list A) (body : A -> M unit) :
  (forall x, safe (body x)) -> safe (for_of xs body).
Proof.
  intros H. induction xs as [|x xs IH]; simpl.
  - apply safe_ret.
  - apply safe_bind; auto.
Qed.

Lemma safe_do_while fuel (body : option string -> M (option string)) :
  (forall tok, safe (body tok)) -> forall tok, safe (do_while fuel body tok).
Proof.
  intros H. induction fuel as [|fuel IH]; intros tok; simpl.
  - apply safe_out_of_fuel.
  - apply safe_bind; auto. intros a. destruct (truthy a); [apply IH | apply safe_ret].
Qed.

Hypothesis safe_list_copy : forall q tok, safe (drive_files_list q LIST_FIELDS tok None).
Hypothesis safe_list_walk : forall q tok, safe (drive_files_list q LIST_FIELDS tok (Some 1000)).
Hypothesis safe_create : forall n ps, safe (drive_files_create n FOLDER_MIME ps ID_NAME).
Hypothesis safe_copy : forall i n ps, safe (drive_files_copy i n ps ID_NAME).
Hypothesis safe_processing :
  forall x, P (ConsoleLog ("Processing folder with ID: " ++ x)).
Hypothesis safe_found :
  forall x y, P (ConsoleLog ("Found item owned by target user: " ++ x ++ " (ID: " ++ y ++ ")")).
Hypothesis safe_created :
  forall x y, P (ConsoleLog ("Created new folder: " ++ x ++ " (ID: " ++ y ++ ")")).
Hypothesis safe_copied :
  forall x y, P (ConsoleLog ("Copied file: " ++ x ++ " (ID: " ++ y ++ ")")).
Hypothesis safe_report : forall n e, P (ConsoleError ("Error copying file " ++ n ++ ":") e).

Lemma safe_console_log msg : P (ConsoleLog msg) -> safe (console_log msg).
Proof. intros HP s o s' t H. inversion H; subst. auto. Qed.

Lemma safe_copyFile fileId parentId fileName : safe (copyFile fileId parentId fileName).
Proof.
  unfold copyFile. apply safe_try_catch.
  - apply safe_bind; [apply safe_copy|]. intros nf. apply safe_console_log.
    apply safe_copied.
  - intros e s o s' t H. inversion H; subst. split; [apply R_refl|].
    constructor; [apply safe_report | constructor].
Qed.

Lemma safe_copyFolderContents fuel :
  forall src dst target rootOwner, safe (copyFolderContents fuel src dst target rootOwner).
Proof.
  induction fuel as [|fuel IH]; intros src dst target rootOwner.
  - apply safe_out_of_fuel.
  - rewrite copyFolderContents_unfold. apply safe_do_while. intros tok.
    unfold copy_page. apply safe_bind; [apply safe_list_copy|]. intros resp.
    apply safe_bind; [|intros; apply safe_ret].
    apply safe_for_of. intros file. unfold copy_item.
    destruct (is_folder file); [|apply safe_copyFile].
    apply safe_bind; [apply safe_create|]. intros nf. apply IH.
Qed.

Lemma safe_replicate fuel folderId target rootOwner file :
  safe (replicate fuel folderId target rootOwner file).
Proof.
  unfold replicate. destruct (isOwnedByTarget file target); [|apply safe_ret].
  apply safe_bind; [apply safe_console_log, safe_found|]. intros _.
  destruct (is_folder file); [|apply safe_copyFile].
  apply safe_bind; [apply safe_create|]. intros nf.
  apply safe_bind; [apply safe_console_log, safe_created|]. intros _.
  apply safe_copyFolderContents.
Qed.

Lemma safe_processFolder fuel :
  forall folderId target rootOwner, safe (processFolder fuel folderId target rootOwner).
Proof.
  induction fuel as [|fuel IH]; intros folderId target rootOwner.
  - apply safe_out_of_fuel.
  - rewrite processFolder_unfold.
    apply safe_bind; [apply safe_console_log, safe_processing|]. intros _.
    apply safe_do_while. intros tok.
    unfold walk_page. apply safe_bind; [apply safe_list_walk|]. intros resp.
    apply safe_bind; [|intros; apply safe_ret].
    apply safe_for_of. intros file. unfold walk_item.
    apply safe_bind; [apply safe_replicate|]. intros _.
    destruct (is_folder file); [apply IH | apply safe_ret].
Qed.

End Safe.

(** ** Which failures escape *)

Section Fatal.
Context {D : DriveAPI}.

Lemma faithful_ret {A} (a : A) : faithful (ret a).
Proof. intros s. constructor. Qed.

Lemma faithful_out_of_fuel {A} : faithful (@out_of_fuel D A).
Proof. intros s. constructor. Qed.

Lemma faithful_console_log msg : faithful (console_log msg).
Proof. intros s. repeat constructor. Qed.

Lemma faithful_bind {A B} (m : M A) (f : A -> M B) :
  faithful m -> (forall a, faithful (f a)) -> faithful (bind m f).
Proof.
  intros Hm Hf s. unfold bind. specialize (Hm s).
  destruct (m s) as [[[a|e|] s1] t1]; simpl in *; auto.
  specialize (Hf a s1). destruct (f a s1) as [[[b|e|] s2] t2]; simpl in *.
  - apply Forall_app; auto.
  - destruct Hf as (t0 & ev & -> & H0 & Hev). exists (t1 ++ t0), ev.
    rewrite app_assoc. repeat split; auto. apply Forall_app; auto.
  - apply Forall_app; auto.
Qed.

Lemma faithful_for_of {A} (xs : list A) (body : A -> M unit) :
  (forall x, faithful (body x)) -> faithful (for_of xs body).
Proof.
  intros H. induction xs as [|x xs IH]; simpl.
  - apply faithful_ret.
  - apply faithful_bind; auto.
Qed.

Lemma faithful_do_while fuel (body : option string -> M (option string)) :
  (forall tok, faithful (body tok)) -> forall tok, faithful (do_while fuel body tok).
Proof.
  intros H. induction fuel as [|fuel IH]; intros tok; simpl.
  - apply faithful_out_of_fuel.
  - apply faithful_bind; auto. intros a.
    destruct (truthy a); [apply IH | apply faithful_ret].
Qed.

Lemma faithful_list q f tok size : faithful (drive_files_list q f tok size).
Proof.
  intros s. rewrite list_run. destruct (files_list q f tok size s) as [[e|a] s1]; simpl.
  - exists [], (EvList q f tok size (inl e)). repeat split. constructor.
  - repeat constructor.
Qed.

Lemma faithful_create n m ps f : faithful (drive_files_create n m ps f).
Proof.
  intros s. rewrite create_run. destruct (files_create n m ps f s) as [[e|a] s1]; simpl.
  - exists [], (EvCreate n m ps f (inl e)). repeat split. constructor.
  - repeat constructor.
Qed.

Lemma faithful_get i f : faithful (drive_files_get i f).
Proof.
  intros s. unfold drive_files_get, await.
  destruct (files_get i f s) as [[e|a] s1]; simpl.
  - exists [], (EvGet i f (inl e)). repeat split. constructor.
  - repeat constructor.
Qed.

Lemma faithful_copyFile fileId parentId fileName :
  faithful (copyFile fileId parentId fileName).
Proof.
  intros s. rewrite copyFile_run.
  destruct (files_copy fileId fileName [parentId] ID_NAME s) as [[e|a] s1];
    simpl; repeat constructor.
Qed.

Lemma faithful_copyFolderContents fuel :
  forall src dst target rootOwner,
    faithful (copyFolderContents fuel src dst target rootOwner).
Proof.
  induction fuel as [|fuel IH]; intros src dst target rootOwner.
  - apply faithful_out_of_fuel.
  - rewrite copyFolderContents_unfold. apply faithful_do_while. intros tok.
    unfold copy_page. apply faithful_bind; [apply faithful_list|]. intros resp.
    apply faithful_bind; [|intros; apply faithful_ret].
    apply faithful_for_of. intros file. unfold copy_item.
    destruct (is_folder file); [|apply faithful_copyFile].
    apply faithful_bind; [apply faithful_create|]. intros nf. apply IH.
Qed.

Lemma faithful_replicate fuel folderId target rootOwner file :
  faithful (replicate fuel folderId target rootOwner file).
Proof.
  unfold replicate. destruct (isOwnedByTarget file target); [|apply faithful_ret].
  apply faithful_bind; [apply faithful_console_log|]. intros _.
  destruct (is_folder file); [|apply faithful_copyFile].
  apply faithful_bind; [apply faithful_create|]. intros nf.
  apply faithful_bind; [apply faithful_console_log|]. intros _.
  apply faithful_copyFolderContents.
Qed.

Lemma faithful_processFolder fuel :
  forall folderId target rootOwner,
    faithful (processFolder fuel folderId target rootOwner).
Proof.
  induction fuel as [|fuel IH]; intros folderId target rootOwner.
  - apply faithful_out_of_fuel.
  - rewrite processFolder_unfold.
    apply faithful_bind; [apply faithful_console_log|]. intros _.
    apply faithful_do_while. intros tok.
    unfold walk_page. apply faithful_bind; [apply faithful_list|]. intros resp.
    apply faithful_bind; [|intros; apply faithful_ret].
    apply faithful_for_of. intros file. unfold walk_item.
    apply faithful_bind; [apply faithful_replicate|]. intros _.
    destruct (is_folder file); [apply IH | apply faithful_ret].
Qed.

End Fatal.

(** ** The top-level driver *)

Section Driver.
Context {D : DriveAPI}.

Lemma quiet_call {A} (call : Store -> (JsError + A) * Store) (ev : JsError + A -> Event) :
  (forall r, quiet (ev r)) -> safe_on (fun _ _ => True) quiet (await call ev).
Proof.
  intros Hq s o s' t H. apply await_inv in H. destruct H as (r & _ & -> & _).
  split; [exact I|]. constructor; [apply Hq | constructor].
Qed.

Lemma processFolder_quiet fuel folderId target rootOwner s o s' t :
  processFolder fuel folderId target rootOwner s = (o, s', t) -> Forall quiet t.
Proof.
  intros H.
  refine (proj2 (safe_processFolder (fun _ _ => True) quiet _ _ _ _ _ _ _ _ _ _ _
                                    fuel folderId target rootOwner s o s' t H));
    try (intros; exact I);
    try (intros; apply quiet_call; intros r; split; [|intros e]; discriminate);
    (intros; split; [|intros ?]; simpl; discriminate).
Qed.

Lemma main_run fuel authorized rootFolderId target s :
  main fuel authorized rootFolderId target s =
  match authorized with
  | inl err => (Ret tt, s, [ConsoleError "Error:" err])
  | inr _ =>
      match files_get rootFolderId "owners" s with
      | (inl e, s1) =>
          (Ret tt, s1, [EvGet rootFolderId "owners" (inl e); ConsoleError "Error:" e])
      | (inr d, s1) =>
          match data_owners d with
          | None | Some [] =>
              (Ret tt, s1,
               [EvGet rootFolderId "owners" (inr d);
                ConsoleError "Error:"
                  {| message := "Could not determine the root folder owner" |}])
          | Some (owner0 :: _) =>
              match processFolder fuel rootFolderId target (emailAddress owner0) s1 with
              | (Ret _, s2, t) =>
                  (Ret tt, s2,
                   EvGet rootFolderId "owners" (inr d)
                   :: ConsoleLog ("Root folder owner: " ++ emailAddress owner0)
                   :: ConsoleLog ("Searching for files owned by: " ++ target)
                   :: t ++ [ConsoleLog "Process completed successfully!"])
              | (Throw e, s2, t) =>
                  (Ret tt, s2,
                   EvGet rootFolderId "owners" (inr d)
                   :: ConsoleLog ("Root folder owner: " ++ emailAddress owner0)
                   :: ConsoleLog ("Searching for files owned by: " ++ target)
                   :: t ++ [ConsoleError "Error:" e])
              | (OutOfFuel, s2, t) =>
                  (OutOfFuel, s2,
                   EvGet rootFolderId "owners" (inr d)
                   :: ConsoleLog ("Root folder owner: " ++ emailAddress owner0)
                   :: ConsoleLog ("Searching for files owned by: " ++ target)
                   :: t)
              end
          end
      end
  end.
Proof.
  unfold main, try_catch, bind, authorize, throw, ret, drive_files_get, await, console_log,
    console_error.
  destruct authorized as [err|u]; [reflexivity|].
  destruct (files_get rootFolderId "owners" s) as [[e|d] s1]; [reflexivity|].
  destruct (data_owners d) as [[|owner0 rest]|]; try reflexivity.
  destruct (processFolder fuel rootFolderId target (emailAddress owner0) s1)
    as [[[[]|e|] s2] t]; reflexivity.
Qed.

(** C7. When the store returns the root folder's metadata without owners
    (the list is missing or empty), [main] raises the error "Could not
    determine the root folder owner", which its handler logs: the run
    consists of the get call and that error line, so no folder is ever
    listed and nothing is created or copied. *)
Theorem root_without_owner_aborts_before_the_walk :
  forall fuel rootFolderId target s d s1,
    files_get rootFolderId "owners" s = (inr d, s1) ->
    data_owners d = None \/ data_owners d = Some [] ->
    main fuel (inr tt) rootFolderId target s
    = (Ret tt, s1,
       [EvGet rootFolderId "owners" (inr d);
        ConsoleError "Error:"
          {| message := "Could not determine the root folder owner" |}])
    /\ commands (snd (main fuel (inr tt) rootFolderId target s))
       = [CGet rootFolderId "owners"].
Proof.
  intros fuel rootFolderId target s d s1 Hget Hown.
  rewrite main_run, Hget. destruct Hown as [-> | ->]; split; reflexivity.
Qed.

Lemma nofatal_In t ev e : nofatal t -> In ev t -> fatal_event ev = Some e -> False.
Proof.
  intros Hn Hin Hev. unfold nofatal in Hn. rewrite Forall_forall in Hn.
  rewrite (Hn ev Hin) in Hev. discriminate.
Qed.

Lemma quiet_In_success t :
  Forall quiet t -> ~ In (ConsoleLog "Process completed successfully!") t.
Proof.
  intros Hq Hin. rewrite Forall_forall in Hq. destruct (Hq _ Hin) as [Hne _].
  apply Hne. reflexivity.
Qed.

Lemma quiet_In_error t e : Forall quiet t -> ~ In (ConsoleError "Error:" e) t.
Proof.
  intros Hq Hin. rewrite Forall_forall in Hq. destruct (Hq _ Hin) as [_ Hne].
  apply (Hne e). reflexivity.
Qed.

(** C8, as the code has it.  A failed get, list or create call reaches the
    handler of [main], which writes "Error:" with that error as the last
    line of the run; the success line is written only by a run in which no
    such call failed and no error was reported.  The promise of [main] is
    never rejected, so the process never ends with status 1: a run that
    ends, ends with status 0, after a fatal error too. *)
Theorem fatal_errors_are_logged_by_main :
  forall fuel authorized rootFolderId target s o s' tr,
    main fuel authorized rootFolderId target s = (o, s', tr) ->
    exit_status o <> Some 1
    /\ (o = Ret tt -> fst (run_program fuel authorized rootFolderId target s) = Some 0)
    /\ (forall ev e, In ev tr -> fatal_event ev = Some e ->
          exists t0, tr = t0 ++ [ev; ConsoleError "Error:" e])
    /\ (In (ConsoleLog "Process completed successfully!") tr ->
          nofatal tr /\ forall e, ~ In (ConsoleError "Error:" e) tr)
    /\ (o = Ret tt ->
          exists t0, tr = t0 ++ [ConsoleLog "Process completed successfully!"]
                     \/ exists e, tr = t0 ++ [ConsoleError "Error:" e]).
Proof.
  intros fuel authorized rootFolderId target s o s' tr H.
  assert (Hstatus : exit_status o <> Some 1).
  { rewrite main_run in H.
    destruct authorized as [err|u]; [inversion H; discriminate|].
    destruct (files_get rootFolderId "owners" s) as [[e|d] s1]; [inversion H; discriminate|].
    destruct (data_owners d) as [[|owner0 rest]|]; try (inversion H; discriminate).
    destruct (processFolder fuel rootFolderId target (emailAddress owner0) s1)
      as [[[[]|e|] s2] t]; inversion H; discriminate. }
  split; [exact Hstatus|].
  split; [intros ->; unfold run_program; rewrite H; reflexivity|].
  rewrite main_run in H.
  destruct authorized as [err|u].
  { inversion H; subst. repeat split.
    - intros ev e [<-|[]] Hev. discriminate.
    - destruct H0 as [H0|[]]. discriminate.
    - destruct H0 as [H0|[]]. discriminate.
    - intros _. exists []. right. exists err. reflexivity. }
  destruct (files_get rootFolderId "owners" s) as [[e|d] s1].
  { inversion H; subst. repeat split.
    - intros ev e' [<-|[<-|[]]] Hev; [|discriminate].
      inversion Hev; subst. exists []. reflexivity.
    - destruct H0 as [H0|[H0|[]]]; discriminate.
    - destruct H0 as [H0|[H0|[]]]; discriminate.
    - intros _. exists [EvGet rootFolderId "owners" (inl e)]. right. exists e. reflexivity. }
  assert (Hnone :
    (Ret tt, s1,
     [EvGet rootFolderId "owners" (inr d);
      ConsoleError "Error:" {| message := "Could not determine the root folder owner" |}])
    = (o, s', tr) ->
    (forall ev e, In ev tr -> fatal_event ev = Some e ->
          exists t0, tr = t0 ++ [ev; ConsoleError "Error:" e])
    /\ (In (ConsoleLog "Process completed successfully!") tr ->
          nofatal tr /\ forall e, ~ In (ConsoleError "Error:" e) tr)
    /\ (o = Ret tt ->
          exists t0, tr = t0 ++ [ConsoleLog "Process completed successfully!"]
                     \/ exists e, tr = t0 ++ [ConsoleError "Error:" e])).
  { intros H0; inversion H0; subst. repeat split.
    - intros ev e' [<-|[<-|[]]] Hev; discriminate.
    - destruct H1 as [H1|[H1|[]]]; discriminate.
    - destruct H1 as [H1|[H1|[]]]; discriminate.
    - intros _. exists [EvGet rootFolderId "owners" (inr d)]. right. eexists. reflexivity. }
  destruct (data_owners d) as [[|owner0 rest]|]; [exact (Hnone H)| |exact (Hnone H)].
  clear Hnone.
  pose proof (faithful_processFolder fuel rootFolderId target (emailAddress owner0) s1) as Hf.
  destruct (processFolder fuel rootFolderId target (emailAddress owner0) s1)
    as [[op s2] t] eqn:Hrun.
  pose proof (processFolder_quiet _ _ _ _ _ _ _ _ Hrun) as Hq.
  assert (Hhead : forall ev e (rest' : Trace),
             In ev (EvGet rootFolderId "owners" (inr d)
                    :: ConsoleLog ("Root folder owner: " ++ emailAddress owner0)
                    :: ConsoleLog ("Searching for files owned by: " ++ target) :: rest') ->
             fatal_event ev = Some e -> In ev rest').
  { intros ev e rest' [<-|[<-|[<-|Hin]]] Hev; try discriminate. exact Hin. }
  assert (Hsucc : forall rest' : Trace,
             In (ConsoleLog "Process completed successfully!")
                (EvGet rootFolderId "owners" (inr d)
                 :: ConsoleLog ("Root folder owner: " ++ emailAddress owner0)
                 :: ConsoleLog ("Searching for files owned by: " ++ target) :: rest') ->
             In (ConsoleLog "Process completed successfully!") rest').
  { intros rest' [H0|[H0|[H0|Hin]]]; try discriminate. exact Hin. }
  destruct op as [[]|e|]; simpl in Hf; inversion H; subst; clear H.
  - (* the walk returned *)
    repeat split.
    + intros ev e Hin Hev. exfalso. apply Hhead with (e := e) in Hin; [|exact Hev].
      apply in_app_or in Hin. destruct Hin as [Hin|[<-|[]]]; [|discriminate].
      eapply nofatal_In; eauto.
    + repeat (constructor; [reflexivity|]). apply Forall_app. split; [exact Hf|].
      repeat constructor.
    + intros e [H0|[H0|[H0|Hin]]]; try discriminate.
      apply in_app_or in Hin. destruct Hin as [Hin|[H0|[]]]; [|discriminate].
      eapply quiet_In_error; eauto.
    + intros _. eexists. left. rewrite !app_comm_cons. reflexivity.
  - (* the walk threw [e] *)
    destruct Hf as (t0 & ev1 & -> & Hn & Hev1). repeat split.
    + intros ev e' Hin Hev. apply Hhead with (e := e') in Hin; [|exact Hev].
      apply in_app_or in Hin. destruct Hin as [Hin|[<-|[]]]; [|discriminate].
      apply in_app_or in Hin. destruct Hin as [Hin|[<-|[]]].
      * exfalso. eapply nofatal_In; eauto.
      * rewrite Hev1 in Hev. inversion Hev; subst.
        exists (EvGet rootFolderId "owners" (inr d)
                :: ConsoleLog ("Root folder owner: " ++ emailAddress owner0)
                :: ConsoleLog ("Searching for files owned by: " ++ target) :: t0).
        simpl. rewrite <- app_assoc. reflexivity.
    + exfalso. apply Hsucc in H. apply in_app_or in H. destruct H as [Hin|[H0|[]]]; [|discriminate].
      eapply quiet_In_success; eauto.
    + exfalso. apply Hsucc in H. apply in_app_or in H. destruct H as [Hin|[H0|[]]]; [|discriminate].
      eapply quiet_In_success; eauto.
    + intros _. eexists. right. exists e. rewrite !app_comm_cons. reflexivity.
  - (* the walk ran out of fuel *)
    repeat split.
    + intros ev e Hin Hev. exfalso. apply Hhead with (e := e) in Hin; [|exact Hev].
      eapply nofatal_In; eauto.
    + exfalso. apply Hsucc in H. eapply quiet_In_success; eauto.
    + exfalso. apply Hsucc in H. eapply quiet_In_success; eauto.
    + discriminate.
Qed.

End Driver.

(** ** Recoverable and fatal failures inside the walk *)

Section Failures.
Context {D : DriveAPI}.

Lemma fatal_stop_In {A} (o : Outcome A) (s' : Store) (tr : Trace) ev e :
  fatal_stop (o, s', tr) -> In ev tr -> fatal_event ev = Some e ->
  o = Throw e /\ exists t0, tr = t0 ++ [ev].
Proof.
  intros Hf Hin Hev. destruct o as [a|e'|]; simpl in Hf.
  - exfalso. eapply nofatal_In; eauto.
  - destruct Hf as (t0 & ev1 & -> & Hn & Hev1).
    apply in_app_or in Hin. destruct Hin as [Hin|[<-|[]]].
    + exfalso. eapply nofatal_In; eauto.
    + rewrite Hev in Hev1. inversion Hev1; subst. split; [reflexivity|]. exists t0. reflexivity.
  - exfalso. eapply nofatal_In; eauto.
Qed.

(** C4, as the code has it.  The copy of a file is the one operation
    wrapped in a [try]: [copyFile] always returns, a rejected copy is
    logged with the name of the file, and both loops go on with the next
    sibling from the store the failed call left.  The creation of a folder
    is awaited outside any [try]: when it is rejected, the walk (or the
    subtree copy) ends at that call and throws its error. *)
Theorem copy_failures_are_contained :
  (forall fileId parentId fileName s,
      exists r s',
        files_copy fileId fileName [parentId] ID_NAME s = (r, s')
        /\ copyFile fileId parentId fileName s
           = (Ret tt, s', [EvCopy fileId fileName [parentId] ID_NAME r;
                           copy_report fileName r]))
  /\ (forall fuel folderId target rootOwner file rest s e s1,
        isOwnedByTarget file target = true ->
        is_folder file = false ->
        files_copy (id file) (name file) [folderId] ID_NAME s = (inl e, s1) ->
        for_of (file :: rest) (walk_item fuel folderId target rootOwner) s
        = (let '(o, s2, t2) := for_of rest (walk_item fuel folderId target rootOwner) s1 in
           (o, s2,
            ConsoleLog ("Found item owned by target user: " ++ name file
                        ++ " (ID: " ++ id file ++ ")")
            :: EvCopy (id file) (name file) [folderId] ID_NAME (inl e)
            :: ConsoleError ("Error copying file " ++ name file ++ ":") e
            :: t2)))
  /\ (forall fuel dst target rootOwner file rest s e s1,
        is_folder file = false ->
        files_copy (id file) (name file) [dst] ID_NAME s = (inl e, s1) ->
        for_of (file :: rest) (copy_item fuel dst target rootOwner) s
        = (let '(o, s2, t2) := for_of rest (copy_item fuel dst target rootOwner) s1 in
           (o, s2,
            EvCopy (id file) (name file) [dst] ID_NAME (inl e)
            :: ConsoleError ("Error copying file " ++ name file ++ ":") e
            :: t2)))
  /\ (forall fuel folderId target rootOwner s o s' tr n m ps f e,
        processFolder fuel folderId target rootOwner s = (o, s', tr) ->
        In (EvCreate n m ps f (inl e)) tr ->
        o = Throw e /\ exists t0, tr = t0 ++ [EvCreate n m ps f (inl e)])
  /\ (forall fuel src dst target rootOwner s o s' tr n m ps f e,
        copyFolderContents fuel src dst target rootOwner s = (o, s', tr) ->
        In (EvCreate n m ps f (inl e)) tr ->
        o = Throw e /\ exists t0, tr = t0 ++ [EvCreate n m ps f (inl e)]).
Proof.
  split; [|split; [|split; [|split]]].
  - intros fileId parentId fileName s. rewrite copyFile_run.
    destruct (files_copy fileId fileName [parentId] ID_NAME s) as [r s'].
    exists r, s'. split; reflexivity.
  - intros fuel folderId target rootOwner file rest s e s1 Hown Hfile Hcopy.
    simpl. unfold walk_item at 1. unfold replicate. rewrite Hown, Hfile.
    unfold bind at 1 2 3. unfold console_log. rewrite copyFile_run, Hcopy. simpl.
    destruct (for_of rest (walk_item fuel folderId target rootOwner) s1) as [[o s2] t2].
    reflexivity.
  - intros fuel dst target rootOwner file rest s e s1 Hfile Hcopy.
    simpl. unfold copy_item at 1. rewrite Hfile.
    unfold bind at 1. rewrite copyFile_run, Hcopy. simpl.
    destruct (for_of rest (copy_item fuel dst target rootOwner) s1) as [[o s2] t2].
    reflexivity.
  - intros fuel folderId target rootOwner s o s' tr n m ps f e Hrun Hin.
    pose proof (faithful_processFolder fuel folderId target rootOwner s) as Hf.
    rewrite Hrun in Hf. eapply fatal_stop_In; eauto.
  - intros fuel src dst target rootOwner s o s' tr n m ps f e Hrun Hin.
    pose proof (faithful_copyFolderContents fuel src dst target rootOwner s) as Hf.
    rewrite Hrun in Hf. eapply fatal_stop_In; eauto.
Qed.

End Failures.

(** ** The walk is additive *)

Section Additive.
Context {D : DriveAPI} {A : AdditiveStore D}.

Lemma additive_call {X} (call : Store -> (JsError + X) * Store) (ev : JsError + X -> Event) :
  (forall s r s', call s = (r, s') -> keeps s s') ->
  (forall r, additive (ev r)) ->
  safe_on keeps additive (await call ev).
Proof.
  intros Hk Ha s o s' t H. apply await_inv in H. destruct H as (r & Hc & -> & _).
  split; [eapply Hk; eauto|]. constructor; [apply Ha | constructor].
Qed.

Lemma keeps_refl s : keeps s s.
Proof. apply incl_refl. Qed.

Lemma keeps_trans s1 s2 s3 : keeps s1 s2 -> keeps s2 s3 -> keeps s1 s3.
Proof. apply incl_tran. Qed.

Lemma additive_list size q tok : safe_on keeps additive (drive_files_list q LIST_FIELDS tok size).
Proof. apply additive_call; [intros s r s'; apply list_keeps | intros r; exact I]. Qed.

Lemma additive_create n ps : safe_on keeps additive (drive_files_create n FOLDER_MIME ps ID_NAME).
Proof. apply additive_call; [intros s r s'; apply create_keeps | intros r; exact I]. Qed.

Lemma additive_copy i n ps : safe_on keeps additive (drive_files_copy i n ps ID_NAME).
Proof. apply additive_call; [intros s r s'; apply copy_keeps | intros r; exact I]. Qed.

(** C9. On a store whose list, get, create and copy methods keep the
    entries it holds, every entry present before [processFolder],
    [copyFolderContents], [copyFile] or the whole of [main] runs is still
    present, unchanged, when the run ends or stops, and no update or delete
    command occurs in the trace: the commands are get, list, create and
    copy only. *)
Theorem walk_never_deletes_or_mutates :
  (forall fuel folderId target rootOwner s o s' tr,
      processFolder fuel folderId target rootOwner s = (o, s', tr) ->
      (forall e, In e (entries s) -> In e (entries s')) /\ Forall additive tr)
  /\ (forall fuel src dst target rootOwner s o s' tr,
        copyFolderContents fuel src dst target rootOwner s = (o, s', tr) ->
        (forall e, In e (entries s) -> In e (entries s')) /\ Forall additive tr)
  /\ (forall fileId parentId fileName s o s' tr,
        copyFile fileId parentId fileName s = (o, s', tr) ->
        (forall e, In e (entries s) -> In e (entries s')) /\ Forall additive tr)
  /\ (forall fuel authorized rootFolderId target s o s' tr,
        main fuel authorized rootFolderId target s = (o, s', tr) ->
        (forall e, In e (entries s) -> In e (entries s')) /\ Forall additive tr).
Proof.
  assert (Hwalk : forall fuel folderId target rootOwner,
             safe_on keeps additive (processFolder fuel folderId target rootOwner)).
  { intros. apply (safe_processFolder keeps additive keeps_refl keeps_trans
             (additive_list None) (additive_list (Some 1000)) additive_create additive_copy
             (fun _ => I) (fun _ _ => I) (fun _ _ => I) (fun _ _ => I) (fun _ _ => I)). }
  split; [|split; [|split]].
  - intros fuel folderId target rootOwner s o s' tr H. exact (Hwalk _ _ _ _ _ _ _ _ H).
  - intros fuel src dst target rootOwner s o s' tr H.
    apply (safe_copyFolderContents keeps additive keeps_refl keeps_trans
             (additive_list None) additive_create additive_copy
             (fun _ _ => I) (fun _ _ => I)
             fuel src dst target rootOwner s o s' tr H).
  - intros fileId parentId fileName s o s' tr H.
    apply (safe_copyFile keeps additive keeps_refl keeps_trans
             additive_copy (fun _ _ => I) (fun _ _ => I)
             fileId parentId fileName s o s' tr H).
  - intros fuel authorized rootFolderId target s o s' tr H.
    rewrite main_run in H.
    destruct authorized as [err|u].
    { inversion H; subst. split; [auto|repeat constructor]. }
    destruct (files_get rootFolderId "owners" s) as [[e|d] s1] eqn:Hget;
      pose proof (get_keeps _ _ _ _ _ Hget) as Hk.
    { inversion H; subst. split; [exact Hk|repeat constructor]. }
    destruct (data_owners d) as [[|owner0 rest]|];
      try (inversion H; subst; split; [exact Hk|repeat constructor]).
    destruct (processFolder fuel rootFolderId target (emailAddress owner0) s1)
      as [[op s2] t] eqn:Hrun.
    destruct (Hwalk _ _ _ _ _ _ _ _ Hrun) as [Hk2 Ht].
    assert (Hkeep : forall e0, In e0 (entries s) -> In e0 (entries s2))
      by (intros e0 Hin; apply Hk2, Hk, Hin).
    assert (Hhead : forall rest' : Trace,
               Forall additive rest' ->
               Forall additive
                 (EvGet rootFolderId "owners" (inr d)
                  :: ConsoleLog ("Root folder owner: " ++ emailAddress owner0)
                  :: ConsoleLog ("Searching for files owned by: " ++ target) :: rest'))
      by (intros rest' Hr; repeat (constructor; [exact I|]); exact Hr).
    destruct op as [[]|e|]; injection H as <- <- <-; (split; [exact Hkeep|]);
      apply Hhead; try exact Ht;
      (apply Forall_app; split; [exact Ht | constructor; [exact I | constructor]]).
Qed.

End Additive.

(** ** Paging *)

Section Paging.
Context {D : DriveAPI}.

Lemma for_of_items_run (item : FileInfo -> M unit) :
  forall fs s s' t,
    for_of fs item s = (Ret tt, s', t) -> items_run item fs s s' t.
Proof.
  induction fs as [|file rest IH]; intros s s' t H.
  - inversion H; subst. constructor.
  - apply for_of_cons_Ret in H. destruct H as (s1 & t1 & t2 & H1 & H2 & ->).
    econstructor; eauto.
Qed.

Lemma items_run_for_of (item : FileInfo -> M unit) fs s s' t :
  items_run item fs s s' t -> for_of fs item s = (Ret tt, s', t).
Proof.
  induction 1 as [s|file rest s s1 t1 s2 t2 H1 _ IH]; [reflexivity|].
  simpl. erewrite bind_Ret by eassumption. rewrite IH. reflexivity.
Qed.

Lemma page_body_Ret q size item tok s tok' s' t :
  page_body q size item tok s = (Ret tok', s', t) ->
  exists page s1 t1,
    files_list q LIST_FIELDS tok size s = (inr page, s1)
    /\ for_of (files page) item s1 = (Ret tt, s', t1)
    /\ tok' = nextPageToken page
    /\ t = EvList q LIST_FIELDS tok size (inr page) :: t1.
Proof.
  unfold page_body. intros H.
  apply bind_Ret_inv in H. destruct H as (page & s1 & t0 & t12 & Hl & H & ->).
  apply bind_Ret_inv in H. destruct H as ([] & s2 & t1 & t2 & Hf & Hr & ->).
  inversion Hr; subst. rewrite list_run in Hl.
  destruct (files_list q LIST_FIELDS tok size s) as [[e|page'] s1'] eqn:E; inversion Hl; subst.
  exists page, s1, t1. rewrite app_nil_r. auto.
Qed.

Lemma do_while_paged q size item :
  forall fuel tok s s' t,
    do_while fuel (page_body q size item) tok s = (Ret tt, s', t) ->
    paged_run q size item tok s s' t.
Proof.
  induction fuel as [|fuel IH]; intros tok s s' t H.
  - discriminate.
  - apply do_while_Ret in H.
    destruct H as (fuel' & tok' & s1 & t1 & t2 & Hf & Hb & -> & Hrest).
    inversion Hf; subst fuel'; clear Hf.
    apply page_body_Ret in Hb. destruct Hb as (page & s0 & t0 & Hl & Hitems & -> & ->).
    apply for_of_items_run in Hitems.
    destruct (truthy (nextPageToken page)) eqn:Htok.
    + simpl. eapply paged_next; eauto.
    + destruct Hrest as [-> ->]. rewrite app_nil_r. eapply paged_last; eauto.
Qed.

Lemma paged_do_while q size item tok s s' t :
  paged_run q size item tok s s' t ->
  exists fuel, forall fuel', fuel <= fuel' ->
    do_while fuel' (page_body q size item) tok s = (Ret tt, s', t).
Proof.
  induction 1 as [tok s page s1 s2 t Hl Hitems Htok
                 |tok s page s1 s2 t s3 t' Hl Hitems Htok _ [fuel IH]].
  - exists 1. intros [|fuel'] Hle; [lia|]. simpl.
    assert (Hb : page_body q size item tok s
                 = (Ret (nextPageToken page), s2,
                    EvList q LIST_FIELDS tok size (inr page) :: t)).
    { unfold page_body. erewrite bind_Ret by (rewrite list_run, Hl; reflexivity).
      erewrite bind_Ret by (apply items_run_for_of; eassumption).
      simpl. rewrite app_nil_r. reflexivity. }
    erewrite bind_Ret by exact Hb. rewrite Htok. simpl. rewrite app_nil_r. reflexivity.
  - exists (S fuel). intros [|fuel'] Hle; [lia|]. simpl.
    assert (Hb : page_body q size item tok s
                 = (Ret (nextPageToken page), s2,
                    EvList q LIST_FIELDS tok size (inr page) :: t)).
    { unfold page_body. erewrite bind_Ret by (rewrite list_run, Hl; reflexivity).
      erewrite bind_Ret by (apply items_run_for_of; eassumption).
      simpl. rewrite app_nil_r. reflexivity. }
    erewrite bind_Ret by exact Hb. rewrite Htok, IH by lia. reflexivity.
Qed.

End Paging.

(** ** Runs that do not return *)

Section Outcomes.
Context {D : DriveAPI}.

Lemma for_of_cons_inv {A} (x : A) xs (body : A -> M unit) s o s' t :
  for_of (x :: xs) body s = (o, s', t) ->
  (body x s = (o, s', t) /\ o <> Ret tt)
  \/ (exists s1 t1 t2,
        body x s = (Ret tt, s1, t1) /\ for_of xs body s1 = (o, s', t2) /\ t = t1 ++ t2).
Proof.
  simpl. intros H. apply bind_inv in H.
  destruct H as [([] & s1 & t1 & t2 & H1 & H2 & ->)|[(e & H1 & ->)|(H1 & ->)]].
  - right. eauto 6.
  - left. split; [exact H1 | discriminate].
  - left. split; [exact H1 | discriminate].
Qed.

Lemma page_body_inv q size item tok s o s' t :
  page_body q size item tok s = (o, s', t) ->
  (exists e,
      files_list q LIST_FIELDS tok size s = (inl e, s')
      /\ o = Throw e /\ t = [EvList q LIST_FIELDS tok size (inl e)])
  \/ (exists page s1 o1 t1,
        files_list q LIST_FIELDS tok size s = (inr page, s1)
        /\ for_of (files page) item s1 = (o1, s', t1)
        /\ t = EvList q LIST_FIELDS tok size (inr page) :: t1
        /\ o = match o1 with
               | Ret _ => Ret (nextPageToken page)
               | Throw e => Throw e
               | OutOfFuel => OutOfFuel
               end).
Proof.
  unfold page_body. intros H. apply bind_inv in H.
  destruct H as [(page & s1 & t0 & t2 & Hl & H & ->)|[(e & Hl & ->)|(Hl & ->)]];
    rewrite list_run in Hl;
    destruct (files_list q LIST_FIELDS tok size s) as [[e0|page0] s0];
    inversion Hl; subst; clear Hl.
  - right. exists page, s1. apply bind_inv in H.
    destruct H as [([] & s2 & t1 & t3 & Hf & Hr & ->)|[(e & Hf & ->)|(Hf & ->)]].
    + inversion Hr; subst. exists (Ret tt), t1. rewrite app_nil_r. auto.
    + exists (Throw e), t2. auto.
    + exists OutOfFuel, t2. auto.
  - left. exists e. auto.
Qed.

(** One turn of either loop, whatever comes out of it. *)
Lemma visit_inv q size item k tok s o s' t :
  do_while (S k) (page_body q size item) tok s = (o, s', t) ->
  (exists e,
      files_list q LIST_FIELDS tok size s = (inl e, s')
      /\ o = Throw e /\ t = [EvList q LIST_FIELDS tok size (inl e)])
  \/ (exists page s1 t1,
        files_list q LIST_FIELDS tok size s = (inr page, s1)
        /\ ((o <> Ret tt
             /\ for_of (files page) item s1 = (o, s', t1)
             /\ t = EvList q LIST_FIELDS tok size (inr page) :: t1)
            \/ (exists s2,
                  for_of (files page) item s1 = (Ret tt, s2, t1)
                  /\ ((truthy (nextPageToken page) = false /\ o = Ret tt /\ s' = s2
                       /\ t = EvList q LIST_FIELDS tok size (inr page) :: t1)
                      \/ (truthy (nextPageToken page) = true
                          /\ exists t2,
                              do_while k (page_body q size item) (nextPageToken page) s2
                              = (o, s', t2)
                              /\ t = EvList q LIST_FIELDS tok size (inr page) :: t1 ++ t2))))).
Proof.
  intros H. simpl in H. apply bind_inv in H.
  destruct H as [(tok' & s1 & t1 & t2 & Hb & Hrest & ->)|[(e & Hb & ->)|(Hb & ->)]];
    apply page_body_inv in Hb;
    destruct Hb as [(e0 & Hl & Ho & ->)|(page & s0 & o1 & t0 & Hl & Hf & -> & Ho)];
    try discriminate.
  - right. exists page, s0, t0. split; [exact Hl|]. right.
    destruct o1 as [[]| |]; try discriminate. inversion Ho; subst tok'.
    exists s1. split; [exact Hf|].
    destruct (truthy (nextPageToken page)) eqn:Htok.
    + right. split; [reflexivity|]. exists t2. split; [exact Hrest | reflexivity].
    + left. inversion Hrest; subst. rewrite app_nil_r. auto.
  - left. exists e. inversion Ho; subst. auto.
  - right. exists page, s0, t0. split; [exact Hl|]. left.
    destruct o1 as [[]|e1|]; try discriminate. inversion Ho; subst.
    split; [discriminate|]. auto.
  - right. exists page, s0, t0. split; [exact Hl|]. left.
    destruct o1 as [[]|e1|]; try discriminate.
    split; [discriminate|]. auto.
Qed.

Lemma for_of_items (item : FileInfo -> M unit) :
  forall fs s o s' t,
    for_of fs item s = (o, s', t) ->
    (o = Ret tt /\ items_run item fs s s' t)
    \/ (o <> Ret tt /\ items_stop item fs s o s' t).
Proof.
  induction fs as [|file rest IH]; intros s o s' t H.
  - inversion H; subst. left. split; [reflexivity | constructor].
  - apply for_of_cons_inv in H.
    destruct H as [[H Ho]|(s1 & t1 & t2 & H1 & H2 & ->)].
    + right. split; [exact Ho|]. apply items_stop_here; assumption.
    + apply IH in H2. destruct H2 as [[-> H2]|[Ho H2]].
      * left. split; [reflexivity|]. eapply items_step; eauto.
      * right. split; [exact Ho|]. eapply items_stop_later; eauto.
Qed.

End Outcomes.

(** ** Fuel *)

(** The fuel of the model stands for the depth of the recursion and for
    the number of pages of a folder.  A run is cut short only after the
    store has served it as many pages as it had fuel, one apart: with more
    fuel than pages served, a run has ended. *)
Section Fuel.
Context {D : DriveAPI}.

Lemma served_app t1 t2 : served (t1 ++ t2) = served t1 + served t2.
Proof. unfold served. rewrite map_app, list_sum_app. reflexivity. Qed.

Lemma lasting_le n n' {A} (m : M A) : lasting n m -> n' <= n -> lasting n' m.
Proof. intros H Hle s s' t Hrun. apply H in Hrun. lia. Qed.

Lemma lasting_ret n {A} (a : A) : lasting n (ret a).
Proof. intros s s' t H. discriminate. Qed.

Lemma lasting_console_log n msg : lasting n (console_log msg).
Proof. intros s s' t H. discriminate. Qed.

Lemma lasting_await n {A} (call : Store -> (JsError + A) * Store) ev :
  lasting n (await call ev).
Proof.
  intros s s' t H. apply await_inv in H. destruct H as ([e|a] & _ & _ & H); discriminate.
Qed.

Lemma lasting_bind n {A B} (m : M A) (f : A -> M B) :
  lasting n m -> (forall a, lasting n (f a)) -> lasting n (bind m f).
Proof.
  intros Hm Hf s s' t H. apply bind_inv in H.
  destruct H as [(a & s1 & t1 & t2 & H1 & H2 & ->)|[(e & _ & H)|(H1 & _)]].
  - apply Hf in H2. rewrite served_app. lia.
  - discriminate.
  - apply Hm in H1. exact H1.
Qed.

Lemma lasting_for_of n {A} (xs : list A) (body : A -> M unit) :
  (forall x, lasting n (body x)) -> lasting n (for_of xs body).
Proof.
  intros H. induction xs as [|x xs IH]; simpl.
  - apply lasting_ret.
  - apply lasting_bind; auto.
Qed.

Lemma lasting_copyFile n fileId parentId fileName :
  lasting n (copyFile fileId parentId fileName).
Proof.
  intros s s' t H. rewrite copyFile_run in H.
  destruct (files_copy fileId fileName [parentId] ID_NAME s) as [r s1]. discriminate.
Qed.

(** A page costs one unit: when the items of a page last [n] pages, the
    turn of the loop that requests the page lasts one more. *)
Lemma lasting_page_body n q size item :
  (forall file, lasting n (item file)) ->
  forall tok, lasting (S n) (page_body q size item tok).
Proof.
  intros Hitem tok s s' t H. unfold page_body in H. apply bind_inv in H.
  destruct H as [(page & s1 & t1 & t2 & H1 & H2 & ->)|[(e & _ & H)|(H1 & _)]].
  - rewrite list_run in H1.
    destruct (files_list q LIST_FIELDS tok size s) as [[e|page'] s1']; inversion H1; subst.
    assert (Hrest : lasting n (for_of (files page) item ;; ret (nextPageToken page))).
    { apply lasting_bind; [apply lasting_for_of; exact Hitem|]. intros _. apply lasting_ret. }
    apply Hrest in H2. rewrite served_app. simpl. lia.
  - discriminate.
  - unfold drive_files_list in H1. apply (lasting_await (S n)) in H1. exact H1.
Qed.

Lemma page_body_served q size item tok s tok' s' t :
  page_body q size item tok s = (Ret tok', s', t) -> 1 <= served t.
Proof.
  intros H. unfold page_body in H. apply bind_Ret_inv in H.
  destruct H as (page & s1 & t1 & t2 & H1 & _ & ->).
  rewrite list_run in H1.
  destruct (files_list q LIST_FIELDS tok size s) as [[e|page'] s1']; inversion H1; subst.
  rewrite served_app. simpl. lia.
Qed.

Lemma lasting_do_while n q size item :
  (forall tok, lasting n (page_body q size item tok)) ->
  forall k, k <= n -> forall tok, lasting k (do_while k (page_body q size item) tok).
Proof.
  intros Hbody. induction k as [|k IH]; intros Hle tok s s' t H; [lia|].
  simpl in H. apply bind_inv in H.
  destruct H as [(tok' & s1 & t1 & t2 & H1 & H2 & ->)|[(e & _ & H)|(H1 & _)]].
  - apply page_body_served in H1. rewrite served_app.
    destruct (truthy tok'); [|discriminate].
    apply IH in H2; lia.
  - discriminate.
  - apply Hbody in H1. lia.
Qed.

Lemma lasting_copyFolderContents fuel :
  forall src dst target rootOwner,
    lasting (Nat.pred fuel) (copyFolderContents fuel src dst target rootOwner).
Proof.
  induction fuel as [|fuel IH]; intros src dst target rootOwner.
  - intros s s' t _. simpl. lia.
  - rewrite copyFolderContents_unfold. simpl Nat.pred.
    apply (lasting_do_while (S (Nat.pred fuel)) (children_query src) None
                            (copy_item fuel dst target rootOwner)); [|lia].
    apply lasting_page_body. intros file. unfold copy_item.
    destruct (is_folder file); [|apply lasting_copyFile].
    apply lasting_bind; [apply lasting_await|]. intros nf. apply IH.
Qed.

Lemma lasting_processFolder fuel :
  forall folderId target rootOwner,
    lasting (Nat.pred fuel) (processFolder fuel folderId target rootOwner).
Proof.
  induction fuel as [|fuel IH]; intros folderId target rootOwner.
  - intros s s' t _. simpl. lia.
  - rewrite processFolder_unfold. simpl Nat.pred.
    apply lasting_bind; [apply lasting_console_log|]. intros _.
    apply (lasting_do_while (S (Nat.pred fuel)) (children_query folderId) (Some 1000)
                            (walk_item fuel folderId target rootOwner)); [|lia].
    apply lasting_page_body. intros file. unfold walk_item.
    apply lasting_bind.
    + unfold replicate. destruct (isOwnedByTarget file target); [|apply lasting_ret].
      apply lasting_bind; [apply lasting_console_log|]. intros _.
      destruct (is_folder file); [|apply lasting_copyFile].
      apply lasting_bind; [apply lasting_await|]. intros nf.
      apply lasting_bind; [apply lasting_console_log|]. intros _.
      apply lasting_copyFolderContents.
    + intros _. destruct (is_folder file); [apply IH | apply lasting_ret].
Qed.

End Fuel.

(** ** Owner lists and the subtree copy *)

Section Reowning.
Context {D : DriveAPI}.
Variable f : FileInfo -> list Owner.

Local Abbreviation D' := (Reowned f D).

Lemma mirrors_ret {A} (a : A) : mirrors f (ret (D := D') a) (ret (D := D) a).
Proof. intros s. reflexivity. Qed.

Lemma mirrors_out_of_fuel {A} :
  mirrors f (@out_of_fuel D' A) (@out_of_fuel D A).
Proof. intros s. reflexivity. Qed.

Lemma mirrors_bind {A B} (m' : @M D' A) (m : @M D A) (k' : A -> @M D' B) (k : A -> @M D B) :
  mirrors f m' m -> (forall a, mirrors f (k' a) (k a)) ->
  mirrors f (bind m' k') (bind m k).
Proof.
  intros Hm Hk s. unfold bind. rewrite (Hm s).
  destruct (m s) as [[[a|e|] s1] t1]; try reflexivity.
  rewrite (Hk a s1). destruct (k a s1) as [[o2 s2] t2]. rewrite map_app. reflexivity.
Qed.

Lemma mirrors_try_catch {A} (m' : @M D' A) (m : @M D A)
      (h' : JsError -> @M D' A) (h : JsError -> @M D A) :
  mirrors f m' m -> (forall e, mirrors f (h' e) (h e)) ->
  mirrors f (try_catch m' h') (try_catch m h).
Proof.
  intros Hm Hh s. unfold try_catch. rewrite (Hm s).
  destruct (m s) as [[[a|e|] s1] t1]; try reflexivity.
  rewrite (Hh e s1). destruct (h e s1) as [[o2 s2] t2]. rewrite map_app. reflexivity.
Qed.

Lemma mirrors_for_of_map {A} (g : A -> A) (xs : list A)
      (body' : A -> @M D' unit) (body : A -> @M D unit) :
  (forall x, mirrors f (body' (g x)) (body x)) ->
  mirrors f (for_of (map g xs) body') (for_of xs body).
Proof.
  intros H. induction xs as [|x xs IH]; simpl.
  - apply mirrors_ret.
  - apply mirrors_bind; auto.
Qed.

Lemma mirrors_do_while k (body' : option string -> @M D' (option string))
      (body : option string -> @M D (option string)) :
  (forall tok, mirrors f (body' tok) (body tok)) ->
  forall tok, mirrors f (do_while k body' tok) (do_while k body tok).
Proof.
  intros H. induction k as [|k IH]; intros tok; simpl.
  - apply mirrors_out_of_fuel.
  - apply mirrors_bind; auto. intros a.
    destruct (truthy a); [apply IH | apply mirrors_ret].
Qed.

Lemma mirrors_console_log msg :
  mirrors f (console_log (D := D') msg) (console_log (D := D) msg).
Proof. intros s. reflexivity. Qed.

Lemma mirrors_console_error msg e :
  mirrors f (console_error (D := D') msg e) (console_error (D := D) msg e).
Proof. intros s. reflexivity. Qed.

Lemma mirrors_create n m ps fl :
  mirrors f (drive_files_create (D := D') n m ps fl) (drive_files_create (D := D) n m ps fl).
Proof.
  intros s. unfold drive_files_create, await. simpl.
  destruct (@files_create D n m ps fl s) as [[e|a] s1]; reflexivity.
Qed.

Lemma mirrors_copy i n ps fl :
  mirrors f (drive_files_copy (D := D') i n ps fl) (drive_files_copy (D := D) i n ps fl).
Proof.
  intros s. unfold drive_files_copy, await. simpl.
  destruct (@files_copy D i n ps fl s) as [[e|a] s1]; reflexivity.
Qed.

(** The list call answers with the other owner lists, and with nothing
    else changed. *)
Lemma mirrors_list {B} q fl tok size (k' : ListData -> @M D' B) (k : ListData -> @M D B) :
  (forall page, mirrors f (k' (reowned f page)) (k page)) ->
  mirrors f (bind (drive_files_list (D := D') q fl tok size) k')
            (bind (drive_files_list (D := D) q fl tok size) k).
Proof.
  intros Hk s. unfold bind, drive_files_list, await. simpl.
  destruct (@files_list D q fl tok size s) as [[e|page] s1]; [reflexivity|].
  rewrite (Hk page s1). destruct (k page s1) as [[o2 s2] t2]. reflexivity.
Qed.

Lemma mirrors_copyFile fileId parentId fileName :
  mirrors f (copyFile (D := D') fileId parentId fileName)
            (copyFile (D := D) fileId parentId fileName).
Proof.
  unfold copyFile. apply mirrors_try_catch.
  - apply mirrors_bind; [apply mirrors_copy|]. intros nf. apply mirrors_console_log.
  - intros e. apply mirrors_console_error.
Qed.

Lemma mirrors_copyFolderContents fuel :
  forall src dst target rootOwner,
    mirrors f (copyFolderContents (D := D') fuel src dst target rootOwner)
              (copyFolderContents (D := D) fuel src dst target rootOwner).
Proof.
  induction fuel as [|fuel IH]; intros src dst target rootOwner.
  - apply mirrors_out_of_fuel.
  - rewrite !copyFolderContents_unfold. apply mirrors_do_while. intros tok.
    unfold copy_page. apply mirrors_list. intros page.
    apply mirrors_bind; [|intros; apply mirrors_ret].
    apply (mirrors_for_of_map (fun file => with_owners file (f file))).
    intros file. unfold copy_item.
    change (is_folder (with_owners file (f file))) with (is_folder file).
    destruct (is_folder file).
    + apply mirrors_bind; [apply mirrors_create|]. intros nf. apply IH.
    + apply mirrors_copyFile.
Qed.

End Reowning.

(** ** The traces of all runs *)

Section Grammars.
Context {D : DriveAPI}.

Lemma copy_item_copying fuel dst target rootOwner :
  (forall src dst' s o s' tr,
      copyFolderContents fuel src dst' target rootOwner s = (o, s', tr) ->
      copying src dst' None o tr) ->
  forall file s o s' tr,
    copy_item fuel dst target rootOwner file s = (o, s', tr) ->
    copying_item dst file o tr.
Proof.
  intros IH file s o s' tr H. unfold copy_item in H.
  destruct (is_folder file) eqn:Hfolder.
  - unfold bind in H. rewrite create_run in H.
    destruct (files_create (name file) FOLDER_MIME [dst] ID_NAME s) as [[e|nf] s1].
    + inversion H; subst. apply copying_folder_refused. exact Hfolder.
    + destruct (copyFolderContents fuel (id file) (data_id nf) target rootOwner s1)
        as [[o2 s2] t2] eqn:Hcopy.
      inversion H; subst. simpl. apply copying_folder; [exact Hfolder|].
      eapply IH; eauto.
  - rewrite copyFile_run in H.
    destruct (files_copy (id file) (name file) [dst] ID_NAME s) as [r s1].
    inversion H; subst. apply copying_file. exact Hfolder.
Qed.

Lemma copy_items_copying fuel dst target rootOwner :
  (forall src dst' s o s' tr,
      copyFolderContents fuel src dst' target rootOwner s = (o, s', tr) ->
      copying src dst' None o tr) ->
  forall fs s o s' tr,
    for_of fs (copy_item fuel dst target rootOwner) s = (o, s', tr) ->
    copying_items dst fs o tr.
Proof.
  intros IH. induction fs as [|file rest IHfs]; intros s o s' tr H.
  - inversion H; subst. constructor.
  - apply for_of_cons_inv in H.
    destruct H as [[H Ho]|(s1 & t1 & t2 & H1 & H2 & ->)].
    + apply copying_stop; [exact Ho|]. eapply copy_item_copying; eauto.
    + apply copying_step; [eapply copy_item_copying; eauto | eapply IHfs; eauto].
Qed.

Lemma copy_pages_copying fuel src dst target rootOwner :
  (forall src' dst' s o s' tr,
      copyFolderContents fuel src' dst' target rootOwner s = (o, s', tr) ->
      copying src' dst' None o tr) ->
  forall k tok s o s' tr,
    do_while k (copy_page fuel src dst target rootOwner) tok s = (o, s', tr) ->
    copying src dst tok o tr.
Proof.
  intros IH. induction k as [|k IHk]; intros tok s o s' tr H.
  - inversion H; subst. constructor.
  - apply (visit_inv (children_query src) None (copy_item fuel dst target rootOwner)) in H.
    destruct H as [(e & _ & -> & ->)|(page & s1 & t1 & _ & H)].
    + constructor.
    + destruct H as [(Ho & Hitems & ->)|(s2 & Hitems & H)].
      * apply copying_stopped; [exact Ho|]. eapply copy_items_copying; eauto.
      * apply (copy_items_copying fuel dst target rootOwner IH) in Hitems.
        destruct H as [(Htok & -> & _ & ->)|(Htok & t2 & Hrest & ->)].
        -- apply copying_last; assumption.
        -- apply copying_next; [assumption..|]. eapply IHk; eauto.
Qed.

Lemma copyFolderContents_copying fuel :
  forall target rootOwner src dst s o s' tr,
    copyFolderContents fuel src dst target rootOwner s = (o, s', tr) ->
    copying src dst None o tr.
Proof.
  induction fuel as [|fuel IH]; intros target rootOwner src dst s o s' tr H.
  - inversion H; subst. constructor.
  - rewrite copyFolderContents_unfold in H.
    eapply copy_pages_copying; [|exact H]. intros; eapply IH; eauto.
Qed.

(** Every listed child is answered by one command at most, and by exactly
    one when the copy has returned. *)
Lemma copying_count :
  (forall src dst tok o t, copying src dst tok o t ->
     created t + rejected t <= listed t
     /\ (o = Ret tt -> created t + rejected t = listed t))
  /\ (forall dst fs o t, copying_items dst fs o t ->
        created t + rejected t <= length fs + listed t
        /\ (o = Ret tt -> created t + rejected t = length fs + listed t))
  /\ (forall dst file o t, copying_item dst file o t ->
        created t + rejected t <= 1 + listed t
        /\ (o = Ret tt -> created t + rejected t = 1 + listed t)).
Proof.
  apply copying_mutind; intros;
    repeat match goal with
           | H : _ /\ _ |- _ => destruct H
           | H : Ret tt = Ret tt -> _ |- _ => specialize (H eq_refl)
           end;
    unfold created, rejected, listed in *; simpl;
    rewrite ?map_app, ?list_sum_app; simpl;
    (split; [|intros Heq; try discriminate; try contradiction;
              repeat match goal with
                     | H : ?o = Ret tt -> _ |- _ => specialize (H Heq)
                     end]);
    try lia;
    destruct r; simpl; lia.
Qed.

Lemma walk_item_walking fuel folderId target rootOwner :
  (forall folderId' s o s' tr,
      processFolder fuel folderId' target rootOwner s = (o, s', tr) ->
      entering target folderId' o tr) ->
  forall file s o s' tr,
    walk_item fuel folderId target rootOwner file s = (o, s', tr) ->
    walking_item target folderId file o tr.
Proof.
  intros IH file s o s' tr H. unfold walk_item, replicate in H.
  destruct (isOwnedByTarget file target) eqn:Hown, (is_folder file) eqn:Hfolder.
  - (* a folder of the target *)
    unfold bind at 1 2 in H. unfold console_log at 1 in H. cbv iota beta in H.
    unfold bind at 1 in H. rewrite create_run in H.
    destruct (files_create (name file) FOLDER_MIME [folderId] ID_NAME s) as [[e|nf] s1].
    + inversion H; subst. apply walking_creation_refused; assumption.
    + unfold bind at 1 in H. unfold console_log at 1 in H. cbv iota beta in H.
      destruct (copyFolderContents fuel (id file) (data_id nf) target rootOwner s1)
        as [[[[]|e|] s2] tc] eqn:Hcopy;
        apply copyFolderContents_copying in Hcopy.
      * destruct (processFolder fuel (id file) target rootOwner s2)
          as [[o3 s3] tw] eqn:Hwalk.
        apply IH in Hwalk. inversion H; subst. simpl.
        apply walking_owned_folder; assumption.
      * inversion H; subst. simpl.
        apply walking_copy_stopped; try assumption. discriminate.
      * inversion H; subst. simpl.
        apply walking_copy_stopped; try assumption. discriminate.
  - (* a file of the target *)
    unfold bind at 1 2 in H. unfold console_log at 1 in H. cbv iota beta in H.
    rewrite copyFile_run in H.
    destruct (files_copy (id file) (name file) [folderId] ID_NAME s) as [r s1].
    inversion H; subst. apply walking_owned_file; assumption.
  - (* a folder of somebody else *)
    unfold bind, ret in H.
    destruct (processFolder fuel (id file) target rootOwner s) as [[o3 s3] tw] eqn:Hwalk.
    apply IH in Hwalk. inversion H; subst. simpl.
    apply walking_other_folder; assumption.
  - (* a file of somebody else *)
    inversion H; subst. apply walking_other_file; assumption.
Qed.

Lemma walk_items_walking fuel folderId target rootOwner :
  (forall folderId' s o s' tr,
      processFolder fuel folderId' target rootOwner s = (o, s', tr) ->
      entering target folderId' o tr) ->
  forall fs s o s' tr,
    for_of fs (walk_item fuel folderId target rootOwner) s = (o, s', tr) ->
    walking_items target folderId fs o tr.
Proof.
  intros IH. induction fs as [|file rest IHfs]; intros s o s' tr H.
  - inversion H; subst. constructor.
  - apply for_of_cons_inv in H.
    destruct H as [[H Ho]|(s1 & t1 & t2 & H1 & H2 & ->)].
    + apply walking_stop; [exact Ho|]. eapply walk_item_walking; eauto.
    + apply walking_step; [eapply walk_item_walking; eauto | eapply IHfs; eauto].
Qed.

Lemma walk_pages_walking fuel folderId target rootOwner :
  (forall folderId' s o s' tr,
      processFolder fuel folderId' target rootOwner s = (o, s', tr) ->
      entering target folderId' o tr) ->
  forall k tok s o s' tr,
    do_while k (walk_page fuel folderId target rootOwner) tok s = (o, s', tr) ->
    walking target folderId tok o tr.
Proof.
  intros IH. induction k as [|k IHk]; intros tok s o s' tr H.
  - inversion H; subst. constructor.
  - apply (visit_inv (children_query folderId) (Some 1000)
                     (walk_item fuel folderId target rootOwner)) in H.
    destruct H as [(e & _ & -> & ->)|(page & s1 & t1 & _ & H)].
    + constructor.
    + destruct H as [(Ho & Hitems & ->)|(s2 & Hitems & H)].
      * apply walking_stopped; [exact Ho|]. eapply walk_items_walking; eauto.
      * apply (walk_items_walking fuel folderId target rootOwner IH) in Hitems.
        destruct H as [(Htok & -> & _ & ->)|(Htok & t2 & Hrest & ->)].
        -- apply walking_last; assumption.
        -- apply walking_next; [assumption..|]. eapply IHk; eauto.
Qed.

Lemma processFolder_entering fuel :
  forall target rootOwner folderId s o s' tr,
    processFolder fuel folderId target rootOwner s = (o, s', tr) ->
    entering target folderId o tr.
Proof.
  induction fuel as [|fuel IH]; intros target rootOwner folderId s o s' tr H.
  - inversion H; subst. constructor.
  - rewrite processFolder_unfold in H. unfold bind at 1 in H.
    unfold console_log at 1 in H. cbv iota beta in H.
    destruct (do_while fuel (walk_page fuel folderId target rootOwner) None s)
      as [[o2 s2] t2] eqn:Hloop.
    inversion H; subst. simpl. apply entering_walk.
    eapply walk_pages_walking; [|exact Hloop]. intros; eapply IH; eauto.
Qed.

End Grammars.


(** ** The subtree copy *)

Section SubtreeCopy.
Context {D : DriveAPI}.

Lemma copy_items_copied fuel dst target rootOwner :
  (forall src dst' s s' tr,
      copyFolderContents fuel src dst' target rootOwner s = (Ret tt, s', tr) ->
      copied_from src dst' None tr) ->
  forall fs s s' tr,
    for_of fs (copy_item fuel dst target rootOwner) s = (Ret tt, s', tr) ->
    copied_items dst fs tr.
Proof.
  intros IH. induction fs as [|file rest IHfs]; intros s s' tr H.
  - inversion H; subst. constructor.
  - apply for_of_cons_Ret in H. destruct H as (s1 & t1 & t2 & Hitem & Hrest & ->).
    apply IHfs in Hrest. unfold copy_item in Hitem.
    destruct (is_folder file) eqn:Hfolder.
    + apply bind_Ret_inv in Hitem.
      destruct Hitem as (nf & s0 & t0 & t3 & Hcreate & Hcopy & ->).
      rewrite create_run in Hcreate.
      destruct (files_create (name file) FOLDER_MIME [dst] ID_NAME s) as [[e|nf'] s0'];
        inversion Hcreate; subst.
      apply IH in Hcopy. simpl.
      apply copied_folder; assumption.
    + rewrite copyFile_run in Hitem.
      destruct (files_copy (id file) (name file) [dst] ID_NAME s) as [r s0].
      inversion Hitem; subst. simpl. apply copied_file; assumption.
Qed.

Lemma copy_pages_copied fuel src dst target rootOwner :
  (forall src' dst' s s' tr,
      copyFolderContents fuel src' dst' target rootOwner s = (Ret tt, s', tr) ->
      copied_from src' dst' None tr) ->
  forall k tok s s' tr,
    do_while k (copy_page fuel src dst target rootOwner) tok s = (Ret tt, s', tr) ->
    copied_from src dst tok tr.
Proof.
  intros IH. induction k as [|k IHk]; intros tok s s' tr H; [discriminate|].
  apply do_while_Ret in H.
  destruct H as (k' & tok' & s1 & t1 & t2 & Hk & Hb & -> & Hrest).
  inversion Hk; subst k'; clear Hk.
  apply (page_body_Ret (children_query src) None
                       (copy_item fuel dst target rootOwner)) in Hb.
  destruct Hb as (page & s0 & t0 & Hl & Hitems & -> & ->).
  apply copy_items_copied in Hitems; [|exact IH].
  destruct (truthy (nextPageToken page)) eqn:Htok.
  - apply IHk in Hrest. simpl. apply copied_next; assumption.
  - destruct Hrest as [-> ->]. rewrite app_nil_r. apply copied_last; assumption.
Qed.

Lemma copyFolderContents_copied fuel :
  forall target rootOwner src dst s s' tr,
    copyFolderContents fuel src dst target rootOwner s = (Ret tt, s', tr) ->
    copied_from src dst None tr.
Proof.
  induction fuel as [|fuel IH]; intros target rootOwner src dst s s' tr H; [discriminate|].
  rewrite copyFolderContents_unfold in H.
  eapply copy_pages_copied; [|exact H]. intros; eapply IH; eauto.
Qed.

(** Every listed entry is answered by one creation request: a folder by a
    creation, a file by a copy, accepted or rejected. *)
Lemma copied_count :
  (forall src dst tok t, copied_from src dst tok t ->
     created t + rejected t = listed t)
  /\ (forall dst fs t, copied_items dst fs t ->
        created t + rejected t = length fs + listed t).
Proof.
  apply copied_mutind; unfold created, rejected, listed in *; intros; simpl;
    rewrite ?map_app, ?list_sum_app; simpl in *; try lia;
    destruct r; simpl; lia.
Qed.

End SubtreeCopy.

(** ** Descent *)

Section Descent.
Context {D : DriveAPI}.

Lemma descends_app t1 t2 : descends t1 -> descends t2 -> descends (t1 ++ t2).
Proof.
  intros H1 H2 q tok page child Hin Hc Hf. apply in_app_or in Hin.
  destruct Hin as [Hin|Hin].
  - destruct (H1 _ _ _ _ Hin Hc Hf) as [Ha [r Hb]].
    split; [|exists r]; apply in_or_app; left; assumption.
  - destruct (H2 _ _ _ _ Hin Hc Hf) as [Ha [r Hb]].
    split; [|exists r]; apply in_or_app; right; assumption.
Qed.

Lemma descends_no_walk_list t :
  Forall (fun ev => is_walk_list ev = false) t -> descends t.
Proof.
  intros H q tok page child Hin _ _. rewrite Forall_forall in H.
  apply H in Hin. discriminate.
Qed.

Lemma not_walk_list_call {A} (call : Store -> (JsError + A) * Store)
      (ev : JsError + A -> Event) :
  (forall r, is_walk_list (ev r) = false) ->
  safe_on (fun _ _ => True) (fun ev => is_walk_list ev = false) (await call ev).
Proof.
  intros Hq s o s' t H. apply await_inv in H. destruct H as (r & _ & -> & _).
  split; [exact I|]. constructor; [apply Hq | constructor].
Qed.

Lemma replicate_no_walk_list fuel folderId target rootOwner file s o s' t :
  replicate fuel folderId target rootOwner file s = (o, s', t) ->
  Forall (fun ev => is_walk_list ev = false) t.
Proof.
  intros H.
  refine (proj2 (safe_replicate (fun _ _ => True) (fun ev => is_walk_list ev = false)
                                _ _ _ _ _ _ _ _ _
                                fuel folderId target rootOwner file s o s' t H));
    try (intros; exact I);
    try (intros; apply not_walk_list_call; intros r; reflexivity);
    intros; reflexivity.
Qed.

Lemma processFolder_head fuel folderId target rootOwner s s' tr :
  processFolder fuel folderId target rootOwner s = (Ret tt, s', tr) ->
  exists r rest,
    tr = ConsoleLog ("Processing folder with ID: " ++ folderId)
         :: EvList (children_query folderId) LIST_FIELDS None (Some 1000) r :: rest.
Proof.
  destruct fuel as [|fuel]; [discriminate|].
  rewrite processFolder_unfold. intros H.
  apply bind_Ret_inv in H. destruct H as ([] & s1 & t1 & t2 & Hlog & Hloop & ->).
  inversion Hlog; subst.
  apply (do_while_paged (children_query folderId) (Some 1000)
                        (walk_item fuel folderId target rootOwner)) in Hloop.
  inversion Hloop; subst; simpl; do 2 eexists; reflexivity.
Qed.

Lemma walk_items_descend fuel folderId target rootOwner :
  (forall folderId' s s' tr,
      processFolder fuel folderId' target rootOwner s = (Ret tt, s', tr) -> descends tr) ->
  forall fs s s' tr,
    for_of fs (walk_item fuel folderId target rootOwner) s = (Ret tt, s', tr) ->
    descends tr
    /\ forall child, In child fs -> is_folder child = true ->
         In (ConsoleLog ("Processing folder with ID: " ++ id child)) tr
         /\ exists r, In (EvList (children_query (id child)) LIST_FIELDS None (Some 1000) r) tr.
Proof.
  intros IH. induction fs as [|file rest IHfs]; intros s s' tr H.
  - inversion H; subst. split; [apply descends_no_walk_list; constructor|].
    intros child [].
  - apply for_of_cons_Ret in H. destruct H as (s1 & t1 & t2 & Hitem & Hrest & ->).
    apply IHfs in Hrest. destruct Hrest as [Hd2 Hc2].
    unfold walk_item in Hitem. apply bind_Ret_inv in Hitem.
    destruct Hitem as ([] & sa & ta & tb & Hrep & Hwalk & ->).
    apply replicate_no_walk_list in Hrep. apply descends_no_walk_list in Hrep.
    destruct (is_folder file) eqn:Hfolder.
    + pose proof (IH _ _ _ _ Hwalk) as Hdb.
      apply processFolder_head in Hwalk. destruct Hwalk as (r & rest' & ->).
      split.
      * apply descends_app; [apply descends_app|]; assumption.
      * intros child [<-|Hin] Hf.
        -- split; [|exists r]; apply in_or_app; left; apply in_or_app; right; simpl; auto.
        -- destruct (Hc2 child Hin Hf) as [Ha [r' Hb]].
           split; [|exists r']; apply in_or_app; right; assumption.
    + inversion Hwalk; subst. split.
      * apply descends_app; [apply descends_app|]; try assumption.
        apply descends_no_walk_list; constructor.
      * intros child [<-|Hin] Hf; [congruence|].
        destruct (Hc2 child Hin Hf) as [Ha [r' Hb]].
        split; [|exists r']; apply in_or_app; right; assumption.
Qed.

Lemma walk_pages_descend fuel folderId target rootOwner :
  (forall folderId' s s' tr,
      processFolder fuel folderId' target rootOwner s = (Ret tt, s', tr) -> descends tr) ->
  forall k tok s s' tr,
    do_while k (walk_page fuel folderId target rootOwner) tok s = (Ret tt, s', tr) ->
    descends tr.
Proof.
  intros IH. induction k as [|k IHk]; intros tok s s' tr H; [discriminate|].
  apply do_while_Ret in H.
  destruct H as (k' & tok' & s1 & t1 & t2 & Hk & Hb & -> & Hrest).
  inversion Hk; subst k'; clear Hk.
  apply (page_body_Ret (children_query folderId) (Some 1000)
                       (walk_item fuel folderId target rootOwner)) in Hb.
  destruct Hb as (page & s0 & t0 & Hl & Hitems & -> & ->).
  apply (walk_items_descend fuel folderId target rootOwner IH) in Hitems.
  destruct Hitems as [Hd Hc].
  apply descends_app.
  - intros q tok' page' child [Heq|Hin] Hchild Hf.
    + inversion Heq; subst. destruct (Hc child Hchild Hf) as [Ha [r Hb]].
      split; [|exists r]; right; assumption.
    + destruct (Hd _ _ _ _ Hin Hchild Hf) as [Ha [r Hb]].
      split; [|exists r]; right; assumption.
  - destruct (truthy (nextPageToken page)).
    + eapply IHk; eauto.
    + destruct Hrest as [_ ->]. apply descends_no_walk_list; constructor.
Qed.

Lemma processFolder_descends fuel :
  forall target rootOwner folderId s s' tr,
    processFolder fuel folderId target rootOwner s = (Ret tt, s', tr) -> descends tr.
Proof.
  induction fuel as [|fuel IH]; intros target rootOwner folderId s s' tr H; [discriminate|].
  rewrite processFolder_unfold in H.
  apply bind_Ret_inv in H. destruct H as ([] & s1 & t1 & t2 & Hlog & Hloop & ->).
  inversion Hlog; subst.
  apply descends_app; [apply descends_no_walk_list; repeat constructor|].
  eapply walk_pages_descend; [|exact Hloop]. intros; eapply IH; eauto.
Qed.

End Descent.

(** ** How a run ends *)

Section Ends.
Context {D : DriveAPI}.

(** A run of the walk returns; or it throws the error of a rejected list
    or create call, which is its last event; or it is cut short, the store
    having served as many pages as there was fuel, one apart.  With no
    rejected call and more fuel than that, it has returned; and a run that
    has ended is the run for any larger fuel. *)
Lemma processFolder_ends fuel folderId target rootOwner s o s' tr :
  processFolder fuel folderId target rootOwner s = (o, s', tr) ->
  (forall e, o = Throw e ->
     exists t0 ev, tr = t0 ++ [ev] /\ nofatal t0 /\ fatal_event ev = Some e)
  /\ (o = OutOfFuel -> fuel <= S (served tr))
  /\ (nofatal tr -> S (served tr) < fuel -> o = Ret tt)
  /\ (o <> OutOfFuel ->
      forall fuel', fuel <= fuel' ->
        processFolder fuel' folderId target rootOwner s = (o, s', tr)).
Proof.
  intros H.
  pose proof (faithful_processFolder fuel folderId target rootOwner s) as Hstop.
  rewrite H in Hstop.
  assert (Hfuel : o = OutOfFuel -> fuel <= S (served tr)).
  { intros ->. apply lasting_processFolder in H. lia. }
  split; [|split; [exact Hfuel|split]].
  - intros e ->. exact Hstop.
  - intros Hnof Hlt. destruct o as [[]|e|].
    + reflexivity.
    + destruct Hstop as (t0 & ev & -> & _ & Hev).
      unfold nofatal in Hnof. rewrite Forall_app in Hnof. destruct Hnof as [_ Hnof].
      inversion Hnof; subst. congruence.
    + specialize (Hfuel eq_refl). lia.
  - intros Ho fuel' Hle. rewrite <- H.
    apply (processFolder_refines fuel fuel' folderId target rootOwner Hle).
    rewrite H. destruct o; simpl; auto.
Qed.

Lemma copyFolderContents_ends fuel src dst target rootOwner s o s' tr :
  copyFolderContents fuel src dst target rootOwner s = (o, s', tr) ->
  (forall e, o = Throw e ->
     exists t0 ev, tr = t0 ++ [ev] /\ nofatal t0 /\ fatal_event ev = Some e)
  /\ (o = OutOfFuel -> fuel <= S (served tr))
  /\ (nofatal tr -> S (served tr) < fuel -> o = Ret tt)
  /\ (o <> OutOfFuel ->
      forall fuel', fuel <= fuel' ->
        copyFolderContents fuel' src dst target rootOwner s = (o, s', tr)).
Proof.
  intros H.
  pose proof (faithful_copyFolderContents fuel src dst target rootOwner s) as Hstop.
  rewrite H in Hstop.
  assert (Hfuel : o = OutOfFuel -> fuel <= S (served tr)).
  { intros ->. apply lasting_copyFolderContents in H. lia. }
  split; [|split; [exact Hfuel|split]].
  - intros e ->. exact Hstop.
  - intros Hnof Hlt. destruct o as [[]|e|].
    + reflexivity.
    + destruct Hstop as (t0 & ev & -> & _ & Hev).
      unfold nofatal in Hnof. rewrite Forall_app in Hnof. destruct Hnof as [_ Hnof].
      inversion Hnof; subst. congruence.
    + specialize (Hfuel eq_refl). lia.
  - intros Ho fuel' Hle. rewrite <- H.
    apply (copyFolderContents_refines fuel fuel' src dst target rootOwner Hle).
    rewrite H. destruct o; simpl; auto.
Qed.

End Ends.

(** ** Page after page *)

Section Visits.
Context {D : DriveAPI}.

Lemma do_while_visit q size item :
  forall k tok s o s' t,
    do_while k (page_body q size item) tok s = (o, s', t) ->
    paged_visit q size item k tok s o s' t.
Proof.
  induction k as [|k IH]; intros tok s o s' t H.
  - inversion H; subst. constructor.
  - apply visit_inv in H.
    destruct H as [(e & Hl & -> & ->)|(page & s1 & t1 & Hl & H)].
    + apply visit_refused. exact Hl.
    + destruct H as [(Ho & Hitems & ->)|(s2 & Hitems & H)];
        apply for_of_items in Hitems.
      * destruct Hitems as [[Heq _]|[_ Hitems]]; [contradiction|].
        eapply visit_stopped; eauto.
      * destruct Hitems as [[_ Hitems]|[Hne _]]; [|contradiction].
        destruct H as [(Htok & -> & -> & ->)|(Htok & t2 & Hrest & ->)].
        -- eapply visit_last; eauto.
        -- eapply visit_next; eauto.
Qed.

(** C5, as the code has it.  A visit of a folder, by the walk or by the
    subtree copy and however it ends, requests the pages one after the
    other: the first without token; each further one with the token of the
    page before it, once every item of that page has returned; none after a
    page that came without token.  A visit whose list call is rejected, or
    one of whose items does not return, requests no further page: the pages
    left are not consumed.  A visit is cut short only after the store has
    served it as many pages as it had fuel; with no rejected list or create
    call and more fuel than pages served, walk and subtree copy return. *)
Theorem pages_are_requested_in_order :
  (forall fuel folderId target rootOwner s o s' tr,
      processFolder (S fuel) folderId target rootOwner s = (o, s', tr) ->
      exists tr',
        tr = ConsoleLog ("Processing folder with ID: " ++ folderId) :: tr'
        /\ paged_visit (children_query folderId) (Some 1000)
                       (walk_item fuel folderId target rootOwner) fuel None s o s' tr')
  /\ (forall fuel src dst target rootOwner s o s' tr,
        copyFolderContents (S fuel) src dst target rootOwner s = (o, s', tr) ->
        paged_visit (children_query src) None
                    (copy_item fuel dst target rootOwner) fuel None s o s' tr)
  /\ (forall fuel folderId target rootOwner s o s' tr,
        processFolder fuel folderId target rootOwner s = (o, s', tr) ->
        (o = OutOfFuel -> fuel <= S (served tr))
        /\ (nofatal tr -> S (served tr) < fuel -> o = Ret tt)
        /\ (o <> OutOfFuel ->
            forall fuel', fuel <= fuel' ->
              processFolder fuel' folderId target rootOwner s = (o, s', tr)))
  /\ (forall fuel src dst target rootOwner s o s' tr,
        copyFolderContents fuel src dst target rootOwner s = (o, s', tr) ->
        (o = OutOfFuel -> fuel <= S (served tr))
        /\ (nofatal tr -> S (served tr) < fuel -> o = Ret tt)
        /\ (o <> OutOfFuel ->
            forall fuel', fuel <= fuel' ->
              copyFolderContents fuel' src dst target rootOwner s = (o, s', tr))).
Proof.
  split; [|split; [|split]].
  - intros fuel folderId target rootOwner s o s' tr H.
    rewrite processFolder_unfold in H. unfold bind at 1 in H.
    unfold console_log at 1 in H. cbv iota beta in H.
    destruct (do_while fuel (walk_page fuel folderId target rootOwner) None s)
      as [[o2 s2] t2] eqn:Hloop.
    inversion H; subst. exists t2. split; [reflexivity|].
    apply do_while_visit. exact Hloop.
  - intros fuel src dst target rootOwner s o s' tr H.
    rewrite copyFolderContents_unfold in H. apply do_while_visit. exact H.
  - intros fuel folderId target rootOwner s o s' tr H.
    apply processFolder_ends in H. tauto.
  - intros fuel src dst target rootOwner s o s' tr H.
    apply copyFolderContents_ends in H. tauto.
Qed.

End Visits.

(** ** The subtree copy and the owner lists *)

Section CopyOfEveryChild.
Context {D : DriveAPI}.


End CopyOfEveryChild.

(** ** Descent and replication *)

Section DescentOfEveryFolder.
Context {D : DriveAPI}.

(** C2, as the code has it.  Whatever its outcome, the trace of the walk
    follows [entering]: a folder child that the walk reaches is entered at
    once when the ownership match does not hold; when it holds, the folder
    is entered after its replication, and only if that has returned: a
    rejected folder creation, or a subtree copy that throws, ends the walk
    before the descent.  In a walk that returns, every folder of every page
    served to the walk has been entered, whoever owns it.  A walk that
    throws ends with the rejected list or create call; a walk is cut short
    only after the store has served as many pages as there was fuel, and
    with no rejected list or create call and more fuel than pages served it
    has returned. *)
Theorem descent_follows_the_replication :
  forall fuel folderId target rootOwner s o s' tr,
    processFolder fuel folderId target rootOwner s = (o, s', tr) ->
    entering target folderId o tr
    /\ (o = Ret tt ->
        forall q tok page child,
          In (EvList q LIST_FIELDS tok (Some 1000) (inr page)) tr ->
          In child (files page) ->
          is_folder child = true ->
          In (ConsoleLog ("Processing folder with ID: " ++ id child)) tr
          /\ exists r,
              In (EvList (children_query (id child)) LIST_FIELDS None (Some 1000) r) tr)
    /\ (forall e, o = Throw e ->
          exists t0 ev, tr = t0 ++ [ev] /\ nofatal t0 /\ fatal_event ev = Some e)
    /\ (o = OutOfFuel -> fuel <= S (served tr))
    /\ (nofatal tr -> S (served tr) < fuel -> o = Ret tt)
    /\ (o <> OutOfFuel ->
        forall fuel', fuel <= fuel' ->
          processFolder fuel' folderId target rootOwner s = (o, s', tr)).
Proof.
  intros fuel folderId target rootOwner s o s' tr H.
  pose proof (processFolder_entering _ _ _ _ _ _ _ _ H) as Hg.
  pose proof (processFolder_ends _ _ _ _ _ _ _ _ H) as (Ht & Hf & Hr & Hm).
  split; [exact Hg|]. split; [|repeat split; assumption].
  intros ->. exact (processFolder_descends _ _ _ _ _ _ _ H).
Qed.

End DescentOfEveryFolder.

(** ** Replication of an owned child *)

Section Replication.
Context {D : DriveAPI}.


End Replication.

(** ** The whole trace of a finished walk *)

Section WalkGrammar.
Context {D : DriveAPI}.

Lemma walk_items_walked fuel folderId target rootOwner :
  (forall folderId' s s' tr,
      processFolder fuel folderId' target rootOwner s = (Ret tt, s', tr) ->
      exists tw, tr = ConsoleLog ("Processing folder with ID: " ++ folderId') :: tw
                 /\ walked_from target folderId' None tw) ->
  forall fs s s' tr,
    for_of fs (walk_item fuel folderId target rootOwner) s = (Ret tt, s', tr) ->
    walked_items target folderId fs tr.
Proof.
  intros IH. induction fs as [|file rest IHfs]; intros s s' tr H.
  - inversion H; subst. constructor.
  - apply for_of_cons_Ret in H. destruct H as (s1 & t1 & t2 & Hitem & Hrest & ->).
    apply IHfs in Hrest. unfold walk_item in Hitem. apply bind_Ret_inv in Hitem.
    destruct Hitem as ([] & sa & ta & tb & Hrep & Hwalk & ->).
    unfold replicate in Hrep.
    destruct (isOwnedByTarget file target) eqn:Hown, (is_folder file) eqn:Hfolder.
    + (* a folder of the target *)
      apply bind_Ret_inv in Hrep. destruct Hrep as ([] & s0 & t0 & t3 & Hlog & Hrep & ->).
      inversion Hlog; subst; clear Hlog.
      apply bind_Ret_inv in Hrep. destruct Hrep as (nf & s2 & t4 & t5 & Hcreate & Hrep & ->).
      rewrite create_run in Hcreate.
      destruct (files_create (name file) FOLDER_MIME [folderId] ID_NAME s0) as [[e|nf'] s2'];
        inversion Hcreate; subst; clear Hcreate.
      apply bind_Ret_inv in Hrep. destruct Hrep as ([] & s3 & t6 & tc & Hlog & Hcopy & ->).
      inversion Hlog; subst; clear Hlog.
      apply copyFolderContents_copied in Hcopy.
      apply IH in Hwalk. destruct Hwalk as (tw & -> & Hw).
      simpl. rewrite <- app_assoc. simpl.
      apply walked_replicate; assumption.
    + (* a file of the target *)
      apply bind_Ret_inv in Hrep. destruct Hrep as ([] & s0 & t0 & t3 & Hlog & Hrep & ->).
      inversion Hlog; subst; clear Hlog.
      rewrite copyFile_run in Hrep.
      destruct (files_copy (id file) (name file) [folderId] ID_NAME s0) as [r s2].
      inversion Hrep; subst; clear Hrep. inversion Hwalk; subst.
      simpl. apply walked_copy; assumption.
    + (* a folder of somebody else *)
      inversion Hrep; subst; clear Hrep.
      apply IH in Hwalk. destruct Hwalk as (tw & -> & Hw).
      simpl. apply walked_enter; assumption.
    + (* a file of somebody else *)
      inversion Hrep; subst; clear Hrep. inversion Hwalk; subst.
      simpl. apply walked_skip; assumption.
Qed.

Lemma walk_pages_walked fuel folderId target rootOwner :
  (forall folderId' s s' tr,
      processFolder fuel folderId' target rootOwner s = (Ret tt, s', tr) ->
      exists tw, tr = ConsoleLog ("Processing folder with ID: " ++ folderId') :: tw
                 /\ walked_from target folderId' None tw) ->
  forall k tok s s' tr,
    do_while k (walk_page fuel folderId target rootOwner) tok s = (Ret tt, s', tr) ->
    walked_from target folderId tok tr.
Proof.
  intros IH. induction k as [|k IHk]; intros tok s s' tr H; [discriminate|].
  apply do_while_Ret in H.
  destruct H as (k' & tok' & s1 & t1 & t2 & Hk & Hb & -> & Hrest).
  inversion Hk; subst k'; clear Hk.
  apply (page_body_Ret (children_query folderId) (Some 1000)
                       (walk_item fuel folderId target rootOwner)) in Hb.
  destruct Hb as (page & s0 & t0 & Hl & Hitems & -> & ->).
  apply (walk_items_walked fuel folderId target rootOwner IH) in Hitems.
  destruct (truthy (nextPageToken page)) eqn:Htok.
  - apply IHk in Hrest. simpl. apply walked_next; assumption.
  - destruct Hrest as [-> ->]. rewrite app_nil_r. apply walked_last; assumption.
Qed.

Lemma processFolder_walked fuel target rootOwner folderId s s' tr :
  processFolder fuel folderId target rootOwner s = (Ret tt, s', tr) ->
  exists tw,
    tr = ConsoleLog ("Processing folder with ID: " ++ folderId) :: tw
    /\ walked_from target folderId None tw.
Proof.
  revert target rootOwner folderId s s' tr.
  induction fuel as [|fuel IH]; intros target rootOwner folderId s s' tr H; [discriminate|].
  rewrite processFolder_unfold in H.
  apply bind_Ret_inv in H. destruct H as ([] & s1 & t1 & t2 & Hlog & Hloop & ->).
  inversion Hlog; subst. exists t2. split; [reflexivity|].
  eapply walk_pages_walked; [|exact Hloop]. intros; eapply IH; eauto.
Qed.

(** X1. The trace of a finished walk is the line "Processing folder with
    ID: <id>" followed by a trace of the grammar [walked_from]: page after
    page, child after child, a file the target does not own leaves no
    event, a folder the target does not own is only walked, a file of the
    target is copied into the walked folder, and a folder of the target is
    recreated in the walked folder, copied in full, and then walked. *)
Theorem finished_walk_follows_the_grammar :
  forall fuel target rootOwner folderId s s' tr,
    processFolder fuel folderId target rootOwner s = (Ret tt, s', tr) ->
    exists tw,
      tr = ConsoleLog ("Processing folder with ID: " ++ folderId) :: tw
      /\ walked_from target folderId None tw.
Proof.
  intros fuel target rootOwner folderId s s' tr H.
  destruct (processFolder_walked fuel target rootOwner folderId s s' tr H) as (tw & Htr & Hw).
  exists tw. split; assumption.
Qed.

(** *** Accounting *)

Lemma copied_accounts target :
  (forall src dst tok t, copied_from src dst tok t ->
     created t + rejected t = copy_listed t
     /\ owned_listed target t = 0 /\ found t = 0)
  /\ (forall dst fs t, copied_items dst fs t ->
        created t + rejected t = length fs + copy_listed t
        /\ owned_listed target t = 0 /\ found t = 0).
Proof.
  apply copied_mutind;
    unfold created, rejected, copy_listed, owned_listed, found in *; intros; simpl;
    rewrite ?map_app, ?list_sum_app; simpl in *;
    repeat match goal with H : _ /\ _ |- _ => destruct H end;
    try (repeat split; lia);
    destruct r; simpl; repeat split; lia.
Qed.

Lemma walked_accounts target :
  (forall folderId tok t, walked_from target folderId tok t ->
     created t + rejected t = owned_listed target t + copy_listed t
     /\ found t = owned_listed target t)
  /\ (forall folderId fs t, walked_items target folderId fs t ->
        created t + rejected t
        = length (filter (fun file => isOwnedByTarget file target) fs)
          + owned_listed target t + copy_listed t
        /\ found t
           = length (filter (fun file => isOwnedByTarget file target) fs)
             + owned_listed target t).
Proof.
  apply walked_mutind; intros;
    repeat match goal with
           | H : copied_from _ _ _ _ |- _ =>
               apply (proj1 (copied_accounts target)) in H
           | H : _ /\ _ |- _ => destruct H
           | H : isOwnedByTarget _ _ = _ |- _ => revert H
           end;
    unfold created, rejected, copy_listed, owned_listed, found in *; simpl;
    intros; rewrite ?map_app, ?list_sum_app; simpl;
    rewrite ?map_app, ?list_sum_app; simpl;
    repeat match goal with
           | H : isOwnedByTarget _ _ = _ |- _ => rewrite H
           end; simpl;
    try (split; lia);
    destruct r; simpl; split; lia.
Qed.

(** X2. In a finished walk every entry of the target that the walk was
    served, and every entry that a subtree copy was served, is answered by
    exactly one create or copy command, accepted or rejected, and nothing
    else is created; and the walk writes one "Found item" line per entry of
    the target it was served. *)
Theorem finished_walk_accounts_for_every_creation :
  forall fuel target rootOwner folderId s s' tr,
    processFolder fuel folderId target rootOwner s = (Ret tt, s', tr) ->
    created tr + rejected tr = owned_listed target tr + copy_listed tr
    /\ found tr = owned_listed target tr.
Proof.
  intros fuel target rootOwner folderId s s' tr H.
  apply processFolder_walked in H. destruct H as (tw & -> & Hw).
  apply (proj1 (walked_accounts target)) in Hw.
  unfold created, rejected, copy_listed, owned_listed, found in *. simpl. exact Hw.
Qed.

End WalkGrammar.

(** ** Properties of every run, finished or not *)

Section Traced.
Context {D : DriveAPI}.
Variable Q : Trace -> Prop.
Hypothesis Q_nil : Q [].
Hypothesis Q_app : forall t1 t2, Q t1 -> Q t2 -> Q (t1 ++ t2).

Lemma traced_ret {A} (a : A) : traced Q (ret a).
Proof. intros s o s' t H. inversion H; subst. exact Q_nil. Qed.

Lemma traced_out_of_fuel {A} : traced Q (@out_of_fuel D A).
Proof. intros s o s' t H. inversion H; subst. exact Q_nil. Qed.

Lemma traced_bind {A B} (m : M A) (f : A -> M B) :
  traced Q m -> (forall a, traced Q (f a)) -> traced Q (bind m f).
Proof.
  intros Hm Hf s o s' t H. apply bind_inv in H.
  destruct H as [(a & s1 & t1 & t2 & H1 & H2 & ->)|[(e & H1 & _)|(H1 & _)]].
  - apply Q_app; [eapply Hm | eapply Hf]; eauto.
  - eapply Hm; eauto.
  - eapply Hm; eauto.
Qed.

Lemma traced_for_of {A} (xs : list A) (body : A -> M unit) :
  (forall x, traced Q (body x)) -> traced Q (for_of xs body).
Proof.
  intros H. induction xs as [|x xs IH]; simpl.
  - apply traced_ret.
  - apply traced_bind; auto.
Qed.

Lemma traced_for_of_in {A} (xs : list A) (body : A -> M unit) :
  (forall x, In x xs -> traced Q (body x)) -> traced Q (for_of xs body).
Proof.
  induction xs as [|x xs IH]; intros H; simpl.
  - apply traced_ret.
  - apply traced_bind; [apply H; left; reflexivity|].
    intros _. apply IH. intros y Hy. apply H. right. exact Hy.
Qed.

Lemma traced_do_while fuel (body : option string -> M (option string)) :
  (forall tok, traced Q (body tok)) -> forall tok, traced Q (do_while fuel body tok).
Proof.
  intros H. induction fuel as [|fuel IH]; intros tok; simpl.
  - apply traced_out_of_fuel.
  - apply traced_bind; auto. intros a. destruct (truthy a); [apply IH | apply traced_ret].
Qed.

Hypothesis Q_list : forall q tok size, traced Q (drive_files_list q LIST_FIELDS tok size).
Hypothesis Q_create : forall n ps, traced Q (drive_files_create n FOLDER_MIME ps ID_NAME).
Hypothesis Q_copyFile : forall i p n, traced Q (copyFile i p n).
Hypothesis Q_log : forall msg, Q [ConsoleLog msg].

Lemma traced_console_log msg : traced Q (console_log msg).
Proof. intros s o s' t H. inversion H; subst. apply Q_log. Qed.

Lemma traced_copyFolderContents fuel :
  forall src dst target rootOwner, traced Q (copyFolderContents fuel src dst target rootOwner).
Proof.
  induction fuel as [|fuel IH]; intros src dst target rootOwner.
  - apply traced_out_of_fuel.
  - rewrite copyFolderContents_unfold. apply traced_do_while. intros tok.
    unfold copy_page. apply traced_bind; [apply Q_list|]. intros resp.
    apply traced_bind; [|intros; apply traced_ret].
    apply traced_for_of. intros file. unfold copy_item.
    destruct (is_folder file); [|apply Q_copyFile].
    apply traced_bind; [apply Q_create|]. intros nf. apply IH.
Qed.

Lemma traced_replicate fuel folderId target rootOwner file :
  traced Q (replicate fuel folderId target rootOwner file).
Proof.
  unfold replicate. destruct (isOwnedByTarget file target); [|apply traced_ret].
  apply traced_bind; [apply traced_console_log|]. intros _.
  destruct (is_folder file); [|apply Q_copyFile].
  apply traced_bind; [apply Q_create|]. intros nf.
  apply traced_bind; [apply traced_console_log|]. intros _.
  apply traced_copyFolderContents.
Qed.

Lemma traced_processFolder fuel :
  forall folderId target rootOwner, traced Q (processFolder fuel folderId target rootOwner).
Proof.
  induction fuel as [|fuel IH]; intros folderId target rootOwner.
  - apply traced_out_of_fuel.
  - rewrite processFolder_unfold.
    apply traced_bind; [apply traced_console_log|]. intros _.
    apply traced_do_while. intros tok.
    unfold walk_page. apply traced_bind; [apply Q_list|]. intros resp.
    apply traced_bind; [|intros; apply traced_ret].
    apply traced_for_of. intros file. unfold walk_item.
    apply traced_bind; [apply traced_replicate|]. intros _.
    destruct (is_folder file); [apply IH | apply traced_ret].
Qed.

End Traced.

Section Reporting.
Context {D : DriveAPI}.

Lemma reported_app t1 t2 : reported t1 -> reported t2 -> reported (t1 ++ t2).
Proof.
  intros H1 H2. induction H1; simpl.
  - exact H2.
  - apply reported_copy. exact IHreported.
  - apply reported_other; assumption.
Qed.

Lemma reported_call {A} (call : Store -> (JsError + A) * Store) (ev : JsError + A -> Event) :
  (forall r fileId fileName parents fields r', ev r <> EvCopy fileId fileName parents fields r') ->
  traced reported (await call ev).
Proof.
  intros Hne s o s' t H. apply await_inv in H. destruct H as (r & _ & -> & _).
  apply reported_other; [apply Hne | constructor].
Qed.

Lemma reported_copyFile fileId parentId fileName :
  traced reported (copyFile fileId parentId fileName).
Proof.
  intros s o s' t H. rewrite copyFile_run in H.
  destruct (files_copy fileId fileName [parentId] ID_NAME s) as [r s1].
  inversion H; subst. apply reported_copy. constructor.
Qed.

Lemma reported_follows t :
  reported t ->
  forall t0 fileId fileName parents fields r t1,
    t = t0 ++ EvCopy fileId fileName parents fields r :: t1 ->
    exists t2, t1 = copy_report fileName r :: t2.
Proof.
  induction 1 as [|i n ps f r t Hrep IH|ev t Hne Hrep IH];
    intros t0 fileId fileName parents fields r0 t1 Heq.
  - destruct t0; discriminate.
  - destruct t0 as [|a [|b t0]].
    + inversion Heq; subst. eauto.
    + inversion Heq; subst. destruct r; discriminate.
    + inversion Heq; subst. eapply IH; eauto.
  - destruct t0 as [|a t0].
    + inversion Heq; subst. exfalso. eapply Hne; reflexivity.
    + inversion Heq; subst. eapply IH; eauto.
Qed.

Lemma processFolder_reported fuel folderId target rootOwner :
  traced reported (processFolder fuel folderId target rootOwner).
Proof.
  apply traced_processFolder.
  - constructor.
  - apply reported_app.
  - intros. apply reported_call. intros; discriminate.
  - intros. apply reported_call. intros; discriminate.
  - apply reported_copyFile.
  - intros msg. apply reported_other; [intros; discriminate | constructor].
Qed.

Lemma copyFolderContents_reported fuel src dst target rootOwner :
  traced reported (copyFolderContents fuel src dst target rootOwner).
Proof.
  apply traced_copyFolderContents.
  - constructor.
  - apply reported_app.
  - intros. apply reported_call. intros; discriminate.
  - intros. apply reported_call. intros; discriminate.
  - apply reported_copyFile.
Qed.

(** X3. In every run of the walk or of the subtree copy, finished,
    aborted or cut short, each copy command is followed at once by the
    console line that reports its outcome: "Copied file: <name> (ID: <id>)"
    when the store accepted it, "Error copying file <name>:" with the error
    when it rejected it. *)
Theorem every_copy_is_reported :
  (forall fuel folderId target rootOwner s o s' tr t0 fileId fileName parents fields r t1,
      processFolder fuel folderId target rootOwner s = (o, s', tr) ->
      tr = t0 ++ EvCopy fileId fileName parents fields r :: t1 ->
      exists t2, t1 = copy_report fileName r :: t2)
  /\ (forall fuel src dst target rootOwner s o s' tr t0 fileId fileName parents fields r t1,
        copyFolderContents fuel src dst target rootOwner s = (o, s', tr) ->
        tr = t0 ++ EvCopy fileId fileName parents fields r :: t1 ->
        exists t2, t1 = copy_report fileName r :: t2).
Proof.
  split.
  - intros fuel folderId target rootOwner s o s' tr t0 fileId fileName parents fields r t1 H.
    apply (reported_follows tr).
    exact (processFolder_reported fuel folderId target rootOwner s o s' tr H).
  - intros fuel src dst target rootOwner s o s' tr t0 fileId fileName parents fields r t1 H.
    apply (reported_follows tr).
    exact (copyFolderContents_reported fuel src dst target rootOwner s o s' tr H).
Qed.

End Reporting.

Section DryRun.
Context {D : DriveAPI}.

Lemma harmless_nil target : harmless target [].
Proof. intros _. constructor. Qed.

Lemma harmless_app target t1 t2 :
  harmless target t1 -> harmless target t2 -> harmless target (t1 ++ t2).
Proof.
  intros H1 H2 Hn. apply Forall_app. split; [apply H1 | apply H2];
    intros q f tok size page file Hin; apply (Hn q f tok size page file);
    apply in_or_app; auto.
Qed.

Lemma bind_ret_run {A} (g : unit -> M A) s : bind (ret tt) g s = g tt s.
Proof. unfold bind, ret. destruct (g tt s) as [[o s1] t1]. reflexivity. Qed.

Lemma walk_items_harmless fuel folderId target rootOwner :
  (forall folderId', traced (harmless target)
                            (processFolder fuel folderId' target rootOwner)) ->
  forall fs,
    (forall file, In file fs -> isOwnedByTarget file target = false) ->
    traced (harmless target) (for_of fs (walk_item fuel folderId target rootOwner)).
Proof.
  intros IH fs Hfs. apply traced_for_of_in; [apply harmless_nil | apply harmless_app|].
  intros file Hin s o s' t H. unfold walk_item, replicate in H.
  rewrite (Hfs file Hin), bind_ret_run in H.
  destruct (is_folder file).
  - eapply IH; eauto.
  - inversion H; subst. apply harmless_nil.
Qed.

Lemma walk_page_harmless fuel folderId target rootOwner tok :
  (forall folderId', traced (harmless target)
                            (processFolder fuel folderId' target rootOwner)) ->
  traced (harmless target) (walk_page fuel folderId target rootOwner tok).
Proof.
  intros IH s o s' t H Hn. unfold walk_page in H. apply bind_inv in H.
  destruct H as [(page & s1 & t1 & t2 & Hl & Hrest & ->)|[(e & Hl & _)|(Hl & _)]].
  - rewrite list_run in Hl.
    destruct (files_list (children_query folderId) LIST_FIELDS tok (Some 1000) s)
      as [[e|page'] s1'] eqn:E; inversion Hl; subst; clear Hl.
    constructor; [reflexivity|].
    assert (Hpage : forall file, In file (files page) -> isOwnedByTarget file target = false).
    { intros file Hin.
      apply (Hn (children_query folderId) LIST_FIELDS tok 1000 page file); [left; reflexivity|].
      exact Hin. }
    assert (Hn2 : nothing_owned target t2).
    { intros q f tok' size page' file Hin. apply (Hn q f tok' size page' file).
      right. exact Hin. }
    apply bind_inv in Hrest.
    destruct Hrest as [([] & s2 & t3 & t4 & Hitems & Hret & ->)|[(e & Hitems & _)|(Hitems & _)]].
    + inversion Hret; subst. rewrite app_nil_r in *.
      exact (walk_items_harmless fuel folderId target rootOwner IH _ Hpage _ _ _ _ Hitems Hn2).
    + exact (walk_items_harmless fuel folderId target rootOwner IH _ Hpage _ _ _ _ Hitems Hn2).
    + exact (walk_items_harmless fuel folderId target rootOwner IH _ Hpage _ _ _ _ Hitems Hn2).
  - rewrite list_run in Hl.
    destruct (files_list (children_query folderId) LIST_FIELDS tok (Some 1000) s)
      as [[e'|page'] s1'] eqn:E; inversion Hl; subst. repeat constructor.
  - rewrite list_run in Hl.
    destruct (files_list (children_query folderId) LIST_FIELDS tok (Some 1000) s)
      as [[e'|page'] s1'] eqn:E; inversion Hl.
Qed.

Lemma processFolder_harmless fuel :
  forall target rootOwner folderId,
    traced (harmless target) (processFolder fuel folderId target rootOwner).
Proof.
  induction fuel as [|fuel IH]; intros target rootOwner folderId.
  - apply traced_out_of_fuel. apply harmless_nil.
  - rewrite processFolder_unfold.
    apply traced_bind; [apply harmless_app | |].
    + intros s o s' t H. inversion H; subst. intros _. repeat constructor.
    + intros _. apply traced_do_while; [apply harmless_nil | apply harmless_app|].
      intros tok. apply walk_page_harmless. intros folderId'. apply IH.
Qed.

(** X4. A walk that is served no entry of the target creates nothing:
    whatever its outcome, its trace holds no create and no copy command. *)
Theorem walk_without_owned_entries_creates_nothing :
  forall fuel folderId target rootOwner s o s' tr,
    processFolder fuel folderId target rootOwner s = (o, s', tr) ->
    nothing_owned target tr ->
    Forall (fun ev => creation ev = false) tr /\ created tr = 0.
Proof.
  intros fuel folderId target rootOwner s o s' tr H Hn.
  pose proof (processFolder_harmless fuel target rootOwner folderId s o s' tr H Hn) as Hc.
  split; [exact Hc|].
  unfold created. clear H Hn. induction Hc as [|ev t Hev _ IH]; [reflexivity|].
  simpl. rewrite IH. destruct ev; try reflexivity; discriminate.
Qed.

(** X5. The subtree copy never looks at the two identities it is given:
    with any other target and root owner it is the same run, with the same
    outcome, final store and trace. *)
Theorem subtree_copy_ignores_the_identities :
  forall fuel src dst target1 rootOwner1 target2 rootOwner2 s,
    copyFolderContents fuel src dst target1 rootOwner1 s
    = copyFolderContents fuel src dst target2 rootOwner2 s.
Proof.
  induction fuel as [|fuel IH]; intros src dst target1 rootOwner1 target2 rootOwner2 s;
    [reflexivity|].
  rewrite !copyFolderContents_unfold. apply do_while_ext. clear s.
  intros tok s. unfold copy_page.
  apply bind_ext; [reflexivity|]. intros resp s1.
  apply bind_ext; [|reflexivity].
  apply for_of_ext. intros file s2. unfold copy_item.
  destruct (is_folder file); [|reflexivity].
  apply bind_ext; [reflexivity|]. intros nf s3. apply IH.
Qed.

End DryRun.

(** ** Credentials *)

Section Credentials.
Context {E : Auth.AuthEnv}.

Lemma getAccessToken_run (c : Auth.OAuth2Client) (w : Auth.World) :
  Auth.getAccessToken c w =
  (let url := Auth.generateAuthUrl c "offline" Auth.SCOPES in
   let query := "Enter the code from that page here: " in
   match Auth.question query w with
   | (code, w1) =>
       match Auth.getToken c code w1 with
       | (inl e, w2) =>
           (Throw e, w2,
            [Auth.AuLog ["Authorize this app by visiting this url:"; url];
             Auth.AuQuestion query code;
             Auth.AuGetToken code (inl e)])
       | (inr tokens, w2) =>
           match Auth.writeFileSync Auth.TOKEN_PATH (Auth.JSON_stringify tokens) w2 with
           | (inl e, w3) =>
               (Throw e, w3,
                [Auth.AuLog ["Authorize this app by visiting this url:"; url];
                 Auth.AuQuestion query code;
                 Auth.AuGetToken code (inr tokens);
                 Auth.AuWrite Auth.TOKEN_PATH (Auth.JSON_stringify tokens) (inl e)])
           | (inr u, w3) =>
               (Ret (Auth.setCredentials c (Some tokens)), w3,
                [Auth.AuLog ["Authorize this app by visiting this url:"; url];
                 Auth.AuQuestion query code;
                 Auth.AuGetToken code (inr tokens);
                 Auth.AuWrite Auth.TOKEN_PATH (Auth.JSON_stringify tokens) (inr u);
                 Auth.AuLog ["Token stored to"; Auth.TOKEN_PATH]])
           end
       end
   end).
Proof.
  unfold Auth.getAccessToken, Auth.abind, Auth.console_log, Auth.askQuestion,
    Auth.client_getToken, Auth.fs_writeFileSync, Auth.aret.
  cbv zeta.
  destruct (Auth.question "Enter the code from that page here: " w) as [code w1].
  destruct (Auth.getToken c code w1) as [[e|tokens] w2]; [reflexivity|].
  destruct (Auth.writeFileSync Auth.TOKEN_PATH (Auth.JSON_stringify tokens) w2)
    as [[e|u] w3]; reflexivity.
Qed.

Lemma authorize_run (w : Auth.World) :
  Auth.authorize w =
  match Auth.readFileSync Auth.CREDENTIALS_PATH w with
  | inl e =>
      (Throw e, w,
       [Auth.AuRead Auth.CREDENTIALS_PATH (inl e);
        Auth.AuError "Error loading client secret file:" e])
  | inr content =>
      match Auth.build_client content with
      | inl e =>
          (Throw e, w,
           [Auth.AuRead Auth.CREDENTIALS_PATH (inr content);
            Auth.AuError "Error loading client secret file:" e])
      | inr client =>
          match Auth.readFileSync Auth.TOKEN_PATH w with
          | inl e' =>
              match Auth.getAccessToken client w with
              | (o, w', t) =>
                  (o, w', Auth.AuRead Auth.CREDENTIALS_PATH (inr content)
                          :: Auth.AuRead Auth.TOKEN_PATH (inl e') :: t)
              end
          | inr token =>
              match Auth.JSON_parse token with
              | inl _ =>
                  match Auth.getAccessToken client w with
                  | (o, w', t) =>
                      (o, w', Auth.AuRead Auth.CREDENTIALS_PATH (inr content)
                              :: Auth.AuRead Auth.TOKEN_PATH (inr token) :: t)
                  end
              | inr tokens =>
                  (Ret (Auth.setCredentials client (Some tokens)), w,
                   [Auth.AuRead Auth.CREDENTIALS_PATH (inr content);
                    Auth.AuRead Auth.TOKEN_PATH (inr token)])
              end
          end
      end
  end.
Proof.
  unfold Auth.authorize, Auth.abind, Auth.atry, Auth.fs_readFileSync, Auth.lift,
    Auth.console_error, Auth.athrow, Auth.aret, Auth.settle.
  destruct (Auth.readFileSync Auth.CREDENTIALS_PATH w) as [e|content]; [reflexivity|].
  destruct (Auth.build_client content) as [e|client]; [reflexivity|].
  destruct (Auth.readFileSync Auth.TOKEN_PATH w) as [e'|token].
  - simpl. destruct (Auth.getAccessToken client w) as [[o w'] t]. reflexivity.
  - destruct (Auth.JSON_parse token) as [e''|tokens]; [|reflexivity].
    simpl. destruct (Auth.getAccessToken client w) as [[o w'] t]. reflexivity.
Qed.

End Credentials.

Section CredentialProperties.
Context {E : Auth.AuthEnv}.

(** X6. With a credential file that yields a client and a token file that
    parses, [authorize] returns the client carrying the stored token after
    two file reads and nothing else: no prompt, no call to the token
    endpoint, no write, and the world is as it was. *)
Theorem stored_token_needs_no_interaction :
  forall w content client token tokens,
    Auth.readFileSync Auth.CREDENTIALS_PATH w = inr content ->
    Auth.build_client content = inr client ->
    Auth.readFileSync Auth.TOKEN_PATH w = inr token ->
    Auth.JSON_parse token = inr tokens ->
    Auth.authorize w
    = (Ret (Auth.setCredentials client (Some tokens)), w,
       [Auth.AuRead Auth.CREDENTIALS_PATH (inr content);
        Auth.AuRead Auth.TOKEN_PATH (inr token)]).
Proof.
  intros w content client token tokens Hc Hb Ht Hp.
  rewrite authorize_run, Hc, Hb, Ht, Hp. reflexivity.
Qed.

Lemma getAccessToken_no_error_line c w o w' t msg e :
  Auth.getAccessToken c w = (o, w', t) -> ~ In (Auth.AuError msg e) t.
Proof.
  rewrite getAccessToken_run. cbv zeta.
  destruct (Auth.question "Enter the code from that page here: " w) as [code w1].
  destruct (Auth.getToken c code w1) as [[e1|tokens] w2].
  - intros H; inversion H; subst. intros Hin.
    repeat (destruct Hin as [Hin|Hin]; [discriminate|]). exact Hin.
  - destruct (Auth.writeFileSync Auth.TOKEN_PATH (Auth.JSON_stringify tokens) w2)
      as [[e1|u] w3]; intros H; inversion H; subst; intros Hin;
      repeat (destruct Hin as [Hin|Hin]; [discriminate|]); exact Hin.
Qed.

(** X7. A credential file that cannot be read, or from which no client
    can be built, makes [authorize] log "Error loading client secret file:"
    with the error and throw that same error, the world untouched; and that
    line is written in no other case: a run whose trace holds it consists of
    the read of the credential file and this line. *)
Theorem credential_errors_are_logged_and_rethrown :
  (forall w e,
      Auth.readFileSync Auth.CREDENTIALS_PATH w = inl e ->
      Auth.authorize w
      = (Throw e, w,
         [Auth.AuRead Auth.CREDENTIALS_PATH (inl e);
          Auth.AuError "Error loading client secret file:" e]))
  /\ (forall w content e,
        Auth.readFileSync Auth.CREDENTIALS_PATH w = inr content ->
        Auth.build_client content = inl e ->
        Auth.authorize w
        = (Throw e, w,
           [Auth.AuRead Auth.CREDENTIALS_PATH (inr content);
            Auth.AuError "Error loading client secret file:" e]))
  /\ (forall w o w' tr msg e,
        Auth.authorize w = (o, w', tr) ->
        In (Auth.AuError msg e) tr ->
        o = Throw e /\ w' = w
        /\ tr = [Auth.AuRead Auth.CREDENTIALS_PATH (Auth.readFileSync Auth.CREDENTIALS_PATH w);
                 Auth.AuError "Error loading client secret file:" e]).
Proof.
  split; [|split].
  - intros w e Hc. rewrite authorize_run, Hc. reflexivity.
  - intros w content e Hc Hb. rewrite authorize_run, Hc, Hb. reflexivity.
  - intros w o w' tr msg e H Hin. rewrite authorize_run in H.
    destruct (Auth.readFileSync Auth.CREDENTIALS_PATH w) as [e0|content].
    { inversion H; subst. destruct Hin as [Hin|[Hin|[]]]; [discriminate|].
      inversion Hin; subst. auto. }
    destruct (Auth.build_client content) as [e0|client].
    { inversion H; subst. destruct Hin as [Hin|[Hin|[]]]; [discriminate|].
      inversion Hin; subst. auto. }
    exfalso.
    destruct (Auth.readFileSync Auth.TOKEN_PATH w) as [e'|token].
    + destruct (Auth.getAccessToken client w) as [[o1 w1] t1] eqn:Hg.
      inversion H; subst. destruct Hin as [Hin|[Hin|Hin]]; try discriminate.
      eapply getAccessToken_no_error_line; eauto.
    + destruct (Auth.JSON_parse token) as [e''|tokens].
      * destruct (Auth.getAccessToken client w) as [[o1 w1] t1] eqn:Hg.
        inversion H; subst. destruct Hin as [Hin|[Hin|Hin]]; try discriminate.
        eapply getAccessToken_no_error_line; eauto.
      * inversion H; subst. destruct Hin as [Hin|[Hin|[]]]; discriminate.
Qed.

(** X9. Whatever [authorize] does, the only file it writes is
    [token.json], and what it writes there is [JSON.stringify] of the
    tokens the endpoint returned in that run; in particular it never
    writes the credential file, and writes nothing when the endpoint
    rejected the code. *)
Theorem only_the_token_file_is_written :
  forall w o w' tr path content r,
    Auth.authorize w = (o, w', tr) ->
    In (Auth.AuWrite path content r) tr ->
    path = Auth.TOKEN_PATH
    /\ exists code tokens,
        In (Auth.AuGetToken code (inr tokens)) tr
        /\ content = Auth.JSON_stringify tokens
        /\ (forall client, o = Ret client ->
              r = inr tt /\ Auth.credentials client = Some tokens).
Proof.
  intros w o w' tr path content r H Hin.
  assert (Hg : forall c w0 o0 w1 t,
             Auth.getAccessToken c w0 = (o0, w1, t) ->
             In (Auth.AuWrite path content r) t ->
             path = Auth.TOKEN_PATH
             /\ exists code tokens,
                 In (Auth.AuGetToken code (inr tokens)) t
                 /\ content = Auth.JSON_stringify tokens
                 /\ (forall client, o0 = Ret client ->
                       r = inr tt /\ Auth.credentials client = Some tokens)).
  { intros c w0 o0 w1 t Hrun Hw. rewrite getAccessToken_run in Hrun. cbv zeta in Hrun.
    destruct (Auth.question "Enter the code from that page here: " w0) as [code w2].
    destruct (Auth.getToken c code w2) as [[e1|tokens] w3].
    - inversion Hrun; subst.
      repeat (destruct Hw as [Hw|Hw]; [discriminate|]). destruct Hw.
    - destruct (Auth.writeFileSync Auth.TOKEN_PATH (Auth.JSON_stringify tokens) w3)
        as [[e1|[]] w4]; inversion Hrun; subst;
        destruct Hw as [Hw|[Hw|[Hw|[Hw|Hw]]]]; try discriminate;
        try (destruct Hw as [Hw|[]]; discriminate);
        inversion Hw; subst; (split; [reflexivity|]);
        exists code, tokens; (split; [simpl; tauto|]); (split; [reflexivity|]);
        intros client Hc; inversion Hc; subst; split; reflexivity. }
  rewrite authorize_run in H.
  destruct (Auth.readFileSync Auth.CREDENTIALS_PATH w) as [e0|text].
  { inversion H; subst. destruct Hin as [Hin|[Hin|[]]]; discriminate. }
  destruct (Auth.build_client text) as [e0|client0].
  { inversion H; subst. destruct Hin as [Hin|[Hin|[]]]; discriminate. }
  assert (Hwrap : forall r0 o1 w1 t1,
             Auth.getAccessToken client0 w = (o1, w1, t1) ->
             (o1, w1, Auth.AuRead Auth.CREDENTIALS_PATH (inr text)
                      :: Auth.AuRead Auth.TOKEN_PATH r0 :: t1) = (o, w', tr) ->
             path = Auth.TOKEN_PATH
             /\ exists code tokens,
                 In (Auth.AuGetToken code (inr tokens)) tr
                 /\ content = Auth.JSON_stringify tokens
                 /\ (forall client, o = Ret client ->
                       r = inr tt /\ Auth.credentials client = Some tokens)).
  { intros r0 o1 w1 t1 Hrun Heq. inversion Heq; subst.
    destruct Hin as [Hin|[Hin|Hin]]; try discriminate.
    destruct (Hg _ _ _ _ _ Hrun Hin) as (Hp & code & tokens & Hi & Hc & Ho).
    split; [exact Hp|]. exists code, tokens. split; [right; right; exact Hi|]. auto. }
  destruct (Auth.readFileSync Auth.TOKEN_PATH w) as [e'|token].
  - destruct (Auth.getAccessToken client0 w) as [[o1 w1] t1] eqn:Hrun.
    eapply Hwrap; eauto.
  - destruct (Auth.JSON_parse token) as [e''|tokens0].
    + destruct (Auth.getAccessToken client0 w) as [[o1 w1] t1] eqn:Hrun.
      eapply Hwrap; eauto.
    + inversion H; subst. destruct Hin as [Hin|[Hin|[]]]; discriminate.
Qed.

(** X10. A failure of the interactive exchange leaves [authorize] as it
    is: when the endpoint rejects the code, or when the token cannot be
    written, [authorize] throws that error, and, the call of
    [getAccessToken] being returned without [await], the line "Error
    loading client secret file:" of the enclosing [catch] is not written;
    a rejected code is followed by no write. *)
Theorem interactive_failures_are_thrown_unlogged :
  forall w o w' tr,
    Auth.authorize w = (o, w', tr) ->
    (forall code e,
        In (Auth.AuGetToken code (inl e)) tr ->
        o = Throw e
        /\ (forall msg err, ~ In (Auth.AuError msg err) tr)
        /\ (forall path content r, ~ In (Auth.AuWrite path content r) tr))
    /\ (forall path content e,
          In (Auth.AuWrite path content (inl e)) tr ->
          o = Throw e /\ forall msg err, ~ In (Auth.AuError msg err) tr).
Proof.
  intros w o w' tr H.
  assert (Hg : forall c w0 o0 w1 t,
             Auth.getAccessToken c w0 = (o0, w1, t) ->
             (forall code e,
                 In (Auth.AuGetToken code (inl e)) t ->
                 o0 = Throw e
                 /\ (forall path content r, ~ In (Auth.AuWrite path content r) t))
             /\ (forall path content e,
                   In (Auth.AuWrite path content (inl e)) t -> o0 = Throw e)).
  { intros c w0 o0 w1 t Hrun. rewrite getAccessToken_run in Hrun. cbv zeta in Hrun.
    destruct (Auth.question "Enter the code from that page here: " w0) as [code w2].
    destruct (Auth.getToken c code w2) as [[e1|tokens] w3].
    - inversion Hrun; subst. split.
      + intros code' e Hin. destruct Hin as [Hin|[Hin|[Hin|[]]]]; try discriminate.
        inversion Hin; subst. split; [reflexivity|].
        intros path content r Hw.
        repeat (destruct Hw as [Hw|Hw]; [discriminate|]). exact Hw.
      + intros path content e Hw.
        repeat (destruct Hw as [Hw|Hw]; [discriminate|]). destruct Hw.
    - destruct (Auth.writeFileSync Auth.TOKEN_PATH (Auth.JSON_stringify tokens) w3)
        as [[e1|u] w4]; inversion Hrun; subst; split.
      + intros code' e Hin.
        repeat (destruct Hin as [Hin|Hin]; [discriminate|]). destruct Hin.
      + intros path content e Hw.
        destruct Hw as [Hw|[Hw|[Hw|[Hw|[]]]]]; try discriminate.
        inversion Hw; subst. reflexivity.
      + intros code' e Hin.
        repeat (destruct Hin as [Hin|Hin]; [discriminate|]). destruct Hin.
      + intros path content e Hw.
        repeat (destruct Hw as [Hw|Hw]; [discriminate|]). destruct Hw. }
  assert (Hwrap : forall (head : list Auth.AuthEvent) c o1 w1 t1,
             Auth.getAccessToken c w = (o1, w1, t1) ->
             (forall ev, In ev head -> exists p r, ev = Auth.AuRead p r) ->
             (forall code e,
                 In (Auth.AuGetToken code (inl e)) (head ++ t1) ->
                 o1 = Throw e
                 /\ (forall msg err, ~ In (Auth.AuError msg err) (head ++ t1))
                 /\ (forall path content r, ~ In (Auth.AuWrite path content r) (head ++ t1)))
             /\ (forall path content e,
                   In (Auth.AuWrite path content (inl e)) (head ++ t1) ->
                   o1 = Throw e /\ forall msg err, ~ In (Auth.AuError msg err) (head ++ t1))).
  { intros head c o1 w1 t1 Hrun Hhead.
    destruct (Hg _ _ _ _ _ Hrun) as [Hg1 Hg2].
    assert (Hnoerr : forall msg err, ~ In (Auth.AuError msg err) (head ++ t1)).
    { intros msg err Hin. apply in_app_or in Hin. destruct Hin as [Hin|Hin].
      - destruct (Hhead _ Hin) as (p & r & Heq). discriminate.
      - eapply getAccessToken_no_error_line; eauto. }
    split.
    - intros code e Hin. apply in_app_or in Hin. destruct Hin as [Hin|Hin].
      { destruct (Hhead _ Hin) as (p & r & Heq). discriminate. }
      destruct (Hg1 _ _ Hin) as [Ho Hnw]. split; [exact Ho|]. split; [exact Hnoerr|].
      intros path content r Hw. apply in_app_or in Hw. destruct Hw as [Hw|Hw].
      + destruct (Hhead _ Hw) as (p & r' & Heq). discriminate.
      + eapply Hnw; eauto.
    - intros path content e Hin. apply in_app_or in Hin. destruct Hin as [Hin|Hin].
      { destruct (Hhead _ Hin) as (p & r & Heq). discriminate. }
      split; [eapply Hg2; eauto | exact Hnoerr]. }
  assert (Hreads : forall (a b : Auth.AuthEvent) p1 r1 p2 r2,
             a = Auth.AuRead p1 r1 -> b = Auth.AuRead p2 r2 ->
             forall ev, In ev [a; b] -> exists p r, ev = Auth.AuRead p r).
  { intros a b p1 r1 p2 r2 -> -> ev [<-|[<-|[]]]; eauto. }
  rewrite authorize_run in H.
  destruct (Auth.readFileSync Auth.CREDENTIALS_PATH w) as [e0|text].
  { inversion H; subst. split.
    - intros code e Hin. destruct Hin as [Hin|[Hin|[]]]; discriminate.
    - intros path content e Hin. destruct Hin as [Hin|[Hin|[]]]; discriminate. }
  destruct (Auth.build_client text) as [e0|client0].
  { inversion H; subst. split.
    - intros code e Hin. destruct Hin as [Hin|[Hin|[]]]; discriminate.
    - intros path content e Hin. destruct Hin as [Hin|[Hin|[]]]; discriminate. }
  destruct (Auth.readFileSync Auth.TOKEN_PATH w) as [e'|token].
  - destruct (Auth.getAccessToken client0 w) as [[o1 w1] t1] eqn:Hrun.
    inversion H; subst.
    exact (Hwrap [Auth.AuRead Auth.CREDENTIALS_PATH (inr text);
                  Auth.AuRead Auth.TOKEN_PATH (inl e')] _ _ _ _ Hrun
                 (Hreads _ _ _ _ _ _ eq_refl eq_refl)).
  - destruct (Auth.JSON_parse token) as [e''|tokens0].
    + destruct (Auth.getAccessToken client0 w) as [[o1 w1] t1] eqn:Hrun.
      inversion H; subst.
      exact (Hwrap [Auth.AuRead Auth.CREDENTIALS_PATH (inr text);
                    Auth.AuRead Auth.TOKEN_PATH (inr token)] _ _ _ _ Hrun
                   (Hreads _ _ _ _ _ _ eq_refl eq_refl)).
    + inversion H; subst. split.
      * intros code e Hin. destruct Hin as [Hin|[Hin|[]]]; discriminate.
      * intros path content e Hin. destruct Hin as [Hin|[Hin|[]]]; discriminate.
Qed.

End CredentialProperties.

Section TokenRoundTrip.
Context {E : Auth.AuthEnv} {S : Auth.StableFiles E}.

Lemma paths_differ : Auth.CREDENTIALS_PATH <> Auth.TOKEN_PATH.
Proof. discriminate. Qed.

(** X11. Once [authorize] has succeeded, running it again in the world it
    left succeeds without any interaction and returns the same client: the
    token it was given or has just stored is read back from [token.json].
    For a token obtained from the endpoint this needs the token to survive
    [JSON.stringify] followed by [JSON.parse]. *)
Theorem authorize_again_is_silent :
  forall w client w' tr,
    Auth.authorize w = (Ret client, w', tr) ->
    (forall code tokens,
        In (Auth.AuGetToken code (inr tokens)) tr ->
        Auth.JSON_parse (Auth.JSON_stringify tokens) = inr tokens) ->
    exists content token,
      Auth.authorize w'
      = (Ret client, w',
         [Auth.AuRead Auth.CREDENTIALS_PATH (inr content);
          Auth.AuRead Auth.TOKEN_PATH (inr token)]).
Proof.
  intros w client w' tr H Hjson.
  assert (Hinter : forall client0 content r0 t1,
             Auth.readFileSync Auth.CREDENTIALS_PATH w = inr content ->
             Auth.build_client content = inr client0 ->
             Auth.getAccessToken client0 w = (Ret client, w', t1) ->
             tr = Auth.AuRead Auth.CREDENTIALS_PATH (inr content)
                  :: Auth.AuRead Auth.TOKEN_PATH r0 :: t1 ->
             exists content' token,
               Auth.authorize w'
               = (Ret client, w',
                  [Auth.AuRead Auth.CREDENTIALS_PATH (inr content');
                   Auth.AuRead Auth.TOKEN_PATH (inr token)])).
  { intros client0 content r0 t1 Hc Hb Hrun Htr.
    rewrite getAccessToken_run in Hrun. cbv zeta in Hrun.
    destruct (Auth.question "Enter the code from that page here: " w) as [code w1] eqn:Hq.
    destruct (Auth.getToken client0 code w1) as [[e1|tokens] w2] eqn:Hg; [discriminate|].
    destruct (Auth.writeFileSync Auth.TOKEN_PATH (Auth.JSON_stringify tokens) w2)
      as [[e1|[]] w3] eqn:Hw; [discriminate|].
    inversion Hrun; subst.
    exists content, (Auth.JSON_stringify tokens).
    rewrite authorize_run.
    rewrite (Auth.write_elsewhere _ _ _ _ _ Auth.CREDENTIALS_PATH Hw paths_differ).
    replace w2 with (snd (Auth.getToken client0 code w1)) by (rewrite Hg; reflexivity).
    rewrite Auth.getToken_keeps_files.
    replace w1 with (snd (Auth.question "Enter the code from that page here: " w))
      by (rewrite Hq; reflexivity).
    rewrite Auth.question_keeps_files, Hc, Hb.
    rewrite (Auth.read_after_write _ _ _ _ Hw).
    rewrite (Hjson code tokens) by (simpl; tauto).
    reflexivity. }
  pose proof H as H0. rewrite authorize_run in H0.
  destruct (Auth.readFileSync Auth.CREDENTIALS_PATH w) as [e0|content] eqn:Hc;
    [discriminate|].
  destruct (Auth.build_client content) as [e0|client0] eqn:Hb; [discriminate|].
  destruct (Auth.readFileSync Auth.TOKEN_PATH w) as [e'|token] eqn:Ht.
  - destruct (Auth.getAccessToken client0 w) as [[o1 w1] t1] eqn:Hrun.
    inversion H0; subst. eapply Hinter; eauto.
  - destruct (Auth.JSON_parse token) as [e''|tokens0] eqn:Hp.
    + destruct (Auth.getAccessToken client0 w) as [[o1 w1] t1] eqn:Hrun.
      inversion H0; subst. eapply Hinter; eauto.
    + inversion H0; subst. exists content, token.
      rewrite authorize_run, Hc, Hb, Ht, Hp. reflexivity.
Qed.

End TokenRoundTrip.

Section SessionProperties.
Context {D : DriveAPI} {E : Auth.AuthEnv}.

(** X12. When [authorize] throws, the session is over at once: [main]
    logs "Error:" with that error, no question is asked, no command is
    sent to the store, and the store is left as it was.  When the
    credential file cannot be read, the same error is thus reported twice,
    by [authorize] and by [main]. *)
Theorem failed_authorization_ends_the_session :
  (forall fuel w s e w1 ta,
      Auth.authorize w = (Throw e, w1, ta) ->
      main_session fuel w s
      = (Ret tt, w1, s, map inl ta ++ [inr (ConsoleError "Error:" e)]))
  /\ (forall fuel w s e,
        Auth.readFileSync Auth.CREDENTIALS_PATH w = inl e ->
        main_session fuel w s
        = (Ret tt, w, s,
           [inl (Auth.AuRead Auth.CREDENTIALS_PATH (inl e));
            inl (Auth.AuError "Error loading client secret file:" e);
            inr (ConsoleError "Error:" e)])).
Proof.
  assert (H1 : forall fuel w s e w1 ta,
             Auth.authorize w = (Throw e, w1, ta) ->
             main_session fuel w s
             = (Ret tt, w1, s, map inl ta ++ [inr (ConsoleError "Error:" e)])).
  { intros fuel w s e w1 ta H. unfold main_session. rewrite H, main_run. reflexivity. }
  split; [exact H1|].
  intros fuel w s e Hc.
  rewrite (H1 fuel w s e w
              [Auth.AuRead Auth.CREDENTIALS_PATH (inl e);
               Auth.AuError "Error loading client secret file:" e]);
    [reflexivity|].
  rewrite authorize_run, Hc. reflexivity.
Qed.

End SessionProperties.

(** ** The metadata lister *)

Section ListerProperties.
Context {E : Lister.ListerEnv}.

Lemma lister_authorize_run path w :
  Lister.authorize path w =
  match Lister.readFile path w with
  | inl e =>
      (Throw e, w,
       [Lister.LsRead path (inl e);
        Lister.LsErrorWith "Error al autorizar con la cuenta de servicio:" e])
  | inr content =>
      match Lister.JSON_parse content with
      | inl e =>
          (Throw e, w,
           [Lister.LsRead path (inr content);
            Lister.LsErrorWith "Error al autorizar con la cuenta de servicio:" e])
      | inr key =>
          match Lister.new_GoogleAuth key Lister.SCOPES with
          | inl e =>
              (Throw e, w,
               [Lister.LsRead path (inr content);
                Lister.LsErrorWith "Error al autorizar con la cuenta de servicio:" e])
          | inr auth =>
              match Lister.getClient auth w with
              | (inl e, w1) =>
                  (Throw e, w1,
                   [Lister.LsRead path (inr content); Lister.LsGetClient (inl e)])
              | (inr c, w1) =>
                  (Ret c, w1,
                   [Lister.LsRead path (inr content); Lister.LsGetClient (inr tt)])
              end
          end
      end
  end.
Proof.
  unfold Lister.authorize, Lister.lbind, Lister.ltry, Lister.fs_readFile, Lister.lift,
    Lister.console_error_with, Lister.lthrow, Lister.lret, Lister.settle,
    Lister.auth_getClient.
  destruct (Lister.readFile path w) as [e|content]; [reflexivity|].
  destruct (Lister.JSON_parse content) as [e|key]; [reflexivity|].
  destruct (Lister.new_GoogleAuth key Lister.SCOPES) as [e|auth]; [reflexivity|].
  simpl. destruct (Lister.getClient auth w) as [[e|c] w1]; reflexivity.
Qed.

Lemma for_each_lines (l : list Lister.Listed) w :
  Lister.for_each l
    (fun file => Lister.console_log (Lister.name file ++ " (" ++ Lister.id file ++ ")")) w
  = (Ret tt, w,
     map (fun file => Lister.LsLog (Lister.name file ++ " (" ++ Lister.id file ++ ")")) l).
Proof.
  revert w. induction l as [|file rest IH]; intros w; [reflexivity|].
  cbn [Lister.for_each]. unfold Lister.lbind. cbn beta.
  unfold Lister.console_log at 1. rewrite IH. reflexivity.
Qed.

Lemma listFiles_prints_the_first_page_aux c w :
  Lister.listFiles c w =
  match Lister.files_list c 10 Lister.LIST_FIELDS w with
  | (inl e, w1) => (Throw e, w1, [Lister.LsList 10 Lister.LIST_FIELDS (inl e)])
  | (inr res, w1) =>
      (Ret tt, w1, Lister.LsList 10 Lister.LIST_FIELDS (inr res) :: Lister.lines res)
  end.
Proof.
  unfold Lister.listFiles, Lister.lbind at 1, Lister.drive_files_list.
  destruct (Lister.files_list c 10 Lister.LIST_FIELDS w) as [[e|res] w1]; [reflexivity|].
  unfold Lister.lines. destruct (Lister.files res) as [[|file rest]|].
  - reflexivity.
  - unfold Lister.lbind, Lister.console_log at 1. rewrite for_each_lines. reflexivity.
  - reflexivity.
Qed.

(** X13. [listFiles] sends one list request, for at most 10 files, and
    never asks for a second page, whatever continuation token comes back.
    It prints "No files found." when [files] is an empty array; otherwise
    "Files:" followed by one line "<name> (<id>)" per file, in the order of
    the response; when [files] is missing from the response it prints
    "Files:" alone.  A rejected request is thrown and nothing is printed. *)
Theorem listFiles_prints_the_first_page :
  forall c w,
    Lister.listFiles c w =
    match Lister.files_list c 10 Lister.LIST_FIELDS w with
    | (inl e, w1) => (Throw e, w1, [Lister.LsList 10 Lister.LIST_FIELDS (inl e)])
    | (inr res, w1) =>
        (Ret tt, w1, Lister.LsList 10 Lister.LIST_FIELDS (inr res) :: Lister.lines res)
    end.
Proof.
  intros c w. unfold Lister.listFiles, Lister.lbind at 1, Lister.drive_files_list.
  destruct (Lister.files_list c 10 Lister.LIST_FIELDS w) as [[e|res] w1]; [reflexivity|].
  unfold Lister.lines. destruct (Lister.files res) as [[|file rest]|].
  - reflexivity.
  - unfold Lister.lbind, Lister.console_log at 1. rewrite for_each_lines. reflexivity.
  - reflexivity.
Qed.

(** X14. The script ends with status 1, after one error line and nothing
    else, exactly when the variable SERVICE_ACCOUNT_JSON_PATH is unset or
    empty: no file is read and no request is sent.  In every other case it
    ends with status 0, also when the authorization or the listing failed. *)
Theorem script_exit_status :
  (forall path w,
      truthy path = false ->
      Lister.script path w
      = (Some 1, w,
         [Lister.LsError
            "La variable de entorno SERVICE_ACCOUNT_JSON_PATH no está definida."]))
  /\ (forall path w status w' tr,
        truthy path = true ->
        Lister.script path w = (status, w', tr) ->
        status = Some 0
        /\ exists p t, path = Some p /\ tr = Lister.LsRead p (Lister.readFile p w) :: t).
Proof.
  split.
  - intros path w H. unfold Lister.script. rewrite H. reflexivity.
  - intros path w status w' tr H Hrun. unfold Lister.script in Hrun. rewrite H in Hrun.
    simpl in Hrun. destruct path as [p|]; [|discriminate].
    unfold Lister.lbind in Hrun. rewrite lister_authorize_run in Hrun.
    destruct (Lister.readFile p w) as [e|content] eqn:Hr.
    { inversion Hrun; subst. split; [reflexivity|]. exists p. eexists. split; [reflexivity | rewrite Hr; reflexivity]. }
    destruct (Lister.JSON_parse content) as [e|key].
    { inversion Hrun; subst. split; [reflexivity|]. exists p. eexists. split; [reflexivity | rewrite Hr; reflexivity]. }
    destruct (Lister.new_GoogleAuth key Lister.SCOPES) as [e|auth].
    { inversion Hrun; subst. split; [reflexivity|]. exists p. eexists. split; [reflexivity | rewrite Hr; reflexivity]. }
    destruct (Lister.getClient auth w) as [[e|c] w1].
    { inversion Hrun; subst. split; [reflexivity|]. exists p. eexists. split; [reflexivity | rewrite Hr; reflexivity]. }
    rewrite listFiles_prints_the_first_page_aux in Hrun.
    destruct (Lister.files_list c 10 Lister.LIST_FIELDS w1) as [[e|res] w2];
      inversion Hrun; subst; (split; [reflexivity|]); exists p; eexists; (split; [reflexivity | rewrite Hr; reflexivity]).
Qed.

(** X15. How the script reports a failed authorization.  A key file that
    cannot be read or parsed is reported twice, by [authorize] with the line
    "Error al autorizar con la cuenta de servicio:" and by the final
    [catch]; a rejection of [getClient], whose promise is returned without
    [await], is reported by the final [catch] only; in both cases no list
    request is sent. *)
Theorem lister_authorization_failures :
  (forall p w e,
      truthy (Some p) = true ->
      Lister.readFile p w = inl e ->
      Lister.script (Some p) w
      = (Some 0, w,
         [Lister.LsRead p (inl e);
          Lister.LsErrorWith "Error al autorizar con la cuenta de servicio:" e;
          Lister.LsErrorValue e]))
  /\ (forall p w content e,
        truthy (Some p) = true ->
        Lister.readFile p w = inr content ->
        Lister.JSON_parse content = inl e ->
        Lister.script (Some p) w
        = (Some 0, w,
           [Lister.LsRead p (inr content);
            Lister.LsErrorWith "Error al autorizar con la cuenta de servicio:" e;
            Lister.LsErrorValue e]))
  /\ (forall p w status w' tr e,
        Lister.script (Some p) w = (status, w', tr) ->
        In (Lister.LsGetClient (inl e)) tr ->
        exists content,
          tr = [Lister.LsRead p (inr content); Lister.LsGetClient (inl e);
                Lister.LsErrorValue e]).
Proof.
  split; [|split].
  - intros p w e Hp Hr. unfold Lister.script. rewrite Hp. simpl.
    unfold Lister.lbind. rewrite lister_authorize_run, Hr. reflexivity.
  - intros p w content e Hp Hr Hj. unfold Lister.script. rewrite Hp. simpl.
    unfold Lister.lbind. rewrite lister_authorize_run, Hr, Hj. reflexivity.
  - intros p w status w' tr e Hrun Hin. unfold Lister.script in Hrun.
    destruct (negb (truthy (Some p))).
    { inversion Hrun; subst. destruct Hin as [Hin|[]]; discriminate. }
    simpl in Hrun. unfold Lister.lbind in Hrun. rewrite lister_authorize_run in Hrun.
    destruct (Lister.readFile p w) as [e0|content].
    { inversion Hrun; subst. exfalso.
      repeat (destruct Hin as [Hin|Hin]; [discriminate|]). exact Hin. }
    destruct (Lister.JSON_parse content) as [e0|key].
    { inversion Hrun; subst. exfalso.
      repeat (destruct Hin as [Hin|Hin]; [discriminate|]). exact Hin. }
    destruct (Lister.new_GoogleAuth key Lister.SCOPES) as [e0|auth].
    { inversion Hrun; subst. exfalso.
      repeat (destruct Hin as [Hin|Hin]; [discriminate|]). exact Hin. }
    destruct (Lister.getClient auth w) as [[e0|c] w1].
    { inversion Hrun; subst. exists content.
      destruct Hin as [Hin|[Hin|[Hin|[]]]]; try discriminate.
      inversion Hin; subst. reflexivity. }
    rewrite listFiles_prints_the_first_page_aux in Hrun. exfalso.
    destruct (Lister.files_list c 10 Lister.LIST_FIELDS w1) as [[e0|res] w2];
      inversion Hrun; subst.
    + repeat (destruct Hin as [Hin|Hin]; [discriminate|]). exact Hin.
    + destruct Hin as [Hin|[Hin|[Hin|Hin]]]; try discriminate.
      unfold Lister.lines in Hin. destruct (Lister.files res) as [[|f l]|].
      * destruct Hin as [Hin|[]]; discriminate.
      * destruct Hin as [Hin|Hin]; [discriminate|].
        apply in_map_iff in Hin. destruct Hin as (x & Hx & _). discriminate.
      * destruct Hin as [Hin|[]]; discriminate.
Qed.

End ListerProperties.

(** ** The theorems at work on the in-memory store *)

Import MemDrive.

(** The folder A of the scenario matches bob and not alice. *)
Lemma ownership_match_witness :
  isOwnedByTarget folderA bob = true
  /\ isOwnedByTarget folderA alice = false
  /\ replicate (D := drive) 4 "R" alice alice folderA scenario = (Ret tt, scenario, []).
Proof.
  destruct (@ownership_match_is_exact_equality drive) as (Hiff & _ & _ & Hrep).
  split; [|split].
  - apply (proj2 (Hiff folderA bob)). exists {| emailAddress := bob |}.
    split; [left; reflexivity | reflexivity].
  - reflexivity.
  - apply Hrep. reflexivity.
Defined.

(** A root without recorded owner: the run is the get call and the error line. *)
Lemma root_without_owner_witness :
  main (D := drive) 5 (inr tt) "R" bob orphan_root
  = (Ret tt, orphan_root,
     [EvGet "R" "owners" (inr {| data_owners := Some [] |});
      ConsoleError "Error:" {| message := "Could not determine the root folder owner" |}]).
Proof.
  apply (proj1 (root_without_owner_aborts_before_the_walk (D := drive)
                  5 "R" bob orphan_root {| data_owners := Some [] |} orphan_root
                  eq_refl (or_intror eq_refl))).
Defined.

(** The listing of A is rejected during the subtree copy: the run ends with
    that call and the error line of [main]. *)
Lemma fatal_errors_witness :
  exists t0,
    snd (main (D := drive) 5 (inr tt) "R" bob A_unlistable)
    = t0 ++ [EvList (children_query "A") LIST_FIELDS None None
                    (inl {| message := "Cannot list: " ++ children_query "A" |});
             ConsoleError "Error:" {| message := "Cannot list: " ++ children_query "A" |}].
Proof.
  pose (run := main (D := drive) 5 (inr tt) "R" bob A_unlistable).
  assert (Hrun : run = (fst (fst run), snd (fst run), snd run)) by (vm_compute; reflexivity).
  destruct (fatal_errors_are_logged_by_main (D := drive) _ _ _ _ _ _ _ _ Hrun)
    as (_ & _ & Hfatal & _).
  apply Hfatal; [|reflexivity]. vm_compute. tauto.
Defined.

(** The creation of the folder for A is rejected: the walk throws. *)
Lemma copy_failures_witness :
  fst (fst (processFolder (D := drive) 5 "R" bob alice A_rejected))
  = Throw {| message := "Cannot create: A" |}.
Proof.
  pose (run := processFolder (D := drive) 5 "R" bob alice A_rejected).
  assert (Hrun : run = (fst (fst run), snd (fst run), snd run)) by (vm_compute; reflexivity).
  destruct (@copy_failures_are_contained drive) as (_ & _ & _ & Hcreate & _).
  apply (Hcreate _ _ _ _ _ _ _ _ "A" FOLDER_MIME ["R"] ID_NAME
                 {| message := "Cannot create: A" |} Hrun).
  vm_compute. tauto.
Defined.

(** The nodes of the scenario are all there after the walk. *)
Lemma walk_never_deletes_witness :
  incl (nodes scenario) (nodes (snd (fst (processFolder (D := drive) 5 "R" bob alice scenario)))).
Proof.
  pose (run := processFolder (D := drive) 5 "R" bob alice scenario).
  assert (Hrun : run = (fst (fst run), snd (fst run), snd run)) by (vm_compute; reflexivity).
  destruct (@walk_never_deletes_or_mutates drive additive) as (Hwalk & _ & _).
  exact (proj1 (Hwalk _ _ _ _ _ _ _ _ Hrun)).
Defined.

(** The root served in two pages, to the walk and to the subtree copy: in
    both runs the request for the second page carries the token of the
    first; the walk returns with five units of fuel and with any larger
    amount. *)
Lemma two_pages_witness :
  (exists s' tr',
      paged_visit (D := drive) (children_query "R") (Some 1000) (walk_item 4 "R" bob alice)
                  4 None two_pages (Ret tt) s' tr'
      /\ served tr' = 5)
  /\ (exists s' tr,
        paged_visit (D := drive) (children_query "R") None (copy_item 4 "Z" bob alice)
                    4 None two_pages (Ret tt) s' tr
        /\ In (EvList (children_query "R") LIST_FIELDS (Some "2") None
                      (inr {| files := [info (file "h1" "h1" bob "R")];
                              nextPageToken := None |})) tr)
  /\ (forall fuel', 5 <= fuel' ->
        processFolder (D := drive) fuel' "R" bob alice two_pages
        = processFolder (D := drive) 5 "R" bob alice two_pages).
Proof.
  destruct (@pages_are_requested_in_order drive) as (Hwalk & Hcopy & Hends & _).
  split; [|split].
  - pose (run := processFolder (D := drive) 5 "R" bob alice two_pages).
    assert (Hrun : run = (Ret tt, snd (fst run), snd run)) by (vm_compute; reflexivity).
    destruct (Hwalk _ _ _ _ _ _ _ _ Hrun) as (tr' & Htr & Hvisit).
    exists (snd (fst run)), tr'. split; [exact Hvisit|].
    assert (Heq : tr' = tl (snd run)) by (rewrite Htr; reflexivity).
    rewrite Heq. vm_compute. reflexivity.
  - pose (run := copyFolderContents (D := drive) 5 "R" "Z" bob alice two_pages).
    assert (Hrun : run = (Ret tt, snd (fst run), snd run)) by (vm_compute; reflexivity).
    exists (snd (fst run)), (snd run). split; [exact (Hcopy _ _ _ _ _ _ _ _ _ Hrun)|].
    vm_compute. tauto.
  - pose (run := processFolder (D := drive) 5 "R" bob alice two_pages).
    assert (Hrun : run = (Ret tt, snd (fst run), snd run)) by (vm_compute; reflexivity).
    intros fuel' Hle.
    change (processFolder (D := drive) fuel' "R" bob alice two_pages = run).
    rewrite Hrun.
    apply (proj2 (proj2 (Hends _ _ _ _ _ _ _ _ Hrun))); [discriminate | exact Hle].
Defined.


(** The walk of the scenario for the target alice: folder A, which alice
    does not own, is entered, and the walk returns, with five units of fuel
    and with any larger amount. *)
Lemma unowned_folder_witness :
  isOwnedByTarget folderA alice = false
  /\ fst (fst (processFolder (D := drive) 5 "R" alice alice scenario)) = Ret tt
  /\ In (ConsoleLog "Processing folder with ID: A")
        (snd (processFolder (D := drive) 5 "R" alice alice scenario))
  /\ forall fuel', 5 <= fuel' ->
       processFolder (D := drive) fuel' "R" alice alice scenario
       = processFolder (D := drive) 5 "R" alice alice scenario.
Proof.
  pose (run := processFolder (D := drive) 5 "R" alice alice scenario).
  assert (Hrun : run = (fst (fst run), snd (fst run), snd run)) by (vm_compute; reflexivity).
  destruct (descent_follows_the_replication (D := drive) _ _ _ _ _ _ _ _ Hrun)
    as (_ & Hd & _ & _ & Hret & Hmore).
  assert (Ho : fst (fst run) = Ret tt).
  { apply Hret.
    - vm_compute. repeat constructor.
    - vm_compute. repeat constructor. }
  split; [reflexivity|]. split; [exact Ho|]. split.
  - refine (proj1 (Hd Ho (children_query "R") None
                      {| files := [folderA; info (file "g1" "g1" alice "R")];
                         nextPageToken := None |}
                      folderA _ _ _)).
    + vm_compute. tauto.
    + left. reflexivity.
    + reflexivity.
  - intros fuel' Hle.
    change (processFolder (D := drive) fuel' "R" alice alice scenario = run).
    rewrite Hrun. apply Hmore; [|exact Hle].
    rewrite Ho. discriminate.
Defined.


(** ** Where the specification and the code part *)


(** C2 as stated fails: on the store that rejects the creation of folder
    A, the walk for bob, who owns A, is served A and never enters it, while
    the walk for carol, who owns nothing, enters it. *)
Lemma rejected_creation_prevents_the_descent :
  isOwnedByTarget folderA bob = true
  /\ isOwnedByTarget folderA "carol@x.com" = false
  /\ In (EvList (children_query "R") LIST_FIELDS None (Some 1000)
                (inr {| files := [folderA; info (file "g1" "g1" alice "R")];
                        nextPageToken := Some "2" |}))
        (snd (processFolder (D := drive) 5 "R" bob alice A_rejected))
  /\ fst (fst (processFolder (D := drive) 5 "R" bob alice A_rejected))
     = Throw {| message := "Cannot create: A" |}
  /\ ~ In (ConsoleLog "Processing folder with ID: A")
          (snd (processFolder (D := drive) 5 "R" bob alice A_rejected))
  /\ fst (fst (processFolder (D := drive) 5 "R" "carol@x.com" alice A_rejected)) = Ret tt
  /\ In (ConsoleLog "Processing folder with ID: A")
        (snd (processFolder (D := drive) 5 "R" "carol@x.com" alice A_rejected)).
Proof.
  vm_compute. repeat (split; [try reflexivity; try tauto|]); [|tauto].
  intros H. repeat (destruct H as [H|H]; [discriminate|]). exact H.
Qed.


(** C5 as stated fails: on the store that rejects the creation of folder
    A, the first page of R comes with the continuation token 2, the walk
    throws while processing that page, and the second page of R is never
    requested. *)
Lemma aborted_walk_leaves_a_page_unrequested :
  In (EvList (children_query "R") LIST_FIELDS None (Some 1000)
             (inr {| files := [folderA; info (file "g1" "g1" alice "R")];
                     nextPageToken := Some "2" |}))
     (snd (processFolder (D := drive) 5 "R" bob alice A_rejected))
  /\ fst (fst (processFolder (D := drive) 5 "R" bob alice A_rejected))
     = Throw {| message := "Cannot create: A" |}
  /\ forall q pageSize r,
      ~ In (EvList q LIST_FIELDS (Some "2") pageSize r)
           (snd (processFolder (D := drive) 5 "R" bob alice A_rejected)).
Proof.
  vm_compute. split; [tauto|]. split; [reflexivity|].
  intros q pageSize r H.
  repeat (destruct H as [H|H]; [discriminate|]). exact H.
Qed.

(** C4 as stated fails: the store rejects the creation of folder A, the
    error leaves the walk without having been logged, and the next sibling
    owned by the target, h1, is never copied. *)
Lemma rejected_folder_creation_escapes_the_walk :
  fst (fst (processFolder (D := drive) 5 "R" bob alice A_rejected))
  = Throw {| message := "Cannot create: A" |}
  /\ (forall r, ~ In (EvCopy "h1" "h1" ["R"] ID_NAME r)
                    (snd (processFolder (D := drive) 5 "R" bob alice A_rejected)))
  /\ (forall msg e, ~ In (ConsoleError msg e)
                        (snd (processFolder (D := drive) 5 "R" bob alice A_rejected))).
Proof.
  vm_compute. split; [reflexivity|]. split.
  - intros r H. repeat (destruct H as [H|H]; [discriminate|]). exact H.
  - intros msg e H. repeat (destruct H as [H|H]; [discriminate|]). exact H.
Qed.

(** C8 as stated fails: the listing of folder A is rejected, the error
    reaches [main], which logs it, and the process ends with status 0. *)
Lemma fatal_error_ends_with_status_zero :
  fst (run_program (D := drive) 5 (inr tt) "R" bob A_unlistable) = Some 0
  /\ In (ConsoleError "Error:" {| message := "Cannot list: " ++ children_query "A" |})
        (snd (run_program (D := drive) 5 (inr tt) "R" bob A_unlistable))
  /\ ~ In (ConsoleLog "Process completed successfully!")
          (snd (run_program (D := drive) 5 (inr tt) "R" bob A_unlistable)).
Proof.
  vm_compute. split; [reflexivity|]. split; [tauto|].
  intros H. repeat (destruct H as [H|H]; [discriminate|]). exact H.
Qed.

(** ** The further theorems at work *)

(** The walk of the scenario follows the grammar. *)
Lemma grammar_witness :
  exists tw,
    snd (processFolder (D := drive) 5 "R" bob alice scenario)
    = ConsoleLog "Processing folder with ID: R" :: tw
    /\ walked_from bob "R" None tw.
Proof.
  pose (run := processFolder (D := drive) 5 "R" bob alice scenario).
  assert (Hrun : run = (Ret tt, snd (fst run), snd run)) by (vm_compute; reflexivity).
  exact (finished_walk_follows_the_grammar (D := drive) 5 bob alice "R" _ _ _ Hrun).
Defined.

(** In the two-page walk three entries of bob are served to the walk and
    one entry to the subtree copy: four creations. *)
Lemma accounting_witness :
  created (snd (processFolder (D := drive) 5 "R" bob alice two_pages))
  + rejected (snd (processFolder (D := drive) 5 "R" bob alice two_pages))
  = owned_listed bob (snd (processFolder (D := drive) 5 "R" bob alice two_pages))
    + copy_listed (snd (processFolder (D := drive) 5 "R" bob alice two_pages)).
Proof.
  pose (run := processFolder (D := drive) 5 "R" bob alice two_pages).
  assert (Hrun : run = (Ret tt, snd (fst run), snd run)) by (vm_compute; reflexivity).
  exact (proj1 (finished_walk_accounts_for_every_creation
                  (D := drive) 5 bob alice "R" _ _ _ Hrun)).
Defined.

(** The rejected copy of f1 into the new folder is followed by its error
    line. *)
Lemma reporting_witness :
  exists t2,
    skipn 7 (snd (processFolder (D := drive) 5 "R" bob alice f1_rejected))
    = ConsoleError "Error copying file f1:" {| message := "Cannot copy: f1" |} :: t2.
Proof.
  pose (run := processFolder (D := drive) 5 "R" bob alice f1_rejected).
  assert (Hrun : run = (fst (fst run), snd (fst run), snd run)) by (vm_compute; reflexivity).
  apply (proj1 (every_copy_is_reported (D := drive))
               5 "R" bob alice f1_rejected _ _ (snd run)
               (firstn 6 (snd run)) "f1" "f1" ["new0"] ID_NAME
               (inl {| message := "Cannot copy: f1" |}) _ Hrun).
  vm_compute. reflexivity.
Defined.

(** Nobody called carol owns anything in the scenario: the walk only
    lists. *)
Lemma dry_run_witness :
  created (snd (processFolder (D := drive) 5 "R" "carol@x.com" alice scenario)) = 0.
Proof.
  pose (run := processFolder (D := drive) 5 "R" "carol@x.com" alice scenario).
  assert (Hrun : run = (fst (fst run), snd (fst run), snd run)) by (vm_compute; reflexivity).
  apply (walk_without_owned_entries_creates_nothing
           (D := drive) 5 "R" "carol@x.com" alice scenario _ _ _ Hrun).
  intros q f tok size page entry Hin Hentry. vm_compute in Hin.
  repeat (destruct Hin as [Hin|Hin]; [try discriminate|]); [| |destruct Hin];
    inversion Hin; subst; clear Hin; simpl in Hentry;
    repeat (destruct Hentry as [Hentry|Hentry]; [subst; reflexivity|]); destruct Hentry.
Defined.

(** A returning user. *)
Lemma stored_token_witness :
  Auth.authorize MemAuth.returning
  = (Ret (Auth.setCredentials MemAuth.desktop_client
            (Some (Auth.JObject [("access_token", Auth.JString "old")]))),
     MemAuth.returning,
     [Auth.AuRead Auth.CREDENTIALS_PATH (inr "desktop");
      Auth.AuRead Auth.TOKEN_PATH (inr "token:old")]).
Proof.
  apply (stored_token_needs_no_interaction (E := MemAuth.env) MemAuth.returning
           "desktop" _ "token:old" _); reflexivity.
Defined.

(** No credential file. *)
Lemma credential_errors_witness :
  fst (fst (Auth.authorize MemAuth.bare))
  = Throw {| message := "ENOENT: no such file or directory, open 'credentials.json'" |}.
Proof.
  rewrite (proj1 (credential_errors_are_logged_and_rethrown (E := MemAuth.env))
                 MemAuth.bare
                 {| message := "ENOENT: no such file or directory, open 'credentials.json'" |}
                 eq_refl).
  reflexivity.
Defined.

(** A first run writes the token it was given to token.json. *)
Lemma token_file_witness :
  exists code tokens,
    In (Auth.AuGetToken code (inr tokens)) (snd (Auth.authorize MemAuth.first_time))
    /\ "token:abc" = Auth.JSON_stringify (AuthEnv := MemAuth.env) tokens.
Proof.
  pose (run := Auth.authorize MemAuth.first_time).
  assert (Hrun : run = (fst (fst run), snd (fst run), snd run)) by (vm_compute; reflexivity).
  destruct (only_the_token_file_is_written (E := MemAuth.env) MemAuth.first_time
              _ _ _ "token.json" "token:abc" (inr tt) Hrun)
    as (_ & code & tokens & Hin & Hc & _).
  - vm_compute. tauto.
  - exists code, tokens. split; assumption.
Defined.

(** The endpoint refuses the code: [authorize] throws its error. *)
Lemma interactive_failure_witness :
  fst (fst (Auth.authorize MemAuth.refused)) = Throw {| message := "invalid_grant" |}.
Proof.
  pose (run := Auth.authorize MemAuth.refused).
  assert (Hrun : run = (fst (fst run), snd (fst run), snd run)) by (vm_compute; reflexivity).
  apply (proj1 (interactive_failures_are_thrown_unlogged (E := MemAuth.env)
                  MemAuth.refused _ _ _ Hrun) "4/xyz").
  vm_compute. tauto.
Defined.

(** After a first run the second one is silent. *)
Lemma round_trip_witness :
  exists content token,
    Auth.authorize (snd (fst (Auth.authorize MemAuth.first_time)))
    = (Ret (Auth.setCredentials MemAuth.desktop_client (Some MemAuth.token)),
       snd (fst (Auth.authorize MemAuth.first_time)),
       [Auth.AuRead Auth.CREDENTIALS_PATH (inr content);
        Auth.AuRead Auth.TOKEN_PATH (inr token)]).
Proof.
  pose (run := Auth.authorize MemAuth.first_time).
  assert (Hrun : run = (Ret (Auth.setCredentials MemAuth.desktop_client (Some MemAuth.token)),
                        snd (fst run), snd run))
    by (vm_compute; reflexivity).
  apply (authorize_again_is_silent (E := MemAuth.env) (S := MemAuth.stable)
           MemAuth.first_time _ _ _ Hrun).
  intros code tokens Hin. vm_compute in Hin.
  repeat (destruct Hin as [Hin|Hin]; [try discriminate|]); [|destruct Hin].
  inversion Hin; subst. reflexivity.
Defined.

(** Without credential file the session ends before any question. *)
Lemma failed_session_witness :
  main_session (D := drive) (E := MemAuth.env) 5 MemAuth.bare scenario
  = (Ret tt, MemAuth.bare, scenario,
     [inl (Auth.AuRead Auth.CREDENTIALS_PATH
             (inl {| message := "ENOENT: no such file or directory, open 'credentials.json'" |}));
      inl (Auth.AuError "Error loading client secret file:"
             {| message := "ENOENT: no such file or directory, open 'credentials.json'" |});
      inr (ConsoleError "Error:"
             {| message := "ENOENT: no such file or directory, open 'credentials.json'" |})]).
Proof.
  apply (proj2 (failed_authorization_ends_the_session (D := drive) (E := MemAuth.env))).
  reflexivity.
Defined.

(** The lister without the environment variable, and with it. *)
Lemma script_exit_witness :
  fst (fst (Lister.script (E := MemLister.env) None MemLister.two_files)) = Some 1
  /\ fst (fst (Lister.script (E := MemLister.env) (Some "key.json") MemLister.two_files))
     = Some 0.
Proof.
  split.
  - rewrite (proj1 (script_exit_status (E := MemLister.env)) None MemLister.two_files eq_refl).
    reflexivity.
  - pose (run := Lister.script (E := MemLister.env) (Some "key.json") MemLister.two_files).
    assert (Hrun : run = (fst (fst run), snd (fst run), snd run)) by (vm_compute; reflexivity).
    exact (proj1 (proj2 (script_exit_status (E := MemLister.env))
                        (Some "key.json") MemLister.two_files _ _ _ eq_refl Hrun)).
Defined.

(** The lister without key file. *)
Lemma lister_failure_witness :
  Lister.script (E := MemLister.env) (Some "key.json") MemLister.no_key
  = (Some 0, MemLister.no_key,
     [Lister.LsRead "key.json" (inl {| message := "ENOENT: no such file or directory" |});
      Lister.LsErrorWith "Error al autorizar con la cuenta de servicio:"
                         {| message := "ENOENT: no such file or directory" |};
      Lister.LsErrorValue {| message := "ENOENT: no such file or directory" |}]).
Proof.
  apply (proj1 (lister_authorization_failures (E := MemLister.env))); reflexivity.
Defined.
